(** * Ratcheting validation of custom resources: correlation and cached equality

    Shallow embedding of
    [staging/src/k8s.io/apiextensions-apiserver/pkg/apiserver/validation/ratcheting.go].

    Go pointers to [CorrelatedObject] are locations in an explicit store, so
    that the pointer held by a parent's [children] map and the pointer held
    by a child validator denote the same mutable cell.  Every method that
    mutates scratch space threads the store.  Runtime panics (index out of
    range, nil dereference) and unbounded recursion are explicit outcomes. *)

From Stdlib Require Import QArith.Qcanon.
From stdpp Require Import base option list gmap strings numbers fin_maps.

Close Scope Qc_scope.
Close Scope Q_scope.

Set Warnings "-register-all".

(** ** Decoded values ([interface{}] as produced by JSON decoding) *)

(** Scalars.  A decoded [float64] is never NaN or infinite, so it is the
    rational it denotes; Go's [==] on such floats is equality of that number
    (both zeros denote 0).  [int64] and [float64] are different dynamic
    types. *)
Inductive scalar : Type :=
  | SBool (b : bool)
  | SInt (n : Z)
  | SFloat (q : Qc)
  | SString (s : string).

(** [nil], a scalar, [[]interface{}] or [map[string]interface{}]. *)
Inductive value : Type :=
  | VNull
  | VScalar (s : scalar)
  | VList (l : list value)
  | VMap (m : gmap string value).

Global Instance scalar_eq_dec : EqDecision scalar.
Proof. solve_decision. Defined.

(** [reflect.DeepEqual] at the only place the source calls it: both
    arguments are non-nil and neither a slice nor a map. *)
Definition reflect_DeepEqual (old new : scalar) : bool :=
  bool_decide (old = new).

(** [v == nil] on an [interface{}]. *)
Definition is_nil (v : value) : bool :=
  match v with VNull => true | _ => false end.

(** ** Schemas ([spec.Schema], read-only) *)

Inductive Schema : Type := mkSchema {
  Properties : gmap string Schema;
  AdditionalProperties : option SchemaOrBool;
  Items : option SchemaOrArray;
  Extensions : gmap string value }
with SchemaOrBool : Type := mkSchemaOrBool {
  Allows : bool;
  sob_Schema : option Schema }
with SchemaOrArray : Type := mkSchemaOrArray {
  soa_Schema : option Schema;
  Schemas : list Schema }.

(** Modelled from the spec: [Extensions.GetString] of kube-openapi is not
    part of this file.  The spec describes the list-type annotation as "a
    string-valued extension on list schema nodes": the lookup yields the
    string stored under the key, and the empty string with [false] when the
    key is absent or holds something that is not a string. *)
Definition Extensions_GetString (e : gmap string value) (key : string)
  : string * bool :=
  match e !! key with
  | Some (VScalar (SString s)) => (s, true)
  | _ => (""%string, false)
  end.

(** ** Outcomes of running a method *)

Inductive outcome (A : Type) : Type :=
  | Ok (a : A)
  | Panic          (* runtime fault: index out of range, nil dereference *)
  | OutOfFuel.     (* recursion deeper than the bound given *)
Arguments Ok {A} a.
Arguments Panic {A}.
Arguments OutOfFuel {A}.

Global Instance outcome_ret : MRet outcome := λ A a, Ok a.
Global Instance outcome_bind : MBind outcome := λ A B f m,
  match m with
  | Ok a => f a
  | Panic => Panic
  | OutOfFuel => OutOfFuel
  end.

Global Instance outcome_fmap : FMap outcome := λ A B f m,
  match m with
  | Ok a => Ok (f a)
  | Panic => Panic
  | OutOfFuel => OutOfFuel
  end.

(** ** Correlation nodes and the store *)

(** A pointer to a [CorrelatedObject]: the position of its cell in the store. *)
Abbreviation loc := nat.

(** Keys of [children map[interface{}]*CorrelatedObject]: a field name or an
    index. *)
Abbreviation ckey := (string + Z)%type.
Abbreviation FieldKey f := (inl f : ckey) (only parsing).
Abbreviation IndexKey i := (inr i : ckey) (only parsing).

(** ** External collaborators *)

(** [common.MapList] with its constructor [celopenapi.MakeMapList]: the
    keyed view of the old elements of a map-type list.  [MakeMapList]
    always returns a map list (never a nil interface), and [MapList_Get]
    yields [VNull] when no old element matches. *)
Class MapListImpl : Type := {
  MapList : Type;
  MakeMapList : Schema → list value → MapList;
  MapList_Get : MapList → value → value }.

(** The order in which [for k := range m] visits the keys of a map; Go
    leaves it unspecified. *)
Class RangeOrder : Type := {
  range_keys : gmap string value → list string }.

(** Every key is visited exactly once. *)
Definition range_keys_lawful {rangeOrder : RangeOrder} : Prop :=
  ∀ m : gmap string value, range_keys m ≡ₚ elements (dom m).

(** Types of kube-openapi and strfmt that this file only passes along:
    [strfmt.Registry], the root document, the [validate.Option]s of the
    caller, and validation errors. *)
Class EngineTypes : Type := {
  Registry : Type;
  RootSchema : Type;
  CallerOption : Type;
  ValidationError : Type }.

Section Ratcheting.
Context {mapListImpl : MapListImpl} {rangeOrder : RangeOrder}
        {engineTypes : EngineTypes}.

Record CorrelatedObject : Type := mkCorrelatedObject {
  OldValue : value;
  Value : value;
  Schema_ : option Schema;                    (* *spec.Schema, may be nil *)
  comparisonResult : option bool;             (* *bool *)
  mapList : option MapList;                   (* nil until built *)
  children : gmap ckey loc }.                 (* nil map and empty map agree *)

(** The store: cell [p] is the object a pointer [p] refers to.  Cells are
    only ever appended, so a pointer obtained from the store stays valid;
    the methods below treat a location outside the store as a dereference
    of an invalid pointer. *)
Abbreviation heap := (list CorrelatedObject).

Definition set_comparisonResult (b : bool) (r : CorrelatedObject)
  : CorrelatedObject :=
  {| OldValue := OldValue r; Value := Value r; Schema_ := Schema_ r;
     comparisonResult := Some b; mapList := mapList r;
     children := children r |}.

Definition set_mapList (ml : MapList) (r : CorrelatedObject)
  : CorrelatedObject :=
  {| OldValue := OldValue r; Value := Value r; Schema_ := Schema_ r;
     comparisonResult := comparisonResult r; mapList := Some ml;
     children := children r |}.

Definition set_child (k : ckey) (c : loc) (r : CorrelatedObject)
  : CorrelatedObject :=
  {| OldValue := OldValue r; Value := Value r; Schema_ := Schema_ r;
     comparisonResult := comparisonResult r; mapList := mapList r;
     children := <[k := c]> (children r) |}.

(** [NewCorrelatedObject]: a fresh cell, allocated after every existing one. *)
Definition NewCorrelatedObject (new old : value) (schema : option Schema)
    (h : heap) : loc * heap :=
  (length h,
   h ++ [ {| OldValue := old; Value := new; Schema_ := schema;
             comparisonResult := None; mapList := None; children := ∅ |} ]).

(** A slice index expression [l[i]] with an [int] index. *)
Definition slice_index (l : list value) (i : Z) : outcome value :=
  if decide (0 ≤ i)%Z then
    match l !! Z.to_nat i with
    | Some v => Ok v
    | None => Panic
    end
  else Panic.

Definition len {A} (l : list A) : Z := Z.of_nat (length l).

(** [r.Schema.Extensions.GetString("x-kubernetes-list-type")], first
    component. *)
Definition schemaListType (sch : Schema) : string :=
  (Extensions_GetString (Extensions sch) "x-kubernetes-list-type").1.

(** [correlateOldValueForChildAtNewIndex] *)
Definition correlateOldValueForChildAtNewIndex (p : loc) (index : Z)
    (h : heap) : outcome (value * heap) :=
  match h !! p with
  | None => Panic
  | Some r =>
    match OldValue r with
    | VList oldAsList =>
      match Value r with
      | VList asList =>
        if decide (len asList ≤ index)%Z then Ok (VNull, h)
        else
          match Schema_ r with
          | None => Panic
          | Some sch =>
            let listType := schemaListType sch in
            if decide (listType = "map"%string) then
              currentElement ← slice_index asList index;
              match mapList r with
              | Some oldList => Ok (MapList_Get oldList currentElement, h)
              | None =>
                let oldList := MakeMapList sch oldAsList in
                Ok (MapList_Get oldList currentElement,
                    <[p := set_mapList oldList r]> h)
              end
            else if decide (listType = "set"%string) then Ok (VNull, h)
            else if decide (listType = "atomic"%string) then Ok (VNull, h)
            else if decide (len oldAsList ≤ index)%Z then Ok (VNull, h)
            else v ← slice_index oldAsList index; Ok (v, h)
          end
      | _ => Ok (VNull, h)
      end
    | _ => Ok (VNull, h)
    end
  end.

(** The schema chosen for a property in [Key]. *)
Definition propertySchema (sch : Schema) (field : string) : option Schema :=
  match Properties sch !! field with
  | Some prop => Some prop
  | None =>
    match AdditionalProperties sch with
    | Some addP => sob_Schema addP
    | None => None
    end
  end.

(** The schema chosen for an element in [Index]. *)
Definition itemSchema (sch : Schema) : option Schema :=
  match Items sch with
  | Some i => soa_Schema i
  | None => None
  end.

(** Store a freshly built child under key [k] of node [p]. *)
Definition add_child (p : loc) (k : ckey) (new old : value)
    (schema : option Schema) (h : heap) : loc * heap :=
  let '(c, h1) := NewCorrelatedObject new old schema h in
  (c, alter (set_child k c) p h1).

(** [CorrelatedObject.Key] *)
Definition Key (l : option loc) (field : string) (h : heap)
  : outcome (option loc * heap) :=
  match l with
  | None => Ok (None, h)
  | Some p =>
    match h !! p with
    | None => Panic
    | Some r =>
      match Schema_ r with
      | None => Ok (None, h)
      | Some sch =>
        match children r !! FieldKey field with
        | Some existing => Ok (Some existing, h)
        | None =>
          match OldValue r, Value r with
          | VMap oldAsMap, VMap newAsMap =>
            match oldAsMap !! field, newAsMap !! field with
            | Some oldValueForField, Some newValueForField =>
              match propertySchema sch field with
              | Some ps =>
                let '(res, h') :=
                  add_child p (FieldKey field) newValueForField
                            oldValueForField (Some ps) h in
                Ok (Some res, h')
              | None => Ok (None, h)
              end
            | _, _ => Ok (None, h)
            end
          | _, _ => Ok (None, h)
          end
        end
      end
    end
  end.

(** [CorrelatedObject.Index] *)
Definition Index (l : option loc) (i : Z) (h : heap)
  : outcome (option loc * heap) :=
  match l with
  | None => Ok (None, h)
  | Some p =>
    match h !! p with
    | None => Panic
    | Some r =>
      match Schema_ r with
      | None => Ok (None, h)
      | Some sch =>
        match children r !! IndexKey i with
        | Some existing => Ok (Some existing, h)
        | None =>
          match Value r with
          | VList asList =>
            if decide (len asList ≤ i)%Z then Ok (None, h)
            else
              '(oldValueForIndex, h1) ← correlateOldValueForChildAtNewIndex p i h;
              if is_nil oldValueForIndex then Ok (None, h1)
              else
                match itemSchema sch with
                | Some _ =>
                  elem ← slice_index asList i;
                  let '(res, h2) :=
                    add_child p (IndexKey i) elem oldValueForIndex
                              (itemSchema sch) h1 in
                  Ok (Some res, h2)
                | None => Ok (None, h1)
                end
          | _ => Ok (None, h)
          end
        end
      end
    end
  end.

(** The two loops of [CachedDeepEqual]: visit the keys in order, look the
    child up in the receiver's [children] as they are at that moment, stop
    at the first missing or unequal child. *)
Fixpoint allChildrenEqual (rec : loc → heap → outcome (bool * heap))
    (p : loc) (keys : list ckey) (h : heap) : outcome (bool * heap) :=
  match keys with
  | [] => Ok (true, h)
  | k :: keys' =>
    match h !! p with
    | None => Panic
    | Some r =>
      match children r !! k with
      | None => Ok (false, h)
      | Some child =>
        '(eq, h') ← rec child h;
        if eq : bool then allChildrenEqual rec p keys' h' else Ok (false, h')
      end
    end
  end.

(** [for i := range newAsArray] *)
Definition index_keys (n : nat) : list ckey :=
  (λ i : nat, IndexKey (Z.of_nat i)) <$> seq 0 n.

(** [for k := range oldAsMap] *)
Definition field_keys (m : gmap string value) : list ckey :=
  (λ f : string, FieldKey f) <$> range_keys m.

(** The body of [CachedDeepEqual] below the cache test, before the deferred
    store of the result. *)
Definition deepEqualBody (rec : loc → heap → outcome (bool * heap))
    (p : loc) (r : CorrelatedObject) (h : heap) : outcome (bool * heap) :=
  if is_nil (Value r) && is_nil (OldValue r) then Ok (true, h)
  else if is_nil (Value r) || is_nil (OldValue r) then Ok (false, h)
  else
    match OldValue r, Value r with
    | VList oldAsArray, VList newAsArray =>
      if decide (length oldAsArray ≠ length newAsArray) then Ok (false, h)
      else if decide (size (children r) ≠ length oldAsArray) then Ok (false, h)
      else allChildrenEqual rec p (index_keys (length newAsArray)) h
    | VList _, _ | _, VList _ => Ok (false, h)
    | VMap oldAsMap, VMap newAsMap =>
      if decide (size oldAsMap ≠ size newAsMap) then Ok (false, h)
      else if decide (size oldAsMap = 0 ∧ size newAsMap = 0) then Ok (true, h)
      else if decide (size (children r) ≠ size oldAsMap) then Ok (false, h)
      else allChildrenEqual rec p (field_keys oldAsMap) h
    | VMap _, _ | _, VMap _ => Ok (false, h)
    | VScalar o, VScalar n => Ok (reflect_DeepEqual o n, h)
    | _, _ => Ok (false, h)        (* a nil value: returned above *)
    end.

(** [CorrelatedObject.CachedDeepEqual], with a bound on the recursion
    depth.  The deferred function stores the result in the receiver as it
    is when the body returns. *)
Fixpoint CachedDeepEqual_fuel (fuel : nat) (p : loc) (h : heap)
  : outcome (bool * heap) :=
  match fuel with
  | 0 => OutOfFuel
  | S fuel' =>
    match h !! p with
    | None => Panic
    | Some r =>
      match comparisonResult r with
      | Some b => Ok (b, h)
      | None =>
        '(res, h') ← deepEqualBody (CachedDeepEqual_fuel fuel') p r h;
        Ok (res, alter (set_comparisonResult res) p h')
      end
    end
  end.

(** Children are allocated after their parent, so a chain of nested calls
    is never longer than the store. *)
Definition CachedDeepEqual (p : loc) (h : heap) : outcome (bool * heap) :=
  CachedDeepEqual_fuel (S (length h)) p h.

(** ** Validation results and validators *)

(** Modelled from the spec: [validate.Result] of kube-openapi is not part of
    this file.  The spec gives "a validation result consisting of an ordered
    list of errors and a separate ordered list of warnings"; a result
    "reports no failures" when it has no errors, and merging as warnings
    means "every error in the result is reclassified as a warning". *)
Record Result : Type := mkResult {
  Errors : list ValidationError;
  Warnings : list ValidationError }.

Definition IsValid (res : Result) : bool :=
  match Errors res with [] => true | _ => false end.

Definition MergeAsWarnings (r other : Result) : Result :=
  {| Errors := Errors r;
     Warnings := Warnings r ++ Errors other ++ Warnings other |}.

(** [&validate.Result{}] *)
Definition emptyResult : Result := {| Errors := []; Warnings := [] |}.

(** [schemaArgs]; [O] is the type of options. *)
Record schemaArgs (O : Type) : Type := mkSchemaArgs {
  schema : option Schema;
  root : RootSchema;
  path : string;
  knownFormats : Registry;
  options : list O }.
Arguments mkSchemaArgs {O}.
Arguments schema {O}.
Arguments root {O}.
Arguments path {O}.
Arguments knownFormats {O}.
Arguments options {O}.

(** A [validate.Option] is a closure; the only closure this file builds is
    the one of [getValidateOption], which captures its receiver. *)
Inductive validate_Option : Type :=
  | CallerOpt (o : CallerOption)
  | RatchetingHooks (args : schemaArgs validate_Option)
                    (correlation : option loc).

Record ratchetingValueValidator : Type := mkRatchetingValueValidator {
  rv_args : schemaArgs validate_Option;
  correlation : option loc }.

Record RatchetingSchemaValidator : Type := mkRatchetingSchemaValidator {
  rs_args : schemaArgs validate_Option }.

(** A [*validate.SchemaValidator]: the engine's validator, with the
    arguments [validate.NewSchemaValidator] was given. *)
Record SchemaValidator : Type := validate_NewSchemaValidator {
  sv_schema : option Schema;
  sv_rootSchema : RootSchema;
  sv_root : string;
  sv_formats : Registry;
  sv_options : list validate_Option }.

(** A [validate.ValueValidator] handed to the engine: one of its own schema
    validators or a ratcheting one. *)
Inductive ValueValidator : Type :=
  | schemaValidator (s : SchemaValidator)
  | ratcheting (r : ratchetingValueValidator).

End Ratcheting.

Abbreviation heap := (list CorrelatedObject).

Arguments mkSchemaArgs {_ O}.
Arguments schema {_ O}.
Arguments root {_ O}.
Arguments path {_ O}.
Arguments knownFormats {_ O}.
Arguments options {_ O}.

(** The engine: [SchemaValidator.Validate] of kube-openapi.  While it runs
    it may call the hooks installed by the options, which touch the store. *)
Class Engine {mapListImpl : MapListImpl} {engineTypes : EngineTypes}
  : Type := {
  SchemaValidator_Validate :
    SchemaValidator → value → heap → outcome (Result * heap) }.

Section Validators.
Context {mapListImpl : MapListImpl} {rangeOrder : RangeOrder}
        {engineTypes : EngineTypes} {engine : Engine}.

Definition NewRatchetingSchemaValidator (schema : option Schema)
    (rootSchema : RootSchema) (root : string) (formats : Registry)
    (options : list validate_Option) : RatchetingSchemaValidator :=
  {| rs_args := {| schema := schema; root := rootSchema; path := root;
                   knownFormats := formats; options := options |} |}.

Definition newRatchetingValueValidator (correlation : option loc)
    (args : schemaArgs validate_Option) : ratchetingValueValidator :=
  {| rv_args := args; correlation := correlation |}.

Definition getValidateOption (r : ratchetingValueValidator) : validate_Option :=
  RatchetingHooks (rv_args r) (correlation r).

(** The validator [Validate] builds for the engine,
    [validate.NewSchemaValidator(r.schema, r.root, r.path, r.knownFormats,
    opts...)]: the receiver's arguments with the ratcheting hooks put in
    front of its options. *)
Definition engineValidatorOf (rv : ratchetingValueValidator) : SchemaValidator :=
  validate_NewSchemaValidator (schema (rv_args rv)) (root (rv_args rv))
    (path (rv_args rv)) (knownFormats (rv_args rv))
    (getValidateOption rv :: options (rv_args rv)).

(** [ratchetingValueValidator.Validate] *)
Definition Validate (r : ratchetingValueValidator) (new : value) (h : heap)
  : outcome (Result * heap) :=
  let s := engineValidatorOf r in
  match correlation r with
  | None => Panic
  | Some c =>
    match h !! c with
    | None => Panic
    | Some node =>
      '(res, h1) ← SchemaValidator_Validate s (Value node) h;
      if IsValid res then Ok (res, h1)
      else
        '(eq, h2) ← CachedDeepEqual c h1;
        if eq : bool then Ok (MergeAsWarnings emptyResult res, h2)
        else Ok (res, h2)
    end
  end.

(** A call of the interface method [ValueValidator.Validate]. *)
Definition ValueValidator_Validate (v : ValueValidator) (data : value)
    (h : heap) : outcome (Result * heap) :=
  match v with
  | schemaValidator s => SchemaValidator_Validate s data h
  | ratcheting r => Validate r data h
  end.

(** [RatchetingSchemaValidator.Validate] *)
Definition RatchetingSchemaValidator_Validate (r : RatchetingSchemaValidator)
    (new : value) (h : heap) : outcome (Result * heap) :=
  let sv := validate_NewSchemaValidator (schema (rs_args r)) (root (rs_args r))
              (path (rs_args r)) (knownFormats (rs_args r))
              (options (rs_args r)) in
  SchemaValidator_Validate sv new h.

(** [RatchetingSchemaValidator.ValidateUpdate]: the tree of one call lives
    in a store of its own. *)
Definition ValidateUpdate (r : RatchetingSchemaValidator) (new old : value)
  : outcome Result :=
  let '(c, h) := NewCorrelatedObject new old (schema (rs_args r)) [] in
  '(res, _) ← Validate (newRatchetingValueValidator (Some c) (rs_args r)) new h;
  Ok res.

(** [ratchetingValueValidator.SubPropertyValidator] *)
Definition SubPropertyValidator (r : ratchetingValueValidator)
    (field : string) (schema : option Schema) (rootSchema : RootSchema)
    (root : string) (formats : Registry) (options : list validate_Option)
    (h : heap) : outcome (ValueValidator * heap) :=
  '(childNode, h') ← Key (correlation r) field h;
  match childNode with
  | None =>
    Ok (schemaValidator
          (validate_NewSchemaValidator schema rootSchema root formats options),
        h')
  | Some _ =>
    Ok (ratcheting (newRatchetingValueValidator childNode
          {| schema := schema; root := rootSchema; path := root;
             knownFormats := formats; options := options |}), h')
  end.

(** [ratchetingValueValidator.SubIndexValidator] *)
Definition SubIndexValidator (r : ratchetingValueValidator)
    (index : Z) (schema : option Schema) (rootSchema : RootSchema)
    (root : string) (formats : Registry) (options : list validate_Option)
    (h : heap) : outcome (ValueValidator * heap) :=
  '(childNode, h') ← Index (correlation r) index h;
  match childNode with
  | None =>
    Ok (schemaValidator
          (validate_NewSchemaValidator schema rootSchema root formats options),
        h')
  | Some _ =>
    Ok (ratcheting (newRatchetingValueValidator childNode
          {| schema := schema; root := rootSchema; path := root;
             knownFormats := formats; options := options |}), h')
  end.

(** The arguments a validator was constructed with. *)
Definition validator_args (v : ValueValidator) : schemaArgs validate_Option :=
  match v with
  | schemaValidator s =>
    {| schema := sv_schema s; root := sv_rootSchema s; path := sv_root s;
       knownFormats := sv_formats s; options := sv_options s |}
  | ratcheting r => rv_args r
  end.

(** [ratchetingValueValidator.SetPath]: the receiver is passed by value and
    the body is empty, so the validator and the store are as before. *)
Definition SetPath (f : ratchetingValueValidator) (path : string) (h : heap)
  : ratchetingValueValidator * heap := (f, h).

(** [ratchetingValueValidator.Applies]; a [reflect.Kind] is a small number. *)
Definition Applies (f : ratchetingValueValidator) (source : value)
    (valueKind : nat) : bool := true.

End Validators.

(** ** Invariant of the stores built by [Key] and [Index] *)

Section Invariant.
Context {mapListImpl : MapListImpl}.

(** The old value that [correlateOldValueForChildAtNewIndex] resolves for
    the element at position [i], as a function of the values alone. *)
Definition correlatedOld (sch : Schema) (oldAsList asList : list value)
    (i : nat) : value :=
  let listType := schemaListType sch in
  if decide (listType = "map"%string) then
    match asList !! i with
    | Some currentElement =>
      MapList_Get (MakeMapList sch oldAsList) currentElement
    | None => VNull
    end
  else if decide (listType = "set"%string) then VNull
  else if decide (listType = "atomic"%string) then VNull
  else default VNull (oldAsList !! i).

(** The store after [correlateOldValueForChildAtNewIndex] has run on node
    [p]: a map-type list gets its map list built on the first call. *)
Definition index_store (p : loc) (r : CorrelatedObject) (sch : Schema)
    (oldAsList : list value) (h : heap) : heap :=
  if decide (schemaListType sch = "map"%string) then
    match mapList r with
    | Some _ => h
    | None => <[p := set_mapList (MakeMapList sch oldAsList) r]> h
    end
  else h.

(** What a memoized child under key [k] of node [r] looks like. *)
Definition child_ok (h : heap) (r : CorrelatedObject) (k : ckey) (c : loc)
  : Prop :=
  ∃ cr, h !! c = Some cr ∧
    match k with
    | inl field =>
      ∃ sch oldAsMap newAsMap,
        Schema_ r = Some sch ∧
        OldValue r = VMap oldAsMap ∧ Value r = VMap newAsMap ∧
        oldAsMap !! field = Some (OldValue cr) ∧
        newAsMap !! field = Some (Value cr) ∧
        is_Some (Schema_ cr) ∧ Schema_ cr = propertySchema sch field
    | inr i =>
      ∃ sch oldAsList asList,
        Schema_ r = Some sch ∧
        OldValue r = VList oldAsList ∧ Value r = VList asList ∧
        (0 ≤ i)%Z ∧ asList !! Z.to_nat i = Some (Value cr) ∧
        OldValue cr = correlatedOld sch oldAsList asList (Z.to_nat i) ∧
        OldValue cr ≠ VNull ∧
        is_Some (Schema_ cr) ∧ Schema_ cr = itemSchema sch
    end.

Definition node_ok (h : heap) (p : loc) (r : CorrelatedObject) : Prop :=
  (∀ k c, children r !! k = Some c → p < c ∧ child_ok h r k c) ∧
  (∀ ml, mapList r = Some ml →
     ∃ sch oldAsList,
       Schema_ r = Some sch ∧ OldValue r = VList oldAsList ∧
       ml = MakeMapList sch oldAsList).

(** Children come after their parent and agree with its values; a cached
    map list is the one of the node's old list. *)
Definition heap_wf (h : heap) : Prop :=
  ∀ p r, h !! p = Some r → node_ok h p r.

(** The effect of a lookup that returned [res] on the store: nothing but
    the map list of the receiver may differ when it failed; when it
    succeeded, the child is the entry under key [k], either found there or
    created as the newest cell. *)
Definition lookup_effect (p : loc) (k : ckey) (r : CorrelatedObject)
    (h : heap) (res : option loc) (h' : heap) : Prop :=
  match res with
  | None =>
    length h' = length h ∧
    (∀ q, q ≠ p → h' !! q = h !! q) ∧
    ∃ r', h' !! p = Some r' ∧ children r' = children r ∧
          comparisonResult r' = comparisonResult r ∧
          children r' !! k = None
  | Some c =>
    (children r !! k = Some c ∧ h' = h) ∨
    (children r !! k = None ∧ c = length h ∧ length h' = S (length h) ∧
     (∀ q, q ≠ p → q < length h → h' !! q = h !! q) ∧
     ∃ r', h' !! p = Some r' ∧ children r' = <[k := c]> (children r) ∧
           comparisonResult r' = comparisonResult r)
  end.

(** The result of the comparison when the two values alone decide it:
    every case of [CachedDeepEqual] that returns before looking at the
    children. *)
Definition leafEqual (old new : value) : option bool :=
  match old, new with
  | VNull, VNull => Some true
  | VNull, _ | _, VNull => Some false
  | VScalar o, VScalar n => Some (reflect_DeepEqual o n)
  | VList o, VList n =>
    if decide (length o ≠ length n) then Some false else None
  | VMap o, VMap n =>
    if decide (size o ≠ size n) then Some false
    else if decide (size o = 0) then Some true else None
  | _, _ => Some false
  end.

(** A filled cache agrees with the values wherever they decide. *)
Definition caches_sound (h : heap) : Prop :=
  ∀ p r b b',
    h !! p = Some r → comparisonResult r = Some b →
    leafEqual (OldValue r) (Value r) = Some b' → b = b'.

(** ** The equality algorithm as the specification words it *)

(** "equal iff every child is recursively equal"; a child that was never
    populated counts as not equal. *)
Fixpoint everyChildEqual (rec : loc → option bool) (kids : gmap ckey loc)
    (keys : list ckey) : option bool :=
  match keys with
  | [] => Some true
  | k :: keys' =>
    b ← match kids !! k with
        | None => Some false
        | Some child => rec child
        end;
    bs ← everyChildEqual rec kids keys';
    Some (b && bs)
  end.

Fixpoint CachedDeepEqual_reference (fuel : nat) (h : heap) (p : loc)
  : option bool :=
  match fuel with
  | 0 => None
  | S fuel' =>
    r ← h !! p;
    match comparisonResult r with
    | Some b => Some b                          (* memoized *)
    | None =>
      match OldValue r, Value r with
      | VNull, VNull => Some true               (* 1: both null *)
      | VNull, _ | _, VNull => Some false       (* 1: exactly one null *)
      | VList old, VList new =>                 (* 2: both lists *)
        if decide (length old ≠ length new) then Some false
        else if decide (size (children r) ≠ length old) then Some false
        else everyChildEqual (CachedDeepEqual_reference fuel' h)
               (children r) (index_keys (length old))
      | VMap old, VMap new =>                   (* 3: both maps *)
        if decide (size old ≠ size new) then Some false
        else if decide (size old = 0) then Some true
        else if decide (size (children r) ≠ size old) then Some false
        else everyChildEqual (CachedDeepEqual_reference fuel' h)
               (children r) ((λ f : string, FieldKey f) <$> elements (dom old))
      | VScalar old, VScalar new =>             (* 5: both scalars *)
        Some (bool_decide (old = new))
      | _, _ => Some false                      (* 4: mixed shapes *)
      end
    end
  end.

(** The reference value of a node, with a bound that always suffices when
    children come after their parent. *)
Definition Reference (h : heap) (p : loc) : option bool :=
  CachedDeepEqual_reference (length h) h p.

(** ** Stores that differ in equality caches only *)

Definition same_shape (r r' : CorrelatedObject) : Prop :=
  OldValue r' = OldValue r ∧ Value r' = Value r ∧ Schema_ r' = Schema_ r ∧
  mapList r' = mapList r ∧ children r' = children r.

(** [h'] is [h] with some equality caches filled in and nothing else
    touched. *)
Definition cache_frame (h h' : heap) : Prop :=
  length h' = length h ∧
  ∀ q r, h !! q = Some r → ∃ r', h' !! q = Some r' ∧ same_shape r r'.

(** As [cache_frame], and moreover: cells before [p0] are untouched, a
    filled cache keeps its value, and a newly filled cache holds the
    reference value of its node. *)
Definition cache_ext (p0 : loc) (h h' : heap) : Prop :=
  length h' = length h ∧
  ∀ q r, h !! q = Some r →
    ∃ r', h' !! q = Some r' ∧ same_shape r r' ∧
      (q < p0 → r' = r) ∧
      (∀ b, comparisonResult r = Some b → comparisonResult r' = Some b) ∧
      (∀ b, comparisonResult r = None → comparisonResult r' = Some b →
            Reference h q = Some b).

End Invariant.

(** ** The stores a validation can build *)

Section Reachable.
Context {mapListImpl : MapListImpl} {rangeOrder : RangeOrder}.

(** A store is reachable when it is the store of a fresh root, or results
    from a reachable one by a lookup or an equality test that returned. *)
Inductive reachable : heap → Prop :=
  | reachable_root new old schema :
      reachable (NewCorrelatedObject new old schema []).2
  | reachable_Key l field h res h' :
      reachable h → Key l field h = Ok (res, h') → reachable h'
  | reachable_Index l (i : Z) h res h' :
      reachable h → Index l i h = Ok (res, h') → reachable h'
  | reachable_CachedDeepEqual p h b h' :
      reachable h → CachedDeepEqual p h = Ok (b, h') → reachable h'.

End Reachable.

(** ** Further notions used to describe what the code does *)

Section Traversal.
Context {mapListImpl : MapListImpl}.

(** The child keys the engine can ask for at a value: every index of a
    list, every field of a map, none for anything else. *)
Definition positions (v : value) : list ckey :=
  match v with
  | VList l => index_keys (length l)
  | VMap m => (λ f : string, FieldKey f) <$> elements (dom m)
  | _ => []
  end.

(** Every position of the new value at [p] has a child, and so on below,
    down to [fuel] levels. *)
Fixpoint fully_visited (fuel : nat) (h : heap) (p : loc) : bool :=
  match fuel with
  | 0 => false
  | S fuel' =>
    match h !! p with
    | None => false
    | Some r =>
      forallb (λ k, match children r !! k with
                    | Some c => fully_visited fuel' h c
                    | None => false
                    end)
              (positions (Value r))
    end
  end.

(** The node's schema declares the list type "map". *)
Definition is_map_list_node (r : CorrelatedObject) : bool :=
  match Schema_ r with
  | Some sch => bool_decide (schemaListType sch = "map"%string)
  | None => false
  end.

(** No node of the store is a map-type list. *)
Definition no_map_lists (h : heap) : bool :=
  forallb (λ r, negb (is_map_list_node r)) h.

(** No node of the store has "not equal" in its cache. *)
Definition no_cached_false (h : heap) : bool :=
  forallb (λ r, match comparisonResult r with
                | Some false => false
                | _ => true
                end) h.

(** A cache holding "equal" sits on a node whose two values are the
    same. *)
Definition caches_true_sound (h : heap) : Prop :=
  ∀ p r, h !! p = Some r → comparisonResult r = Some true →
         OldValue r = Value r.

(** [h'] has every cell of [h], with the same values and schema. *)
Definition keeps_nodes (h h' : heap) : Prop :=
  ∀ q r, h !! q = Some r →
    ∃ r', h' !! q = Some r' ∧ OldValue r' = OldValue r ∧
          Value r' = Value r ∧ Schema_ r' = Schema_ r.

End Traversal.

Section Evolution.
Context {mapListImpl : MapListImpl} {rangeOrder : RangeOrder}.

(** [h'] has every cell of [h] with the same values, schema and equality
    cache, and the cells it adds have an empty cache. *)
Definition grows (h h' : heap) : Prop :=
  (∀ q r, h !! q = Some r →
     ∃ r', h' !! q = Some r' ∧ OldValue r' = OldValue r ∧
           Value r' = Value r ∧ Schema_ r' = Schema_ r ∧
           comparisonResult r' = comparisonResult r) ∧
  (∀ q r', h' !! q = Some r' → length h ≤ q → comparisonResult r' = None).

(** [h'] results from [h] by lookups and equality tests that returned:
    what an engine can do to the store through the hooks. *)
Inductive evolves : heap → heap → Prop :=
  | evolves_refl h : evolves h h
  | evolves_Key h0 l field h res h' :
      evolves h0 h → Key l field h = Ok (res, h') → evolves h0 h'
  | evolves_Index h0 l (i : Z) h res h' :
      evolves h0 h → Index l i h = Ok (res, h') → evolves h0 h'
  | evolves_CachedDeepEqual h0 p h b h' :
      evolves h0 h → CachedDeepEqual p h = Ok (b, h') → evolves h0 h'.

End Evolution.

(** ** Concrete collaborators, used to run the definitions *)

Module Examples.
Local Open Scope string_scope.

(** Visit the keys in the order of [elements]. *)
Definition sortedRange : RangeOrder :=
  {| range_keys m := elements (dom m) |}.

(** The scalar stored under ["name"] in an object, if any. *)
Definition nameOf (v : value) : option scalar :=
  match v with
  | VMap m =>
    match m !! "name" with
    | Some (VScalar s) => Some s
    | _ => None
    end
  | _ => None
  end.

(** A map list for schemas whose only map key is ["name"]: the first old
    element with the same name, [VNull] when there is none. *)
Definition nameKeyed : MapListImpl :=
  {| MapList := list value;
     MakeMapList _ oldAsList := oldAsList;
     MapList_Get oldList currentElement :=
       match nameOf currentElement with
       | Some n =>
         default VNull
           (find (λ o, bool_decide (nameOf o = Some n)) oldList)
       | None => VNull
       end |}.

(** Errors are messages; the other engine types carry nothing. *)
Definition plainTypes : EngineTypes :=
  {| Registry := unit; RootSchema := unit; CallerOption := unit;
     ValidationError := string |}.

Definition vInt (n : Z) : value := VScalar (SInt n).
Definition vString (s : string) : value := VScalar (SString s).

(** A schema with no properties, no items and no extensions. *)
Definition leafSchema : Schema :=
  {| Properties := ∅; AdditionalProperties := None; Items := None;
     Extensions := ∅ |}.

(** An object schema declaring the listed properties as leaves. *)
Definition objectSchema (fields : list string) : Schema :=
  {| Properties := list_to_map ((λ f, (f, leafSchema)) <$> fields);
     AdditionalProperties := None; Items := None; Extensions := ∅ |}.

(** A map-type list, keyed by ["name"], of objects with the fields
    ["name"] and ["v"]. *)
Definition keyedListSchema : Schema :=
  {| Properties := ∅; AdditionalProperties := None;
     Items := Some {| soa_Schema := Some (objectSchema ["name"; "v"]);
                      Schemas := [] |};
     Extensions :=
       {[ "x-kubernetes-list-type" := VScalar (SString "map");
          "x-kubernetes-list-map-keys" := VList [VScalar (SString "name")] ]} |}.

(** A list schema with leaf items and the given extensions. *)
Definition listSchema (ext : gmap string value) : Schema :=
  {| Properties := ∅; AdditionalProperties := None;
     Items := Some {| soa_Schema := Some leafSchema; Schemas := [] |};
     Extensions := ext |}.

Definition listTypeExt (ty : string) : gmap string value :=
  {[ "x-kubernetes-list-type" := vString ty ]}.

(** The store of a fresh root node. *)
Definition rootHeap {mapListImpl : MapListImpl} (new old : value) (schema : Schema)
  : heap :=
  (NewCorrelatedObject new old (Some schema) []).2.

(** [Result.Merge]: append the errors and the warnings. *)
Definition mergeResults {engineTypes : EngineTypes} (a b : Result) : Result :=
  {| Errors := Errors a ++ Errors b; Warnings := Warnings a ++ Warnings b |}.

(** The hooks a list of options installs: options are applied in order, so
    the last ratcheting option decides. *)
Definition installedHooks {engineTypes : EngineTypes} (opts : list validate_Option)
  : option ratchetingValueValidator :=
  last (omap (λ o, match o with
                   | RatchetingHooks args c =>
                     Some {| rv_args := args; correlation := c |}
                   | CallerOpt _ => None
                   end) opts).

(** Run [visit] on every item, threading the store and merging results. *)
Fixpoint visitAll {mapListImpl : MapListImpl} {engineTypes : EngineTypes} {A : Type}
    (visit : A → heap → outcome (Result * heap)) (items : list A)
    (acc : Result) (h : heap) : outcome (Result * heap) :=
  match items with
  | [] => Ok (acc, h)
  | x :: items' =>
    '(res, h1) ← visit x h;
    visitAll visit items' (mergeResults acc res) h1
  end.

Section WalkingEngine.
Context {mapListImpl : MapListImpl} {rangeOrder : RangeOrder}.
Existing Instance plainTypes.

(** The errors of one value against its schema, children aside. *)
Variable check : option Schema → value → list string.

(** Get the validator of a child from the installed hook, or build the
    engine's own, and run it on the child's value. *)
Definition visitChild (E : Engine)
    (viaHook : option (heap → outcome (ValueValidator * heap)))
    (s : SchemaValidator) (childSchema : Schema) (data : value) (h : heap)
  : outcome (Result * heap) :=
  '(v, h1) ← match viaHook with
             | Some hook => hook h
             | None =>
               Ok (schemaValidator
                     (validate_NewSchemaValidator (Some childSchema)
                        (sv_rootSchema s) (sv_root s) (sv_formats s) []), h)
             end;
  ValueValidator_Validate (engine := E) v data h1.

(** A small engine in the manner of kube-openapi: check the value itself,
    then visit every field that has a schema and every element of a list,
    asking the installed hooks for the validator of each child.  The
    bound limits the nesting depth. *)
Fixpoint walk (fuel : nat) (s : SchemaValidator) (data : value) (h : heap)
  : outcome (Result * heap) :=
  match fuel with
  | 0 => OutOfFuel
  | S fuel' =>
    let E : Engine := {| SchemaValidator_Validate := walk fuel' |} in
    let own := {| Errors := check (sv_schema s) data; Warnings := [] |} in
    let hooks := installedHooks (sv_options s) in
    match sv_schema s, data with
    | Some sch, VMap m =>
      visitAll
        (λ '(field, v) h,
           match propertySchema sch field with
           | Some ps =>
             visitChild E
               ((λ rv, SubPropertyValidator rv field (Some ps) (sv_rootSchema s)
                         (sv_root s) (sv_formats s) []) <$> hooks)
               s ps v h
           | None => Ok (emptyResult, h)
           end)
        (map_to_list m) own h
    | Some sch, VList l =>
      visitAll
        (λ '(i, v) h,
           match itemSchema sch with
           | Some ps =>
             visitChild E
               ((λ rv, SubIndexValidator rv (Z.of_nat i) (Some ps)
                         (sv_rootSchema s) (sv_root s) (sv_formats s) [])
                  <$> hooks)
               s ps v h
           | None => Ok (emptyResult, h)
           end)
        (imap (λ i v, (i, v)) l) own h
    | _, _ => Ok (own, h)
    end
  end.

Definition walkingEngine (fuel : nat) : Engine :=
  {| SchemaValidator_Validate := walk fuel |}.

End WalkingEngine.

(** Strings must be one of ["A"] and ["B"]; anything else passes. *)
Definition enumAB (_ : option Schema) (v : value) : list string :=
  match v with
  | VScalar (SString s) =>
    if decide (s = "A" ∨ s = "B") then [] else ["must be one of A, B"]
  | _ => []
  end.

(** Objects and lists are rejected as a whole; anything else passes. *)
Definition scalarsOnly (_ : option Schema) (v : value) : list string :=
  match v with
  | VMap _ | VList _ => ["must be a scalar"]
  | _ => []
  end.

(** Lists are rejected as a whole; anything else passes. *)
Definition noLists (_ : option Schema) (v : value) : list string :=
  match v with
  | VList _ => ["must not be a list"]
  | _ => []
  end.

(** The results the example checks produce for a rejected value. *)
Definition enumFailure : Result (engineTypes := plainTypes) :=
  @mkResult plainTypes ["must be one of A, B"] [].

Definition scalarFailure : Result (engineTypes := plainTypes) :=
  @mkResult plainTypes ["must be a scalar"] [].

(** A top-level validator for [schema] without options of the caller. *)
Definition validatorFor (schema : Schema)
  : RatchetingSchemaValidator (engineTypes := plainTypes) :=
  NewRatchetingSchemaValidator (engineTypes := plainTypes) (Some schema) tt "" tt [].

(** The ratcheting validator of the root node of a store. *)
Definition rootValidator (schema : Schema)
  : ratchetingValueValidator (engineTypes := plainTypes) :=
  newRatchetingValueValidator (engineTypes := plainTypes) (Some 0)
    (rs_args (validatorFor schema)).

(** The store an operation left, the empty store if it did not return. *)
Definition storeOf {mapListImpl : MapListImpl} {A : Type}
    (o : outcome (A * heap)) : heap :=
  match o with
  | Ok (_, h) => h
  | _ => []
  end.

(** An object with an integer under ["x"] and nil under ["y"]. *)
Definition sampleObject (x : Z) : value :=
  VMap {[ "x" := vInt x; "y" := VNull ]}.

(** An element of a map-type list keyed by ["name"]. *)
Definition named (n : string) (v : Z) : value :=
  VMap {[ "name" := vString n; "v" := vInt v ]}.

(** The elements ["a"] and ["b"] of a map-type list, in both orders. *)
Definition listAB : value := VList [named "a" 1; named "b" 2].
Definition listBA : value := VList [named "b" 2; named "a" 1].

Section Stores.
Existing Instance nameKeyed.

(** Root: a map-type list whose elements were reordered and not changed. *)
Definition reorderedStore : heap :=
  rootHeap listBA listAB keyedListSchema.

(** Root: the same object as old and new value, both fields declared. *)
Definition objectStore : heap :=
  rootHeap (sampleObject 1) (sampleObject 1) (objectSchema ["x"; "y"]).

(** [objectStore] after both fields were looked up. *)
Definition visitedObjectStore : heap :=
  storeOf (Key (Some 0) "y" (storeOf (Key (Some 0) "x" objectStore))).

(** Root: a list correlated by position, changed in its first element. *)
Definition positionalStore : heap :=
  rootHeap (VList [vInt 1; vInt 2]) (VList [vInt 9; vInt 2]) (listSchema ∅).

(** Root: a list correlated by position whose old element is nil. *)
Definition nilElementStore : heap :=
  rootHeap (VList [vInt 1]) (VList [VNull]) (listSchema ∅).

(** Root: a map-type list whose new element has no old counterpart. *)
Definition keyedStore : heap :=
  rootHeap (VList [named "a" 1]) (VList []) keyedListSchema.

(** Root: an unchanged one-element list of the given list type. *)
Definition unchangedListStore (ty : string) : heap :=
  rootHeap (VList [vInt 1]) (VList [vInt 1]) (listSchema (listTypeExt ty)).

(** Root: an unchanged object whose only field has no schema. *)
Definition undeclaredFieldStore : heap :=
  rootHeap (VMap {[ "x" := vInt 1 ]}) (VMap {[ "x" := vInt 1 ]})
           (objectSchema []).

(** Root: an unchanged object whose only field is nil and has no
    schema. *)
Definition undeclaredNilFieldStore : heap :=
  rootHeap (VMap {[ "y" := VNull ]}) (VMap {[ "y" := VNull ]})
           (objectSchema []).

(** Root: an unchanged string that the enumeration rejects. *)
Definition legacyStore : heap :=
  rootHeap (vString "legacy") (vString "legacy") leafSchema.

End Stores.

End Examples.

(** * Properties of the embedding *)

Section Basics.
Context {mapListImpl : MapListImpl} {rangeOrder : RangeOrder}.
Implicit Types (h : heap) (p q c : loc) (r : CorrelatedObject).

Lemma bind_Ok_inv {A B} (m : outcome A) (f : A → outcome B) (b : B) :
  m ≫= f = Ok b → ∃ a, m = Ok a ∧ f a = Ok b.
Proof. destruct m; simpl; [eauto | done | done]. Qed.

Lemma same_shape_refl r : same_shape r r.
Proof. by repeat split. Qed.

Lemma same_shape_trans r1 r2 r3 :
  same_shape r1 r2 → same_shape r2 r3 → same_shape r1 r3.
Proof.
  intros (?&?&?&?&?) (?&?&?&?&?). repeat split; congruence.
Qed.

Lemma same_shape_set_comparisonResult b r :
  same_shape r (set_comparisonResult b r).
Proof. by repeat split. Qed.

Lemma cache_frame_refl h : cache_frame h h.
Proof. split; [done|]. eauto using same_shape_refl. Qed.

Lemma cache_frame_trans h1 h2 h3 :
  cache_frame h1 h2 → cache_frame h2 h3 → cache_frame h1 h3.
Proof.
  intros [Hl1 H1] [Hl2 H2]. split; [congruence|].
  intros q r Hq. destruct (H1 q r Hq) as (r2 & Hq2 & Hs2).
  destruct (H2 q r2 Hq2) as (r3 & Hq3 & Hs3).
  eauto using same_shape_trans.
Qed.

Lemma cache_frame_alter b p h :
  cache_frame h (alter (set_comparisonResult b) p h).
Proof.
  split; [apply length_alter|].
  intros q r Hq. rewrite list_lookup_alter. case_decide; subst.
  - rewrite Hq. eauto using same_shape_set_comparisonResult.
  - eauto using same_shape_refl.
Qed.

(** A property of stores that every recursive call keeps is kept by the
    loops and by the body. *)
Lemma allChildrenEqual_preserves (P : heap → Prop) rec p keys :
  (∀ c h b h', P h → rec c h = Ok (b, h') → P h') →
  ∀ h b h', P h → allChildrenEqual rec p keys h = Ok (b, h') → P h'.
Proof.
  intros Hrec. induction keys as [|k keys IH]; intros h b h' HP Hrun;
    simpl in Hrun.
  - by injection Hrun as <- <-.
  - destruct (h !! p) as [r|]; [|done].
    destruct (children r !! k) as [c|].
    + apply bind_Ok_inv in Hrun as ([eq h1] & Hc & Hrun).
      apply Hrec in Hc; [|done]. destruct eq.
      * eapply IH; eauto.
      * by injection Hrun as <- <-.
    + by injection Hrun as <- <-.
Qed.

Lemma deepEqualBody_preserves (P : heap → Prop) rec p r :
  (∀ c h b h', P h → rec c h = Ok (b, h') → P h') →
  ∀ h b h', P h → deepEqualBody rec p r h = Ok (b, h') → P h'.
Proof.
  intros Hrec h b h' HP Hrun. unfold deepEqualBody in Hrun.
  repeat (case_match || case_decide);
    try (by injection Hrun as <- <-);
    by eapply (allChildrenEqual_preserves P).
Qed.

(** A call of [CachedDeepEqual] changes equality caches only. *)
Lemma CachedDeepEqual_fuel_frame fuel p h b h' :
  CachedDeepEqual_fuel fuel p h = Ok (b, h') → cache_frame h h'.
Proof.
  revert p h b h'. induction fuel as [|fuel IH]; intros p h b h' Hrun; [done|].
  simpl in Hrun. destruct (h !! p) as [r|]; [|done].
  destruct (comparisonResult r).
  - injection Hrun as <- <-. apply cache_frame_refl.
  - apply bind_Ok_inv in Hrun as ([res h1] & Hbody & Hrun).
    injection Hrun as <- <-.
    eapply cache_frame_trans; [|apply cache_frame_alter].
    eapply (deepEqualBody_preserves (cache_frame h)); [|apply cache_frame_refl|done].
    intros c h2 b2 h2' Hfr Hrec. eapply cache_frame_trans; [done|]. eauto.
Qed.

End Basics.

Section Memoization.
Context {mapListImpl : MapListImpl} {rangeOrder : RangeOrder}.
Implicit Types (h : heap) (p q c : loc) (r : CorrelatedObject).

(** A node whose cache is filled answers from the cache: one level of
    recursion is enough and the store is left as it is. *)
Lemma CachedDeepEqual_fuel_cached fuel p h r b :
  h !! p = Some r → comparisonResult r = Some b →
  CachedDeepEqual_fuel (S fuel) p h = Ok (b, h).
Proof. intros Hp Hc. simpl. by rewrite Hp, Hc. Qed.

(** Whatever branch the body returns through, the result ends up in the
    receiver's cache. *)
Lemma CachedDeepEqual_fuel_stores fuel p h b h' :
  CachedDeepEqual_fuel fuel p h = Ok (b, h') →
  ∃ r', h' !! p = Some r' ∧ comparisonResult r' = Some b.
Proof.
  destruct fuel as [|fuel]; [done|]. simpl.
  destruct (h !! p) as [r|] eqn:Hp; [|done].
  destruct (comparisonResult r) as [b0|] eqn:Hc.
  - intros [= <- <-]. eauto.
  - intros ([res h1] & Hbody & [= <- <-])%bind_Ok_inv.
    assert (cache_frame h h1) as [_ Hfr].
    { eapply (deepEqualBody_preserves (cache_frame h));
        [|apply cache_frame_refl|done].
      intros c h2 b2 h2' Hfr Hrec. eapply cache_frame_trans; [done|].
      by eapply CachedDeepEqual_fuel_frame. }
    destruct (Hfr p r Hp) as (r1 & Hp1 & _).
    exists (set_comparisonResult res r1).
    by rewrite list_lookup_alter_eq, Hp1.
Qed.

(** C5: the first call of [CachedDeepEqual] on a node leaves its result in
    the node's equality cache, whichever branch it returned through; a
    second call returns the same result and leaves the store untouched; and
    any later call on a node holding a cached result returns it after a
    single step, without looking at the values or the children. *)
Theorem CachedDeepEqual_memoized p h b h' :
  CachedDeepEqual p h = Ok (b, h') →
  (∃ r', h' !! p = Some r' ∧ comparisonResult r' = Some b) ∧
  CachedDeepEqual p h' = Ok (b, h') ∧
  (∀ h2 r2 fuel, h2 !! p = Some r2 → comparisonResult r2 = Some b →
     CachedDeepEqual_fuel (S fuel) p h2 = Ok (b, h2)).
Proof.
  intros Hrun. unfold CachedDeepEqual in *.
  destruct (CachedDeepEqual_fuel_stores _ _ _ _ _ Hrun) as (r' & Hp' & Hc').
  split_and!; eauto using CachedDeepEqual_fuel_cached.
Qed.

End Memoization.

Section WellFormed.
Context {mapListImpl : MapListImpl} {rangeOrder : RangeOrder}.
Implicit Types (h : heap) (p q c : loc) (r : CorrelatedObject) (k : ckey).

(** [child_ok] reads the values and the schema of the two nodes only. *)
Lemma child_ok_mono h h' r r' k c :
  OldValue r' = OldValue r → Value r' = Value r → Schema_ r' = Schema_ r →
  (∀ cr, h !! c = Some cr →
     ∃ cr', h' !! c = Some cr' ∧ OldValue cr' = OldValue cr ∧
            Value cr' = Value cr ∧ Schema_ cr' = Schema_ cr) →
  child_ok h r k c → child_ok h' r' k c.
Proof.
  intros Ho Hv Hs Hc (cr & Hcr & Hk).
  destruct (Hc cr Hcr) as (cr' & Hcr' & Ho' & Hv' & Hs').
  exists cr'. split; [done|].
  rewrite Ho, Hv, Hs, Ho', Hv', Hs'. done.
Qed.

(** The store of a fresh root satisfies the invariant. *)
Lemma heap_wf_NewCorrelatedObject new old schema :
  heap_wf (NewCorrelatedObject new old schema []).2.
Proof.
  intros [|p] r; simpl; [|done]. intros [= <-]. split; simpl.
  - intros k c. by rewrite lookup_empty.
  - done.
Qed.

(** Filling caches keeps the invariant. *)
Lemma heap_wf_cache_frame h h' :
  cache_frame h h' → heap_wf h → heap_wf h'.
Proof.
  intros [Hlen Hfr] Hwf q r' Hq'.
  assert (q < length h) as Hlt.
  { rewrite <-Hlen. by eapply lookup_lt_Some. }
  destruct (lookup_lt_is_Some_2 h q Hlt) as [r Hq].
  destruct (Hfr q r Hq) as (r'' & Hq'' & Ho & Hv & Hs & Hm & Hc).
  assert (r'' = r') as -> by congruence.
  destruct (Hwf q r Hq) as [Hkids Hml]. split.
  - rewrite Hc. intros k c Hk. destruct (Hkids k c Hk) as [Hlt' Hok].
    split; [done|]. eapply child_ok_mono; [done..| |done].
    intros cr Hcr. destruct (Hfr c cr Hcr) as (cr' & ? & ? & ? & ? & _).
    eauto.
  - rewrite Hm, Hs, Ho. done.
Qed.

Lemma heap_wf_CachedDeepEqual_fuel fuel p h b h' :
  heap_wf h → CachedDeepEqual_fuel fuel p h = Ok (b, h') → heap_wf h'.
Proof.
  intros Hwf Hrun. eapply heap_wf_cache_frame; [|done].
  by eapply CachedDeepEqual_fuel_frame.
Qed.

(** Attaching a fresh child that agrees with the parent's values keeps the
    invariant. *)
Lemma heap_wf_add_child h p r k new old schema :
  heap_wf h → h !! p = Some r →
  (∀ h' cr, h' !! length h = Some cr → OldValue cr = old → Value cr = new →
            Schema_ cr = schema → child_ok h' r k (length h)) →
  heap_wf (add_child p k new old schema h).2.
Proof.
  intros Hwf Hp Hnew. unfold add_child, NewCorrelatedObject. simpl.
  set (node := {| OldValue := old; Value := new; Schema_ := schema;
                  comparisonResult := None; mapList := None;
                  children := ∅ |}).
  set (h' := alter (set_child k (length h)) p (h ++ [node])).
  assert (p < length h) as Hplt by by eapply lookup_lt_Some.
  assert (h' !! length h = Some node) as Hnode.
  { unfold h'. rewrite list_lookup_alter_ne by lia.
    by rewrite lookup_app_r, Nat.sub_diag by lia. }
  assert (h' !! p = Some (set_child k (length h) r)) as Hp'.
  { unfold h'. rewrite list_lookup_alter_eq, lookup_app_l, Hp by done. done. }
  assert (∀ q rq, h !! q = Some rq →
            ∃ rq', h' !! q = Some rq' ∧ OldValue rq' = OldValue rq ∧
                   Value rq' = Value rq ∧ Schema_ rq' = Schema_ rq) as Hkeep.
  { intros q rq Hq. destruct (decide (q = p)) as [->|Hne].
    - assert (rq = r) as -> by congruence. eauto.
    - exists rq. unfold h'. rewrite list_lookup_alter_ne by done.
      rewrite lookup_app_l by by eapply lookup_lt_Some. done. }
  intros q rq Hq.
  destruct (decide (q = p)) as [->|Hne].
  - assert (rq = set_child k (length h) r) as -> by congruence.
    destruct (Hwf p r Hp) as [Hkids Hml]. split; [|done].
    simpl. intros k' c Hk'.
    destruct (decide (k = k')) as [->|Hkne].
    + rewrite lookup_insert_eq in Hk'. injection Hk' as <-.
      split; [done|].
      eapply child_ok_mono; [..|eapply (Hnew h' node); done]; try done.
      eauto.
    + rewrite lookup_insert_ne in Hk' by done.
      destruct (Hkids k' c Hk') as [? Hok]. split; [done|].
      eapply child_ok_mono; [..|exact Hok]; try done. apply Hkeep.
  - destruct (decide (q = length h)) as [->|Hne'].
    + assert (rq = node) as -> by congruence. split; [|done].
      simpl. intros k' c. by rewrite lookup_empty.
    + assert (h !! q = Some rq) as Hq0.
      { unfold h' in Hq. rewrite list_lookup_alter_ne in Hq by done.
        apply lookup_lt_Some in Hq as Hlt. rewrite length_app in Hlt.
        simpl in Hlt. rewrite lookup_app_l in Hq by lia. done. }
      destruct (Hwf q rq Hq0) as [Hkids Hml]. split; [|done].
      intros k' c Hk'. destruct (Hkids k' c Hk') as [? Hok].
      split; [done|]. eapply child_ok_mono; [..|exact Hok]; try done.
      apply Hkeep.
Qed.

End WellFormed.

Section Navigation.
Context {mapListImpl : MapListImpl} {rangeOrder : RangeOrder}.
Implicit Types (h : heap) (p q c : loc) (r : CorrelatedObject) (k : ckey).

Lemma slice_index_Ok (l : list value) (i : Z) v :
  (0 ≤ i)%Z → l !! Z.to_nat i = Some v → slice_index l i = Ok v.
Proof. intros Hi Hv. unfold slice_index. rewrite decide_True by done. by rewrite Hv. Qed.

Lemma slice_index_negative (l : list value) (i : Z) :
  (i < 0)%Z → slice_index l i = Panic.
Proof. intros Hi. unfold slice_index. by rewrite decide_False by lia. Qed.

Lemma lookup_in_bounds {A} (l : list A) (i : Z) :
  (0 ≤ i < len l)%Z → is_Some (l !! Z.to_nat i).
Proof. unfold len. intros Hi. apply lookup_lt_is_Some_2. lia. Qed.

(** ** [Key], case by case *)

Lemma Key_nil_receiver field h : Key None field h = Ok (None, h).
Proof. done. Qed.

Lemma Key_no_schema p r field h :
  h !! p = Some r → Schema_ r = None → Key (Some p) field h = Ok (None, h).
Proof. intros Hp Hs. simpl. by rewrite Hp, Hs. Qed.

Lemma Key_memoized p r sch field c h :
  h !! p = Some r → Schema_ r = Some sch →
  children r !! FieldKey field = Some c →
  Key (Some p) field h = Ok (Some c, h).
Proof. intros Hp Hs Hc. simpl. by rewrite Hp, Hs, Hc. Qed.

Lemma Key_not_maps p r sch field h :
  h !! p = Some r → Schema_ r = Some sch →
  children r !! FieldKey field = None →
  (∀ m, OldValue r ≠ VMap m) ∨ (∀ m, Value r ≠ VMap m) →
  Key (Some p) field h = Ok (None, h).
Proof.
  intros Hp Hs Hc Hm. simpl. rewrite Hp, Hs, Hc.
  destruct (OldValue r), (Value r); try done; destruct Hm as [Hm|Hm];
    by edestruct Hm.
Qed.

(** Both values are maps and the field was not looked up before. *)
Lemma Key_fresh p r sch field oldAsMap newAsMap h :
  h !! p = Some r → Schema_ r = Some sch →
  children r !! FieldKey field = None →
  OldValue r = VMap oldAsMap → Value r = VMap newAsMap →
  Key (Some p) field h =
    match oldAsMap !! field, newAsMap !! field, propertySchema sch field with
    | Some old, Some new, Some ps =>
      Ok (Some (length h), (add_child p (FieldKey field) new old (Some ps) h).2)
    | _, _, _ => Ok (None, h)
    end.
Proof.
  intros Hp Hs Hc Ho Hv. simpl. rewrite Hp, Hs, Hc, Ho, Hv.
  by destruct (oldAsMap !! field), (newAsMap !! field).
Qed.

(** ** [correlateOldValueForChildAtNewIndex] and [Index], case by case *)

Lemma correlate_eq p r sch oldAsList asList (i : Z) h :
  heap_wf h → h !! p = Some r → Schema_ r = Some sch →
  OldValue r = VList oldAsList → Value r = VList asList →
  (0 ≤ i < len asList)%Z →
  correlateOldValueForChildAtNewIndex p i h =
    Ok (correlatedOld sch oldAsList asList (Z.to_nat i),
        index_store p r sch oldAsList h).
Proof.
  intros Hwf Hp Hs Ho Hv Hi.
  unfold correlateOldValueForChildAtNewIndex, correlatedOld, index_store.
  rewrite Hp, Ho, Hv, Hs. rewrite decide_False by lia. simpl.
  destruct (lookup_in_bounds asList i Hi) as [e He].
  case_decide as Hmap.
  - rewrite (slice_index_Ok _ _ e), He by (done || lia). simpl.
    destruct (mapList r) as [ml|] eqn:Hml; [|done].
    destruct (Hwf p r Hp) as [_ Hmlok].
    destruct (Hmlok ml Hml) as (sch' & ol' & Hs' & Ho' & ->).
    congruence.
  - repeat case_decide; try done.
    + rewrite lookup_ge_None_2; [done|]. unfold len in *. lia.
    + destruct (lookup_in_bounds oldAsList i) as [o Hoi]; [lia|].
      rewrite (slice_index_Ok _ _ o), Hoi by (done || lia). done.
Qed.

Lemma correlate_old_not_list p r (i : Z) h :
  h !! p = Some r → (∀ l, OldValue r ≠ VList l) →
  correlateOldValueForChildAtNewIndex p i h = Ok (VNull, h).
Proof.
  intros Hp Ho. unfold correlateOldValueForChildAtNewIndex. rewrite Hp.
  destruct (OldValue r); try done. by edestruct Ho.
Qed.

Lemma Index_nil_receiver (i : Z) h : Index None i h = Ok (None, h).
Proof. done. Qed.

Lemma Index_no_schema p r (i : Z) h :
  h !! p = Some r → Schema_ r = None → Index (Some p) i h = Ok (None, h).
Proof. intros Hp Hs. simpl. by rewrite Hp, Hs. Qed.

Lemma Index_memoized p r sch (i : Z) c h :
  h !! p = Some r → Schema_ r = Some sch →
  children r !! IndexKey i = Some c →
  Index (Some p) i h = Ok (Some c, h).
Proof. intros Hp Hs Hc. simpl. by rewrite Hp, Hs, Hc. Qed.

Lemma Index_not_list p r sch (i : Z) h :
  h !! p = Some r → Schema_ r = Some sch →
  children r !! IndexKey i = None →
  (∀ l, Value r ≠ VList l) →
  Index (Some p) i h = Ok (None, h).
Proof.
  intros Hp Hs Hc Hv. simpl. rewrite Hp, Hs, Hc.
  destruct (Value r); try done. by edestruct Hv.
Qed.

Lemma Index_beyond_new p r sch asList (i : Z) h :
  h !! p = Some r → Schema_ r = Some sch →
  children r !! IndexKey i = None →
  Value r = VList asList → (len asList ≤ i)%Z →
  Index (Some p) i h = Ok (None, h).
Proof.
  intros Hp Hs Hc Hv Hi. simpl. rewrite Hp, Hs, Hc, Hv.
  by rewrite decide_True.
Qed.

Lemma Index_old_not_list p r sch asList (i : Z) h :
  h !! p = Some r → Schema_ r = Some sch →
  children r !! IndexKey i = None →
  Value r = VList asList → (∀ l, OldValue r ≠ VList l) →
  Index (Some p) i h = Ok (None, h).
Proof.
  intros Hp Hs Hc Hv Ho. simpl. rewrite Hp, Hs, Hc, Hv.
  case_decide; [done|].
  by rewrite (correlate_old_not_list p r i h).
Qed.

(** Both values are lists, the index is within the new list and was not
    looked up before. *)
Lemma Index_fresh p r sch oldAsList asList (i : Z) elem h :
  heap_wf h → h !! p = Some r → Schema_ r = Some sch →
  children r !! IndexKey i = None →
  OldValue r = VList oldAsList → Value r = VList asList →
  (0 ≤ i)%Z → asList !! Z.to_nat i = Some elem →
  Index (Some p) i h =
    let h1 := index_store p r sch oldAsList h in
    let old := correlatedOld sch oldAsList asList (Z.to_nat i) in
    if is_nil old then Ok (None, h1)
    else
      match itemSchema sch with
      | Some _ =>
        Ok (Some (length h1),
            (add_child p (IndexKey i) elem old (itemSchema sch) h1).2)
      | None => Ok (None, h1)
      end.
Proof.
  intros Hwf Hp Hs Hc Ho Hv Hi He. simpl. rewrite Hp, Hs, Hc, Hv.
  assert (0 ≤ i < len asList)%Z as Hb.
  { apply lookup_lt_Some in He. unfold len. lia. }
  rewrite decide_False by lia.
  rewrite (correlate_eq p r sch oldAsList asList) by done. simpl.
  destruct (is_nil _); [done|].
  destruct (itemSchema sch); [|done].
  by rewrite (slice_index_Ok _ _ elem).
Qed.

End Navigation.

Section NavigationInvariant.
Context {mapListImpl : MapListImpl} {rangeOrder : RangeOrder}.
Implicit Types (h : heap) (p q c : loc) (r : CorrelatedObject) (k : ckey).

(** Replacing a node by one with the same values and children keeps the
    invariant, as long as its map list is the right one. *)
Lemma heap_wf_insert_same h p r r' :
  heap_wf h → h !! p = Some r →
  OldValue r' = OldValue r → Value r' = Value r → Schema_ r' = Schema_ r →
  children r' = children r →
  (∀ ml, mapList r' = Some ml →
     ∃ sch oldAsList, Schema_ r' = Some sch ∧ OldValue r' = VList oldAsList ∧
                      ml = MakeMapList sch oldAsList) →
  heap_wf (<[p := r']> h).
Proof.
  intros Hwf Hp Ho Hv Hs Hc Hml.
  assert (p < length h) as Hplt by by eapply lookup_lt_Some.
  assert (∀ q rq, h !! q = Some rq →
            ∃ rq', <[p := r']> h !! q = Some rq' ∧ OldValue rq' = OldValue rq ∧
                   Value rq' = Value rq ∧ Schema_ rq' = Schema_ rq) as Hkeep.
  { intros q rq Hq. destruct (decide (p = q)) as [<-|Hne].
    - rewrite list_lookup_insert_eq by done.
      assert (rq = r) as -> by congruence. eauto.
    - rewrite list_lookup_insert_ne by done. eauto. }
  intros q rq Hq. destruct (decide (p = q)) as [<-|Hne].
  - rewrite list_lookup_insert_eq in Hq by done. injection Hq as <-.
    destruct (Hwf p r Hp) as [Hkids _]. split; [|done].
    rewrite Hc. intros k c Hk. destruct (Hkids k c Hk) as [? Hok].
    split; [done|]. eapply child_ok_mono; [done|done|done|apply Hkeep|exact Hok].
  - rewrite list_lookup_insert_ne in Hq by done.
    destruct (Hwf q rq Hq) as [Hkids ?]. split; [|done].
    intros k c Hk. destruct (Hkids k c Hk) as [? Hok].
    split; [done|]. eapply child_ok_mono; [done|done|done|apply Hkeep|exact Hok].
Qed.

Lemma heap_wf_index_store h p r sch oldAsList :
  heap_wf h → h !! p = Some r → Schema_ r = Some sch →
  OldValue r = VList oldAsList →
  heap_wf (index_store p r sch oldAsList h).
Proof.
  intros Hwf Hp Hs Ho. unfold index_store.
  case_decide; [|done]. destruct (mapList r) eqn:Hml; [done|].
  eapply heap_wf_insert_same; try done.
  simpl. intros ml [= <-]. eauto.
Qed.

(** The node [p] after [index_store]: same values, same children, same
    equality cache. *)
Lemma index_store_lookup h p r sch oldAsList :
  h !! p = Some r →
  ∃ r1, index_store p r sch oldAsList h !! p = Some r1 ∧
        OldValue r1 = OldValue r ∧ Value r1 = Value r ∧
        Schema_ r1 = Schema_ r ∧ children r1 = children r ∧
        comparisonResult r1 = comparisonResult r.
Proof.
  intros Hp. unfold index_store. case_decide; [|by eauto 10].
  destruct (mapList r); [by eauto 10|].
  rewrite list_lookup_insert_eq by by eapply lookup_lt_Some.
  by eauto 10.
Qed.

Lemma index_store_lookup_ne h p r sch oldAsList q :
  q ≠ p → index_store p r sch oldAsList h !! q = h !! q.
Proof.
  intros Hne. unfold index_store. case_decide; [|done].
  destruct (mapList r); [done|]. by rewrite list_lookup_insert_ne.
Qed.

Lemma index_store_length h p r sch oldAsList :
  length (index_store p r sch oldAsList h) = length h.
Proof.
  unfold index_store. case_decide; [|done].
  destruct (mapList r); [done|]. apply length_insert.
Qed.

(** All the ways [Key] can return. *)
Lemma Key_inv p r sch field h res h' :
  h !! p = Some r → Schema_ r = Some sch →
  Key (Some p) field h = Ok (res, h') →
  (∃ c, children r !! FieldKey field = Some c ∧ res = Some c ∧ h' = h) ∨
  (children r !! FieldKey field = None ∧ res = None ∧ h' = h) ∨
  (children r !! FieldKey field = None ∧
   ∃ oldAsMap newAsMap old new ps,
     OldValue r = VMap oldAsMap ∧ Value r = VMap newAsMap ∧
     oldAsMap !! field = Some old ∧ newAsMap !! field = Some new ∧
     propertySchema sch field = Some ps ∧
     res = Some (length h) ∧
     h' = (add_child p (FieldKey field) new old (Some ps) h).2).
Proof.
  intros Hp Hs. destruct (children r !! FieldKey field) as [c|] eqn:Hc.
  { rewrite (Key_memoized p r sch field c) by done. intros [= <- <-]. eauto. }
  destruct (OldValue r) as [| |?|oldAsMap] eqn:Ho;
    try (rewrite (Key_not_maps p r sch) by (try done; left; by rewrite Ho);
         intros [= <- <-]; by eauto).
  destruct (Value r) as [| |?|newAsMap] eqn:Hv;
    try (rewrite (Key_not_maps p r sch) by (try done; right; by rewrite Hv);
         intros [= <- <-]; by eauto).
  rewrite (Key_fresh p r sch field oldAsMap newAsMap) by done.
  destruct (oldAsMap !! field) as [old|] eqn:Hof; [|intros [= <- <-]; by eauto].
  destruct (newAsMap !! field) as [new|] eqn:Hnf; [|intros [= <- <-]; by eauto].
  destruct (propertySchema sch field) as [ps|] eqn:Hps;
    [|intros [= <- <-]; by eauto].
  intros [= <- <-]. right; right. split; [done|].
  by exists oldAsMap, newAsMap, old, new, ps.
Qed.

(** [Key] keeps the invariant. *)
Lemma heap_wf_Key l field h res h' :
  heap_wf h → Key l field h = Ok (res, h') → heap_wf h'.
Proof.
  intros Hwf Hrun. destruct l as [p|]; [|by injection Hrun as <- <-].
  destruct (h !! p) as [r|] eqn:Hp; [|by simpl in Hrun; rewrite Hp in Hrun].
  destruct (Schema_ r) as [sch|] eqn:Hs.
  2:{ rewrite (Key_no_schema p r) in Hrun by done. by injection Hrun as <- <-. }
  destruct (Key_inv p r sch field h res h' Hp Hs Hrun)
    as [(c & _ & _ & ->)|[(_ & _ & ->)|(Hc & om & nm & old & new & ps & Ho & Hv & Hof & Hnf & Hps & -> & ->)]];
    [done..|].
  eapply heap_wf_add_child; [done..|].
  intros h1 cr Hcr Hco Hcv Hcs. exists cr. split; [done|].
  exists sch, om, nm. rewrite Hco, Hcv, Hcs. by split_and!.
Qed.

(** All the ways [Index] can return. *)
Lemma Index_inv p r sch (i : Z) h res h' :
  heap_wf h → h !! p = Some r → Schema_ r = Some sch →
  Index (Some p) i h = Ok (res, h') →
  (∃ c, children r !! IndexKey i = Some c ∧ res = Some c ∧ h' = h) ∨
  (children r !! IndexKey i = None ∧ res = None ∧ h' = h) ∨
  (children r !! IndexKey i = None ∧
   ∃ oldAsList asList elem,
     OldValue r = VList oldAsList ∧ Value r = VList asList ∧
     (0 ≤ i)%Z ∧ asList !! Z.to_nat i = Some elem ∧
     let h1 := index_store p r sch oldAsList h in
     let old := correlatedOld sch oldAsList asList (Z.to_nat i) in
     (res = None ∧ h' = h1 ∧ (old = VNull ∨ itemSchema sch = None)) ∨
     (old ≠ VNull ∧ is_Some (itemSchema sch) ∧ res = Some (length h) ∧
      h' = (add_child p (IndexKey i) elem old (itemSchema sch) h1).2)).
Proof.
  intros Hwf Hp Hs. destruct (children r !! IndexKey i) as [c|] eqn:Hc.
  { rewrite (Index_memoized p r sch i c) by done. intros [= <- <-]. eauto. }
  destruct (Value r) as [| |asList|?] eqn:Hv;
    try (rewrite (Index_not_list p r sch) by (try done; by rewrite Hv);
         intros [= <- <-]; by eauto).
  destruct (decide (len asList ≤ i)%Z) as [Hge|Hlt].
  { rewrite (Index_beyond_new p r sch asList) by done.
    intros [= <- <-]; by eauto. }
  destruct (OldValue r) as [| |oldAsList|?] eqn:Ho;
    try (rewrite (Index_old_not_list p r sch asList) by (try done; by rewrite Ho);
         intros [= <- <-]; by eauto).
  destruct (decide (0 ≤ i)%Z) as [Hnn|Hneg].
  - destruct (lookup_in_bounds asList i) as [elem He]; [lia|].
    rewrite (Index_fresh p r sch oldAsList asList i elem) by done. simpl.
    destruct (correlatedOld sch oldAsList asList (Z.to_nat i)) eqn:Hold; simpl.
    { intros [= <- <-]. right; right. split; [done|].
      exists oldAsList, asList, elem. split_and!; try done. left. eauto. }
    all: destruct (itemSchema sch) as [ps|] eqn:Hps;
      intros [= <- <-]; right; right; (split; [done|]);
      exists oldAsList, asList, elem; split_and!; try done; simpl; rewrite ?Hold;
      [right; split_and!; try done; rewrite ?index_store_length; eauto
      |left; eauto].
  - simpl. rewrite Hp, Hs, Hc, Hv. rewrite decide_False by done.
    unfold correlateOldValueForChildAtNewIndex. rewrite Hp, Ho, Hv, Hs.
    rewrite decide_False by done. simpl.
    rewrite !slice_index_negative by lia.
    repeat case_decide; simpl; try done; intros [= <- <-]; by eauto.
Qed.

(** [Index] keeps the invariant. *)
Lemma heap_wf_Index l (i : Z) h res h' :
  heap_wf h → Index l i h = Ok (res, h') → heap_wf h'.
Proof.
  intros Hwf Hrun. destruct l as [p|]; [|by injection Hrun as <- <-].
  destruct (h !! p) as [r|] eqn:Hp; [|by simpl in Hrun; rewrite Hp in Hrun].
  destruct (Schema_ r) as [sch|] eqn:Hs.
  2:{ rewrite (Index_no_schema p r) in Hrun by done. by injection Hrun as <- <-. }
  destruct (Index_inv p r sch i h res h' Hwf Hp Hs Hrun)
    as [(c & _ & _ & ->)|[(_ & _ & ->)|(Hc & ol & nl & elem & Ho & Hv & Hi & He & Hcase)]];
    [done..|].
  simpl in Hcase.
  pose proof (heap_wf_index_store h p r sch ol Hwf Hp Hs Ho) as Hwf1.
  destruct Hcase as [(_ & -> & _)|(Hold & [ps Hps] & -> & ->)]; [done|].
  destruct (index_store_lookup h p r sch ol Hp)
    as (r1 & Hp1 & Ho1 & Hv1 & Hs1 & Hc1 & _).
  eapply heap_wf_add_child; [done..|].
  intros h2 cr Hcr Hco Hcv Hcs. exists cr. split; [done|].
  exists sch, ol, nl. rewrite Ho1, Hv1, Hs1, Hco, Hcv, Hcs.
  split_and!; by rewrite ?Hps.
Qed.

End NavigationInvariant.

Section Hooks.
Context {mapListImpl : MapListImpl} {rangeOrder : RangeOrder}
        {engineTypes : EngineTypes} {engine : Engine}.
Implicit Types (h : heap) (r : ratchetingValueValidator).

(** What a hook returns for the outcome of its lookup. *)
Lemma hook_result (lookup_result : outcome (option loc * heap))
    (schema : option Schema) (rootSchema : RootSchema) (root : string)
    (formats : Registry) (options : list validate_Option) v h' :
  ('(childNode, h1) ← lookup_result;
   match childNode with
   | None =>
     Ok (schemaValidator
           (validate_NewSchemaValidator schema rootSchema root formats options),
         h1)
   | Some _ =>
     Ok (ratcheting (newRatchetingValueValidator childNode
           {| schema := schema; root := rootSchema; path := root;
              knownFormats := formats; options := options |}), h1)
   end) = Ok (v, h') →
  ∃ childNode, lookup_result = Ok (childNode, h') ∧
    match childNode with
    | None =>
      v = schemaValidator
            (validate_NewSchemaValidator schema rootSchema root formats options)
    | Some c =>
      ∃ r', v = ratcheting r' ∧ correlation r' = Some c
    end ∧
    validator_args v =
      {| schema := schema; root := rootSchema; path := root;
         knownFormats := formats; options := options |}.
Proof.
  intros ([[c|] h1] & Hl & Hv)%bind_Ok_inv; injection Hv as <- <-;
    eexists; (split; [done|]); split; eauto.
Qed.

(** C8: [SubPropertyValidator] and [SubIndexValidator] return the engine's
    own validator for the child schema when [Key], respectively [Index],
    returns nil, and otherwise a ratcheting validator bound to the child
    node that was returned; either way the validator is built from exactly
    the schema, root, path, formats and options the caller passed, and the
    store is the one the lookup left.  A hook fails only if its lookup
    does.  [SetPath] changes nothing and [Applies] is always true. *)
Theorem hooks_wrap_correlated_children r (field : string) (index : Z)
    (schema : option Schema) (rootSchema : RootSchema) (root : string)
    (formats : Registry) (options : list validate_Option) h :
  SubPropertyValidator r field schema rootSchema root formats options h =
    match Key (correlation r) field h with
    | Ok (None, h') =>
      Ok (schemaValidator
            (validate_NewSchemaValidator schema rootSchema root formats options),
          h')
    | Ok (Some c, h') =>
      Ok (ratcheting
            {| rv_args := mkSchemaArgs schema rootSchema root formats options;
               correlation := Some c |}, h')
    | Panic => Panic
    | OutOfFuel => OutOfFuel
    end ∧
  SubIndexValidator r index schema rootSchema root formats options h =
    match Index (correlation r) index h with
    | Ok (None, h') =>
      Ok (schemaValidator
            (validate_NewSchemaValidator schema rootSchema root formats options),
          h')
    | Ok (Some c, h') =>
      Ok (ratcheting
            {| rv_args := mkSchemaArgs schema rootSchema root formats options;
               correlation := Some c |}, h')
    | Panic => Panic
    | OutOfFuel => OutOfFuel
    end ∧
  (∀ v h', SubPropertyValidator r field schema rootSchema root formats options h
             = Ok (v, h') →
           validator_args v
             = mkSchemaArgs schema rootSchema root formats options) ∧
  (∀ v h', SubIndexValidator r index schema rootSchema root formats options h
             = Ok (v, h') →
           validator_args v
             = mkSchemaArgs schema rootSchema root formats options) ∧
  (∀ path, SetPath r path h = (r, h)) ∧
  (∀ source valueKind, Applies r source valueKind = true).
Proof.
  split_and!; try done.
  - unfold SubPropertyValidator.
    destruct (Key (correlation r) field h) as [[[c|] h']| |]; done.
  - unfold SubIndexValidator.
    destruct (Index (correlation r) index h) as [[[c|] h']| |]; done.
  - intros v h' Hrun.
    by destruct (hook_result _ _ _ _ _ _ _ _ Hrun) as (? & _ & _ & ?).
  - intros v h' Hrun.
    by destruct (hook_result _ _ _ _ _ _ _ _ Hrun) as (? & _ & _ & ?).
Qed.

End Hooks.

Section KeyLookup.
Context {mapListImpl : MapListImpl} {rangeOrder : RangeOrder}.
Implicit Types (h : heap) (p q c : loc) (r : CorrelatedObject) (k : ckey).

(** The store after [add_child]: one new cell at the end, one new entry in
    the parent, everything else as before. *)
Lemma add_child_lookups p r k new old schema h :
  h !! p = Some r →
  let h' := (add_child p k new old schema h).2 in
  length h' = S (length h) ∧
  h' !! length h =
    Some {| OldValue := old; Value := new; Schema_ := schema;
            comparisonResult := None; mapList := None; children := ∅ |} ∧
  h' !! p = Some (set_child k (length h) r) ∧
  (∀ q, q ≠ p → q < length h → h' !! q = h !! q).
Proof.
  intros Hp. unfold add_child, NewCorrelatedObject. simpl.
  assert (p < length h) as Hplt by by eapply lookup_lt_Some.
  split_and!.
  - rewrite length_alter, length_app. simpl. lia.
  - rewrite list_lookup_alter_ne by lia.
    by rewrite lookup_app_r, Nat.sub_diag by lia.
  - by rewrite list_lookup_alter_eq, lookup_app_l, Hp.
  - intros q Hne Hlt. rewrite list_lookup_alter_ne by done.
    by rewrite lookup_app_l.
Qed.

(** The schema [Key] picks: the declared property, else the schema of the
    additional properties, else none. *)
Lemma propertySchema_declared sch field ps :
  Properties sch !! field = Some ps → propertySchema sch field = Some ps.
Proof. intros Hp. unfold propertySchema. by rewrite Hp. Qed.

Lemma propertySchema_additional sch field addP :
  Properties sch !! field = None → AdditionalProperties sch = Some addP →
  propertySchema sch field = sob_Schema addP.
Proof. intros Hp Ha. unfold propertySchema. by rewrite Hp, Ha. Qed.

Lemma propertySchema_none sch field :
  Properties sch !! field = None → AdditionalProperties sch = None →
  propertySchema sch field = None.
Proof. intros Hp Ha. unfold propertySchema. by rewrite Hp, Ha. Qed.

(** In a well-formed store a memoized field child witnesses that both
    values are maps holding the field, and that a schema applies. *)
Lemma memoized_field_child h p r field c :
  heap_wf h → h !! p = Some r → children r !! FieldKey field = Some c →
  ∃ cr sch oldAsMap newAsMap,
    h !! c = Some cr ∧ Schema_ r = Some sch ∧
    OldValue r = VMap oldAsMap ∧ Value r = VMap newAsMap ∧
    oldAsMap !! field = Some (OldValue cr) ∧
    newAsMap !! field = Some (Value cr) ∧
    is_Some (Schema_ cr) ∧ Schema_ cr = propertySchema sch field.
Proof.
  intros Hwf Hp Hc. destruct (Hwf p r Hp) as [Hkids _].
  destruct (Hkids _ _ Hc)
    as [_ (cr & Hcr & sch & om & nm & ? & ? & ? & ? & ? & ? & ?)].
  by exists cr, sch, om, nm.
Qed.

(** The outcome of [Key] on a node with a schema and two maps. *)
Lemma Key_on_maps h p r sch oldAsMap newAsMap field :
  heap_wf h → h !! p = Some r → Schema_ r = Some sch →
  OldValue r = VMap oldAsMap → Value r = VMap newAsMap →
  match oldAsMap !! field, newAsMap !! field, propertySchema sch field with
  | Some old, Some new, Some ps =>
    ∃ c h' cr r',
      Key (Some p) field h = Ok (Some c, h') ∧
      h' !! c = Some cr ∧ OldValue cr = old ∧ Value cr = new ∧
      Schema_ cr = Some ps ∧
      h' !! p = Some r' ∧ children r' !! FieldKey field = Some c ∧
      Key (Some p) field h' = Ok (Some c, h')
  | _, _, _ => Key (Some p) field h = Ok (None, h)
  end.
Proof.
  intros Hwf Hp Hs Ho Hv.
  destruct (children r !! FieldKey field) as [c|] eqn:Hc.
  - destruct (memoized_field_child h p r field c Hwf Hp Hc)
      as (cr & sch' & om & nm & Hcr & Hs' & Ho' & Hv' & Hof & Hnf & [ps Hps] & Hpeq).
    assert (sch' = sch) as -> by congruence.
    assert (om = oldAsMap) as -> by congruence.
    assert (nm = newAsMap) as -> by congruence.
    rewrite Hof, Hnf, <-Hpeq, Hps.
    exists c, h, cr, r. rewrite (Key_memoized p r sch field c) by done. done.
  - rewrite (Key_fresh p r sch field oldAsMap newAsMap) by done.
    destruct (oldAsMap !! field) as [old|]; [|done].
    destruct (newAsMap !! field) as [new|]; [|done].
    destruct (propertySchema sch field) as [ps|]; [|done].
    destruct (add_child_lookups p r (FieldKey field) new old (Some ps) h Hp)
      as (Hlen & Hnew & Hp' & _).
    eexists _, _, _, _. split; [done|]. split; [exact Hnew|].
    split_and!; try done.
    + simpl. apply lookup_insert_eq.
    + eapply Key_memoized; [exact Hp'|done|]. simpl. apply lookup_insert_eq.
Qed.

(** C6: [Key] returns nil on a nil receiver, on a node without schema and
    on a node whose old or new value is not a map.  On two maps it returns
    nil unless the field is present in both.  When it is, the child's
    schema is the declared property schema, else the schema of the
    additional properties, and nil is returned when neither exists.  A
    successful lookup yields a child holding the field's old and new value,
    recorded in [children], and looking the field up again returns that
    same child and leaves the store alone. *)
Theorem Key_correlates_fields_of_both_maps (l : option loc) (field : string) h :
  heap_wf h →
  (l = None → Key l field h = Ok (None, h)) ∧
  (∀ p r, l = Some p → h !! p = Some r →
     (Schema_ r = None → Key l field h = Ok (None, h)) ∧
     ((∀ m, OldValue r ≠ VMap m) ∨ (∀ m, Value r ≠ VMap m) →
      Key l field h = Ok (None, h)) ∧
     (∀ sch oldAsMap newAsMap,
        Schema_ r = Some sch →
        OldValue r = VMap oldAsMap → Value r = VMap newAsMap →
        (oldAsMap !! field = None ∨ newAsMap !! field = None →
         Key l field h = Ok (None, h)) ∧
        (∀ old new,
           oldAsMap !! field = Some old → newAsMap !! field = Some new →
           (Properties sch !! field = None →
            (AdditionalProperties sch = None ∨
             ∃ addP, AdditionalProperties sch = Some addP ∧
                     sob_Schema addP = None) →
            Key l field h = Ok (None, h)) ∧
           (∀ ps,
              (Properties sch !! field = Some ps ∨
               (Properties sch !! field = None ∧
                ∃ addP, AdditionalProperties sch = Some addP ∧
                        sob_Schema addP = Some ps)) →
              ∃ c h' cr r',
                Key l field h = Ok (Some c, h') ∧
                h' !! c = Some cr ∧ OldValue cr = old ∧ Value cr = new ∧
                Schema_ cr = Some ps ∧
                h' !! p = Some r' ∧ children r' !! FieldKey field = Some c ∧
                Key l field h' = Ok (Some c, h'))))).
Proof.
  intros Hwf. split; [by intros ->|].
  intros p r -> Hp. split_and!.
  - intros Hs. by apply (Key_no_schema p r).
  - intros Hm. destruct (Schema_ r) as [sch|] eqn:Hs;
      [|by apply (Key_no_schema p r)].
    destruct (children r !! FieldKey field) as [c|] eqn:Hc;
      [|by apply (Key_not_maps p r sch)].
    destruct (memoized_field_child h p r field c Hwf Hp Hc)
      as (_ & _ & om & nm & _ & _ & Ho & Hv & _).
    destruct Hm as [Hm|Hm]; by edestruct Hm.
  - intros sch oldAsMap newAsMap Hs Ho Hv.
    pose proof (Key_on_maps h p r sch oldAsMap newAsMap field Hwf Hp Hs Ho Hv)
      as Hkey.
    split.
    + intros [Hnone|Hnone]; rewrite Hnone in Hkey; [done|].
      by destruct (oldAsMap !! field).
    + intros old new Hof Hnf. rewrite Hof, Hnf in Hkey. split.
      * intros Hprop Hadd.
        assert (propertySchema sch field = None) as Hnone.
        { destruct Hadd as [Ha|(addP & Ha & Hsob)].
          - by apply propertySchema_none.
          - by rewrite (propertySchema_additional sch field addP). }
        by rewrite Hnone in Hkey.
      * intros ps Hchoice.
        assert (propertySchema sch field = Some ps) as Hsome.
        { destruct Hchoice as [Hprop|(Hprop & addP & Ha & Hsob)].
          - by apply propertySchema_declared.
          - by rewrite (propertySchema_additional sch field addP). }
        by rewrite Hsome in Hkey.
Qed.

End KeyLookup.

Section IndexLookup.
Context {mapListImpl : MapListImpl} {rangeOrder : RangeOrder}.
Implicit Types (h : heap) (p q c : loc) (r : CorrelatedObject) (k : ckey).

(** In a well-formed store a memoized index child witnesses that both
    values are lists, that the index is within the new list, and that the
    old value resolved for it is not nil. *)
Lemma memoized_index_child h p r (i : Z) c :
  heap_wf h → h !! p = Some r → children r !! IndexKey i = Some c →
  ∃ cr sch oldAsList asList,
    h !! c = Some cr ∧ Schema_ r = Some sch ∧
    OldValue r = VList oldAsList ∧ Value r = VList asList ∧
    (0 ≤ i)%Z ∧ asList !! Z.to_nat i = Some (Value cr) ∧
    OldValue cr = correlatedOld sch oldAsList asList (Z.to_nat i) ∧
    OldValue cr ≠ VNull ∧
    is_Some (Schema_ cr) ∧ Schema_ cr = itemSchema sch.
Proof.
  intros Hwf Hp Hc. destruct (Hwf p r Hp) as [Hkids _].
  destruct (Hkids _ _ Hc)
    as [_ (cr & Hcr & sch & ol & nl & ? & ? & ? & ? & ? & ? & ? & ? & ?)].
  by exists cr, sch, ol, nl.
Qed.

Lemma is_nil_true v : is_nil v = true ↔ v = VNull.
Proof. by destruct v. Qed.

Lemma is_nil_false v : is_nil v = false ↔ v ≠ VNull.
Proof. by destruct v. Qed.

(** The outcome of [Index] on a node with a schema and two lists, for an
    index within the new list. *)
Lemma Index_on_lists h p r sch oldAsList asList (i : Z) elem :
  heap_wf h → h !! p = Some r → Schema_ r = Some sch →
  OldValue r = VList oldAsList → Value r = VList asList →
  (0 ≤ i)%Z → asList !! Z.to_nat i = Some elem →
  let old := correlatedOld sch oldAsList asList (Z.to_nat i) in
  match is_nil old, itemSchema sch with
  | false, Some ps =>
    ∃ c h' cr r',
      Index (Some p) i h = Ok (Some c, h') ∧
      h' !! c = Some cr ∧ OldValue cr = old ∧ Value cr = elem ∧
      Schema_ cr = Some ps ∧
      h' !! p = Some r' ∧ children r' !! IndexKey i = Some c ∧
      Index (Some p) i h' = Ok (Some c, h')
  | _, _ =>
    Index (Some p) i h = Ok (None, index_store p r sch oldAsList h)
  end.
Proof.
  intros Hwf Hp Hs Ho Hv Hi He old.
  destruct (children r !! IndexKey i) as [c|] eqn:Hc.
  - destruct (memoized_index_child h p r i c Hwf Hp Hc)
      as (cr & sch' & ol & nl & Hcr & Hs' & Ho' & Hv' & _ & He' & Hold & Hnn
          & [ps Hps] & Hpeq).
    assert (sch' = sch) as -> by congruence.
    assert (ol = oldAsList) as -> by congruence.
    assert (nl = asList) as -> by congruence.
    fold old in Hold. rewrite <-Hold.
    apply is_nil_false in Hnn. rewrite Hnn, <-Hpeq, Hps.
    exists c, h, cr, r. rewrite (Index_memoized p r sch i c) by done.
    split_and!; try done. congruence.
  - rewrite (Index_fresh p r sch oldAsList asList i elem) by done.
    fold old. simpl. destruct (is_nil old) eqn:Hnil; [done|].
    destruct (itemSchema sch) as [ps|] eqn:Hps; [|done].
    destruct (index_store_lookup h p r sch oldAsList Hp)
      as (r1 & Hp1 & _ & _ & Hs1 & Hc1 & _).
    destruct (add_child_lookups p r1 (IndexKey i) elem old (Some ps)
                (index_store p r sch oldAsList h) Hp1)
      as (Hlen & Hnew & Hp' & _).
    eexists _, _, _, _. split; [done|]. split; [exact Hnew|].
    split_and!; try done.
    + simpl. apply lookup_insert_eq.
    + eapply Index_memoized; [exact Hp'|simpl; by rewrite Hs1|].
      simpl. apply lookup_insert_eq.
Qed.

(** A schema that declares none of the three list types correlates by
    position. *)
Lemma correlatedOld_positional sch oldAsList asList (i : nat) :
  schemaListType sch ≠ "map"%string → schemaListType sch ≠ "set"%string →
  schemaListType sch ≠ "atomic"%string →
  correlatedOld sch oldAsList asList i = default VNull (oldAsList !! i).
Proof. intros ???. unfold correlatedOld. simpl. by rewrite !decide_False. Qed.

Lemma index_store_not_map p r sch oldAsList h :
  schemaListType sch ≠ "map"%string → index_store p r sch oldAsList h = h.
Proof. intros ?. unfold index_store. by rewrite decide_False. Qed.

(** Outside the two lists [Index] returns nil and leaves the store alone. *)
Lemma Index_null_shapes h p r sch (i : Z) :
  heap_wf h → h !! p = Some r → Schema_ r = Some sch →
  (∀ l, OldValue r ≠ VList l) ∨ (∀ l, Value r ≠ VList l) ∨
  (∃ asList, Value r = VList asList ∧ (len asList ≤ i)%Z) →
  Index (Some p) i h = Ok (None, h).
Proof.
  intros Hwf Hp Hs Hcase.
  destruct (children r !! IndexKey i) as [c|] eqn:Hc.
  { destruct (memoized_index_child h p r i c Hwf Hp Hc)
      as (cr & _ & ol & nl & _ & _ & Ho & Hv & Hi & He & _).
    destruct Hcase as [Hn|[Hn|(nl' & Hv' & Hge)]].
    - by edestruct Hn.
    - by edestruct Hn.
    - assert (nl' = nl) as -> by congruence.
      apply lookup_lt_Some in He. unfold len in Hge. lia. }
  destruct Hcase as [Hn|[Hn|(nl & Hv & Hge)]].
  - destruct (Value r) as [| |nl|?] eqn:Hv;
      try (apply (Index_not_list p r sch); try done; by rewrite Hv).
    destruct (decide (len nl ≤ i)%Z).
    + by apply (Index_beyond_new p r sch nl).
    + by apply (Index_old_not_list p r sch nl).
  - by apply (Index_not_list p r sch).
  - by apply (Index_beyond_new p r sch nl).
Qed.

(** C2 (as amended): on a node whose schema declares none of the list types
    "map", "set" and "atomic", whose old and new values are lists and whose
    schema has an items schema, [Index] at a position within the new list
    returns a child whose old value is the old element at that position
    exactly when the position is within the old list and that old element
    is not nil; otherwise it returns nil.  It also returns nil when the old
    value is not a list and when the index is at or beyond the end of the
    new list. *)
Theorem Index_correlates_by_position h p r sch (i : Z) :
  heap_wf h → h !! p = Some r → Schema_ r = Some sch →
  schemaListType sch ≠ "map"%string → schemaListType sch ≠ "set"%string →
  schemaListType sch ≠ "atomic"%string →
  (∀ oldAsList asList elem,
     OldValue r = VList oldAsList → Value r = VList asList →
     is_Some (itemSchema sch) →
     (0 ≤ i)%Z → asList !! Z.to_nat i = Some elem →
     match oldAsList !! Z.to_nat i with
     | Some old =>
       if is_nil old then Index (Some p) i h = Ok (None, h)
       else ∃ c h' cr,
              Index (Some p) i h = Ok (Some c, h') ∧
              h' !! c = Some cr ∧ OldValue cr = old ∧ Value cr = elem
     | None => Index (Some p) i h = Ok (None, h)
     end) ∧
  ((∀ l, OldValue r ≠ VList l) → Index (Some p) i h = Ok (None, h)) ∧
  (∀ asList, Value r = VList asList → (len asList ≤ i)%Z →
     Index (Some p) i h = Ok (None, h)).
Proof.
  intros Hwf Hp Hs Hmap Hset Hatomic. split_and!.
  - intros oldAsList asList elem Ho Hv [ps Hps] Hi He.
    pose proof (Index_on_lists h p r sch oldAsList asList i elem
                  Hwf Hp Hs Ho Hv Hi He) as Hidx.
    simpl in Hidx. rewrite correlatedOld_positional in Hidx by done.
    rewrite index_store_not_map, Hps in Hidx by done.
    destruct (oldAsList !! Z.to_nat i) as [old|]; simpl in Hidx; [|done].
    destruct (is_nil old); [done|].
    destruct Hidx as (c & h' & cr & r' & ? & ? & ? & ? & _). eauto 10.
  - intros Hn. apply (Index_null_shapes h p r sch); eauto.
  - intros asList Hv Hge. apply (Index_null_shapes h p r sch); eauto 10.
Qed.

(** A node without schema has no children. *)
Lemma no_schema_no_children h p r k :
  heap_wf h → h !! p = Some r → Schema_ r = None → children r !! k = None.
Proof.
  intros Hwf Hp Hs. destruct (children r !! k) as [c|] eqn:Hc; [|done].
  destruct (Hwf p r Hp) as [Hkids _].
  destruct (Hkids k c Hc) as [_ (cr & _ & Hk)].
  destruct k; destruct Hk as (sch & ? & ? & Hs' & _); congruence.
Qed.

Lemma lookup_effect_Key h p r field res h' :
  heap_wf h → h !! p = Some r → Key (Some p) field h = Ok (res, h') →
  lookup_effect p (FieldKey field) r h res h' ∧
  (res = None → h' = h) ∧
  (∀ c, res = Some c → Key (Some p) field h' = Ok (Some c, h')).
Proof.
  intros Hwf Hp Hrun. destruct (Schema_ r) as [sch|] eqn:Hs.
  2:{ rewrite (Key_no_schema p r) in Hrun by done. injection Hrun as <- <-.
      split_and!; try done. simpl. split_and!; try done.
      exists r. split_and!; try done. by eapply no_schema_no_children. }
  destruct (Key_inv p r sch field h res h' Hp Hs Hrun)
    as [(c & Hc & -> & ->)|[(Hc & -> & ->)|(Hc & om & nm & old & new & ps & Ho & Hv & Hof & Hnf & Hps & -> & ->)]].
  - split_and!; try done.
    + left. done.
    + intros c' [= <-]. by apply (Key_memoized p r sch).
  - split_and!; try done. simpl. split_and!; try done. by exists r.
  - destruct (add_child_lookups p r (FieldKey field) new old (Some ps) h Hp)
      as (Hlen & Hnew & Hp' & Hother).
    split_and!; try done.
    + right. split_and!; try done. by eexists.
    + intros c' [= <-]. eapply Key_memoized; [exact Hp'|done|].
      simpl. apply lookup_insert_eq.
Qed.

Lemma lookup_effect_Index h p r (i : Z) res h' :
  heap_wf h → h !! p = Some r → Index (Some p) i h = Ok (res, h') →
  lookup_effect p (IndexKey i) r h res h' ∧
  (res = None →
   h' = h ∨
   ∃ sch oldAsList,
     Schema_ r = Some sch ∧ OldValue r = VList oldAsList ∧
     schemaListType sch = "map"%string ∧ mapList r = None ∧
     h' = <[p := set_mapList (MakeMapList sch oldAsList) r]> h) ∧
  (∀ c, res = Some c → Index (Some p) i h' = Ok (Some c, h')).
Proof.
  intros Hwf Hp Hrun. destruct (Schema_ r) as [sch|] eqn:Hs.
  2:{ rewrite (Index_no_schema p r) in Hrun by done. injection Hrun as <- <-.
      split_and!; try done; [|by left]. simpl. split_and!; try done.
      exists r. split_and!; try done. by eapply no_schema_no_children. }
  destruct (Index_inv p r sch i h res h' Hwf Hp Hs Hrun)
    as [(c & Hc & -> & ->)|[(Hc & -> & ->)|(Hc & ol & nl & elem & Ho & Hv & Hi & He & Hcase)]].
  - split_and!; try done.
    + left. done.
    + intros c' [= <-]. by apply (Index_memoized p r sch).
  - split_and!; try done; [|by left]. simpl. split_and!; try done. by exists r.
  - cbv zeta in Hcase.
    destruct (index_store_lookup h p r sch ol Hp)
      as (r1 & Hp1 & Ho1 & Hv1 & Hs1 & Hc1 & Hcache1).
    destruct Hcase as [(-> & -> & _)|(Hold & [ps Hps] & -> & ->)].
    + split_and!; try done.
      * simpl. split_and!.
        -- apply index_store_length.
        -- intros q Hne. by apply index_store_lookup_ne.
        -- exists r1. split_and!; try done. by rewrite Hc1.
      * intros _. unfold index_store. case_decide; [|by left].
        destruct (mapList r) eqn:Hml; [by left|].
        right. by exists sch, ol.
    + destruct (add_child_lookups p r1 (IndexKey i) elem
                  (correlatedOld sch ol nl (Z.to_nat i)) (itemSchema sch)
                  (index_store p r sch ol h) Hp1)
        as (Hlen & Hnew & Hp' & Hother).
      rewrite index_store_length in *.
      split_and!; try done.
      * right. split_and!; try done.
        -- intros q Hne Hlt. rewrite Hother by done.
           by apply index_store_lookup_ne.
        -- eexists. split; [exact Hp'|]. simpl. by rewrite Hc1, Hcache1.
      * intros c' [= <-]. eapply Index_memoized; [exact Hp'|simpl; by rewrite Hs1|].
        simpl. apply lookup_insert_eq.
Qed.

(** C10 (as amended): [children] holds successfully correlated children
    only (the store stays well formed) and never loses an entry.  A lookup by [Key] or [Index] that
    returns a child either finds it under its key and leaves the store as
    it is, or allocates it as the newest cell and records it under its key
    in the receiver, touching no other entry and no equality cache;
    looking the same key up again returns the same child and changes
    nothing.  A lookup that returns nil adds no entry and touches no
    equality cache: after [Key] the store is as before, and after [Index]
    it is as before except that, on a map-type list whose map list had not
    been built, the map list is now cached in the receiver. *)
Theorem lookups_record_successes_only h p r (field : string) (i : Z) :
  heap_wf h → h !! p = Some r →
  (∀ res h', Key (Some p) field h = Ok (res, h') →
     heap_wf h' ∧
     lookup_effect p (FieldKey field) r h res h' ∧
     (res = None → h' = h) ∧
     (∀ c, res = Some c → Key (Some p) field h' = Ok (Some c, h'))) ∧
  (∀ res h', Index (Some p) i h = Ok (res, h') →
     heap_wf h' ∧
     lookup_effect p (IndexKey i) r h res h' ∧
     (res = None →
      h' = h ∨
      ∃ sch oldAsList,
        Schema_ r = Some sch ∧ OldValue r = VList oldAsList ∧
        schemaListType sch = "map"%string ∧ mapList r = None ∧
        h' = <[p := set_mapList (MakeMapList sch oldAsList) r]> h) ∧
     (∀ c, res = Some c → Index (Some p) i h' = Ok (Some c, h'))).
Proof.
  intros Hwf Hp. split; intros res h' Hrun.
  - split; [by eapply heap_wf_Key|]. by apply lookup_effect_Key.
  - split; [by eapply heap_wf_Index|]. by apply lookup_effect_Index.
Qed.

End IndexLookup.

Section Refinement.
Context {mapListImpl : MapListImpl} {rangeOrder : RangeOrder}.
Implicit Types (h : heap) (p q c : loc) (r : CorrelatedObject) (k : ckey).

Lemma child_bounds h p r k c :
  heap_wf h → h !! p = Some r → children r !! k = Some c →
  p < c < length h.
Proof.
  intros Hwf Hp Hc. destruct (Hwf p r Hp) as [Hkids _].
  destruct (Hkids k c Hc) as [? (cr & Hcr & _)].
  split; [done|]. by eapply lookup_lt_Some.
Qed.

(** ** [everyChildEqual] *)

Lemma everyChildEqual_ext (rec1 rec2 : loc → option bool)
    (kids : gmap ckey loc) (keys : list ckey) :
  (∀ k c, kids !! k = Some c → rec1 c = rec2 c) →
  everyChildEqual rec1 kids keys = everyChildEqual rec2 kids keys.
Proof.
  intros Hrec. induction keys as [|k keys IH]; [done|]. simpl.
  rewrite IH. destruct (kids !! k) as [c|] eqn:Hk; [|done].
  by rewrite (Hrec k c Hk).
Qed.

Lemma everyChildEqual_is_Some (rec : loc → option bool)
    (kids : gmap ckey loc) (keys : list ckey) :
  (∀ k c, kids !! k = Some c → is_Some (rec c)) →
  is_Some (everyChildEqual rec kids keys).
Proof.
  intros Hrec. induction keys as [|k keys [bs IH]]; [by eexists|]. simpl.
  rewrite IH. destruct (kids !! k) as [c|] eqn:Hk; [|by eexists].
  destruct (Hrec k c Hk) as [b ->]. by eexists.
Qed.

(** The order of the keys does not matter. *)
Lemma everyChildEqual_Permutation (rec : loc → option bool)
    (kids : gmap ckey loc) (keys keys' : list ckey) :
  keys ≡ₚ keys' →
  everyChildEqual rec kids keys = everyChildEqual rec kids keys'.
Proof.
  induction 1 as [|k ks ks' _ IH|k1 k2 ks|ks1 ks2 ks3 _ IH1 _ IH2]; simpl.
  - done.
  - by rewrite IH.
  - destruct (match kids !! k1 with Some c => rec c | None => Some false end)
      as [b1|];
    destruct (match kids !! k2 with Some c => rec c | None => Some false end)
      as [b2|];
    destruct (everyChildEqual rec kids ks) as [bs|]; simpl; try done.
    by destruct b1, b2, bs.
  - congruence.
Qed.

(** ** The reference value does not depend on the bound, once it suffices *)

Lemma CachedDeepEqual_reference_fuel h :
  heap_wf h →
  ∀ n m p, p < length h → length h - p ≤ n → length h - p ≤ m →
    CachedDeepEqual_reference n h p = CachedDeepEqual_reference m h p.
Proof.
  intros Hwf. induction n as [|n IH]; intros m p Hlt Hn Hm; [lia|].
  destruct m as [|m]; [lia|]. simpl.
  destruct (h !! p) as [r|] eqn:Hp; [|done]. simpl.
  assert (∀ keys,
    everyChildEqual (CachedDeepEqual_reference n h) (children r) keys =
    everyChildEqual (CachedDeepEqual_reference m h) (children r) keys) as Hkids.
  { intros keys. apply everyChildEqual_ext. intros k c Hk.
    destruct (child_bounds h p r k c Hwf Hp Hk). apply IH; lia. }
  destruct (comparisonResult r); [done|].
  destruct (OldValue r), (Value r); try done; repeat case_decide; try done;
    apply Hkids.
Qed.

Lemma CachedDeepEqual_reference_total h :
  heap_wf h →
  ∀ n p, p < length h → length h - p ≤ n →
    is_Some (CachedDeepEqual_reference n h p).
Proof.
  intros Hwf. induction n as [|n IH]; intros p Hlt Hn; [lia|]. simpl.
  destruct (lookup_lt_is_Some_2 h p Hlt) as [r Hp]. rewrite Hp. simpl.
  assert (∀ keys,
    is_Some (everyChildEqual (CachedDeepEqual_reference n h) (children r) keys))
    as Hkids.
  { intros keys. apply everyChildEqual_is_Some. intros k c Hk.
    destruct (child_bounds h p r k c Hwf Hp Hk). apply IH; lia. }
  repeat (case_match || case_decide); by eauto.
Qed.

Lemma Reference_fuel h n p :
  heap_wf h → p < length h → length h - p ≤ n →
  CachedDeepEqual_reference n h p = Reference h p.
Proof.
  intros Hwf Hlt Hn. unfold Reference.
  apply CachedDeepEqual_reference_fuel; (done || lia).
Qed.

(** ** Filling caches with reference values keeps every reference value *)

Lemma cache_ext_frame p0 h h' : cache_ext p0 h h' → cache_frame h h'.
Proof.
  intros [Hlen Hext]. split; [done|]. intros q r Hq.
  destruct (Hext q r Hq) as (r' & ? & ? & _). eauto.
Qed.

Lemma cache_ext_refl p0 h : cache_ext p0 h h.
Proof.
  split; [done|]. intros q r Hq. exists r.
  split_and!; try done; (apply same_shape_refl || congruence).
Qed.

Lemma cache_ext_weaken p0 p1 h h' :
  p1 ≤ p0 → cache_ext p0 h h' → cache_ext p1 h h'.
Proof.
  intros Hle [Hlen Hext]. split; [done|]. intros q r Hq.
  destruct (Hext q r Hq) as (r' & ? & ? & Hsame & ? & ?).
  exists r'. split_and!; try done. intros ?. apply Hsame. lia.
Qed.

Lemma cache_ext_reference p0 h h' :
  heap_wf h → cache_ext p0 h h' →
  ∀ n q, q < length h → length h - q ≤ n →
    CachedDeepEqual_reference n h' q = CachedDeepEqual_reference n h q.
Proof.
  intros Hwf [Hlen Hext]. induction n as [|n IH]; intros q Hlt Hn; [lia|].
  destruct (lookup_lt_is_Some_2 h q Hlt) as [r Hq].
  destruct (Hext q r Hq) as (r' & Hq' & (Ho & Hv & Hs & Hm & Hc) & _ & Hmono & Hnew).
  simpl. rewrite Hq, Hq'. simpl.
  destruct (comparisonResult r) as [b|] eqn:Hcache.
  { by rewrite (Hmono b). }
  destruct (comparisonResult r') as [b|] eqn:Hcache'.
  { specialize (Hnew b eq_refl eq_refl).
    rewrite <-(Reference_fuel h (S n) q) in Hnew by done.
    simpl in Hnew. rewrite Hq in Hnew. simpl in Hnew.
    by rewrite Hcache in Hnew. }
  rewrite Ho, Hv, Hc.
  assert (∀ keys,
    everyChildEqual (CachedDeepEqual_reference n h') (children r) keys =
    everyChildEqual (CachedDeepEqual_reference n h) (children r) keys) as Hkids.
  { intros keys. apply everyChildEqual_ext. intros k c Hk.
    destruct (child_bounds h q r k c Hwf Hq Hk). apply IH; lia. }
  destruct (OldValue r), (Value r); try done; repeat case_decide; try done;
    apply Hkids.
Qed.

Lemma cache_ext_Reference p0 h h' q :
  heap_wf h → cache_ext p0 h h' → q < length h →
  Reference h' q = Reference h q.
Proof.
  intros Hwf Hext Hlt. unfold Reference. rewrite (proj1 Hext).
  eapply cache_ext_reference; (done || lia).
Qed.

Lemma cache_ext_trans p0 h1 h2 h3 :
  heap_wf h1 → cache_ext p0 h1 h2 → cache_ext p0 h2 h3 → cache_ext p0 h1 h3.
Proof.
  intros Hwf H12 H23. pose proof H12 as [Hl1 H1]. pose proof H23 as [Hl2 H2].
  split; [congruence|].
  intros q r Hq. destruct (H1 q r Hq) as (r2 & Hq2 & Hs2 & Hsame2 & Hmono2 & Hnew2).
  destruct (H2 q r2 Hq2) as (r3 & Hq3 & Hs3 & Hsame3 & Hmono3 & Hnew3).
  exists r3. split_and!; try done.
  - by eapply same_shape_trans.
  - intros Hlt. rewrite Hsame3, Hsame2; done.
  - intros b Hb. eauto.
  - intros b Hnone Hb.
    destruct (comparisonResult r2) as [b2|] eqn:Hc2.
    + rewrite (Hmono3 b2 eq_refl) in Hb. injection Hb as <-. eauto.
    + rewrite <-(cache_ext_Reference p0 h1 h2 q Hwf H12)
        by by eapply lookup_lt_Some.
      eauto.
Qed.

(** ** The code against the reference *)

(** The loops: the children are compared in stores that differ from the
    one at entry by filled caches only, so each result is the reference
    value of that child at entry. *)
Lemma allChildrenEqual_refines n h0 p r :
  (∀ h c, heap_wf h → c < length h → length h - c ≤ n →
     ∃ b h', CachedDeepEqual_fuel n c h = Ok (b, h') ∧ cache_ext c h h' ∧
             CachedDeepEqual_reference n h c = Some b) →
  heap_wf h0 → h0 !! p = Some r → length h0 - p ≤ S n →
  ∀ keys h, cache_ext (S p) h0 h →
    ∃ b h',
      allChildrenEqual (CachedDeepEqual_fuel n) p keys h = Ok (b, h') ∧
      cache_ext (S p) h0 h' ∧
      everyChildEqual (CachedDeepEqual_reference n h0) (children r) keys
        = Some b.
Proof.
  intros IH Hwf Hp Hn.
  assert (∀ keys,
    is_Some (everyChildEqual (CachedDeepEqual_reference n h0) (children r) keys))
    as Htotal.
  { intros keys. apply everyChildEqual_is_Some. intros k c Hk.
    destruct (child_bounds h0 p r k c Hwf Hp Hk).
    apply CachedDeepEqual_reference_total; (done || lia). }
  induction keys as [|k keys IHkeys]; intros h Hext; simpl.
  { eauto. }
  pose proof Hext as [Hlen Hcells].
  destruct (Hcells p r Hp) as (r' & Hp' & _ & Hsame & _).
  rewrite (Hsame ltac:(lia)) in Hp'. rewrite Hp'.
  destruct (Htotal keys) as [bs Hbs]. rewrite Hbs.
  destruct (children r !! k) as [c|] eqn:Hk; [|by eauto].
  destruct (child_bounds h0 p r k c Hwf Hp Hk) as [Hpc Hc].
  assert (heap_wf h) as Hwfh.
  { eapply heap_wf_cache_frame; [|done]. by eapply cache_ext_frame. }
  destruct (IH h c Hwfh) as (bc & h1 & Hrun & Hext1 & Href); [lia..|].
  rewrite Hrun. simpl.
  rewrite (cache_ext_reference (S p) h0 h) in Href by (done || lia).
  rewrite Href. simpl.
  assert (cache_ext (S p) h0 h1) as Hext01.
  { apply (cache_ext_trans (S p) h0 h h1); [done..|].
    eapply cache_ext_weaken; [|done]. lia. }
  destruct bc.
  - destruct (IHkeys h1 Hext01) as (b & h' & Hloop & Hext' & Hrefs).
    rewrite Hloop. exists b, h'. split_and!; try done.
    rewrite Hbs in Hrefs. by injection Hrefs as ->.
  - eauto.
Qed.

(** Storing the result in the receiver's cache. *)
Lemma cache_ext_store h h1 p r res :
  heap_wf h → h !! p = Some r → comparisonResult r = None →
  cache_ext (S p) h h1 → Reference h p = Some res →
  cache_ext p h (alter (set_comparisonResult res) p h1).
Proof.
  intros Hwf Hp Hnone [Hlen Hcells] Href. split.
  { by rewrite length_alter. }
  intros q rq Hq. destruct (Hcells q rq Hq) as (r1 & Hq1 & Hs1 & Hsame & Hmono & Hnew).
  rewrite list_lookup_alter. case_decide as Hpq.
  - subst q. assert (rq = r) as -> by congruence.
    rewrite (Hsame ltac:(lia)) in Hq1. rewrite Hq1. simpl.
    eexists. split; [done|]. split_and!.
    + apply same_shape_set_comparisonResult.
    + lia.
    + intros b. congruence.
    + simpl. intros b _ [= <-]. done.
  - exists r1. split_and!; try done. intros ?. apply Hsame. lia.
Qed.

Lemma field_keys_Permutation (m : gmap string value) :
  range_keys_lawful →
  field_keys m ≡ₚ (λ f : string, FieldKey f) <$> elements (dom m).
Proof. intros Hrange. unfold field_keys. by rewrite (Hrange m). Qed.

(** With a bound that covers the cells after [p], [CachedDeepEqual] on a
    well-formed store returns, fills caches with reference values only, and
    its result is the reference value of [p]. *)
Lemma CachedDeepEqual_fuel_refines :
  range_keys_lawful →
  ∀ n h p, heap_wf h → p < length h → length h - p ≤ n →
    ∃ b h', CachedDeepEqual_fuel n p h = Ok (b, h') ∧ cache_ext p h h' ∧
            CachedDeepEqual_reference n h p = Some b.
Proof.
  intros Hrange. induction n as [|n IH]; intros h p Hwf Hlt Hn; [lia|].
  destruct (lookup_lt_is_Some_2 h p Hlt) as [r Hp].
  assert (∃ b h1,
    deepEqualBody (CachedDeepEqual_fuel n) p r h = Ok (b, h1) ∧
    cache_ext (S p) h h1 ∧
    (comparisonResult r = None →
     CachedDeepEqual_reference (S n) h p = Some b)) as (b & h1 & Hbody & Hext & Href).
  { pose proof (allChildrenEqual_refines n h p r IH Hwf Hp Hn) as Hloop.
    unfold deepEqualBody. simpl. rewrite Hp. simpl.
    destruct (OldValue r) as [|o|oldAsArray|oldAsMap],
             (Value r) as [|v|newAsArray|newAsMap]; simpl;
      try (eexists _, _; split; [done|]; split; [apply cache_ext_refl|];
           by intros ->).
    - repeat case_decide; try lia;
        try (eexists _, _; split; [done|]; split; [apply cache_ext_refl|];
             by intros ->).
      destruct (Hloop (index_keys (length newAsArray)) h (cache_ext_refl _ _))
        as (b & h1 & Hrun & Hext & Href).
      exists b, h1. split_and!; try done. intros ->.
      replace (length oldAsArray) with (length newAsArray) by lia. done.
    - repeat case_decide; try lia;
        try (eexists _, _; split; [done|]; split; [apply cache_ext_refl|];
             by intros ->).
      destruct (Hloop (field_keys oldAsMap) h (cache_ext_refl _ _))
        as (b & h1 & Hrun & Hext & Href).
      exists b, h1. split_and!; try done. intros ->.
      by rewrite <-(everyChildEqual_Permutation _ _ _ _
                     (field_keys_Permutation oldAsMap Hrange)). }
  simpl. rewrite Hp. simpl.
  destruct (comparisonResult r) as [b0|] eqn:Hcache.
  { exists b0, h. split_and!; try done. apply cache_ext_refl. }
  rewrite Hbody. simpl. eexists _, _. split; [done|].
  specialize (Href eq_refl). split.
  - eapply cache_ext_store; try done.
    by rewrite <-(Reference_fuel h (S n) p).
  - simpl in Href. rewrite Hp in Href. simpl in Href.
    by rewrite Hcache in Href.
Qed.

(** On a well-formed store [CachedDeepEqual] returns and keeps the
    invariant. *)
Lemma CachedDeepEqual_total h p :
  range_keys_lawful → heap_wf h → p < length h →
  ∃ b h', CachedDeepEqual p h = Ok (b, h') ∧ heap_wf h'.
Proof.
  intros Hrange Hwf Hlt.
  destruct (CachedDeepEqual_fuel_refines Hrange (S (length h)) h p)
    as (b & h' & Hrun & _ & _); [done|done|lia|].
  exists b, h'. split; [done|]. by eapply heap_wf_CachedDeepEqual_fuel.
Qed.

(** C4: on a well-formed store, for any order in which the keys of a map
    are visited, [CachedDeepEqual] returns, and its result is the value of
    the reference algorithm: the cached value if there is one; else equal
    when both values are nil and not equal when exactly one is; for two
    lists, not equal when the lengths differ or when the number of
    populated children is not the length, else equal iff the child of every
    index is equal; for two maps, not equal when the key counts differ,
    equal when both are empty, not equal when the number of populated
    children is not the key count, else equal iff the child of every key
    is equal; for two scalars, equality of the scalars; not equal for any
    other pair of shapes. *)
Theorem CachedDeepEqual_refines_reference h p :
  range_keys_lawful → heap_wf h → p < length h →
  ∃ b h', CachedDeepEqual p h = Ok (b, h') ∧
          CachedDeepEqual_reference (length h) h p = Some b.
Proof.
  intros Hrange Hwf Hlt.
  destruct (CachedDeepEqual_fuel_refines Hrange (S (length h)) h p)
    as (b & h' & Hrun & _ & Href); [done|done|lia|].
  exists b, h'. split; [done|].
  rewrite (CachedDeepEqual_reference_fuel h Hwf (length h) (S (length h)) p);
    (done || lia).
Qed.

End Refinement.

Section CachesSound.
Context {mapListImpl : MapListImpl} {rangeOrder : RangeOrder}.
Implicit Types (h : heap) (p q c : loc) (r : CorrelatedObject) (k : ckey).

Lemma caches_sound_NewCorrelatedObject new old schema :
  caches_sound (NewCorrelatedObject new old schema []).2.
Proof. intros [|p] r b b'; simpl; [|done]. by intros [= <-]. Qed.

(** Where the two values decide, the body returns what they decide. *)
Lemma deepEqualBody_leafEqual rec p r h b h' b' :
  deepEqualBody rec p r h = Ok (b, h') →
  leafEqual (OldValue r) (Value r) = Some b' → b = b'.
Proof.
  unfold deepEqualBody, leafEqual.
  destruct (OldValue r), (Value r); simpl;
    repeat case_decide; try done; try lia; congruence.
Qed.

Lemma caches_sound_CachedDeepEqual_fuel fuel :
  ∀ p h b h', caches_sound h → CachedDeepEqual_fuel fuel p h = Ok (b, h') →
              caches_sound h'.
Proof.
  induction fuel as [|fuel IH]; intros p h b h' Hsound Hrun; [done|].
  simpl in Hrun. destruct (h !! p) as [r|] eqn:Hp; [|done].
  destruct (comparisonResult r) eqn:Hcache.
  { by injection Hrun as <- <-. }
  apply bind_Ok_inv in Hrun as ([res h1] & Hbody & Hrun).
  injection Hrun as <- <-.
  assert (caches_sound h1) as Hsound1.
  { eapply (deepEqualBody_preserves caches_sound); [|done..]. eauto. }
  assert (cache_frame h h1) as [_ Hfr].
  { eapply (deepEqualBody_preserves (cache_frame h));
      [|apply cache_frame_refl|done].
    intros c h2 b2 h2' Hfr Hrec. eapply cache_frame_trans; [done|].
    by eapply CachedDeepEqual_fuel_frame. }
  destruct (Hfr p r Hp) as (r1 & Hp1 & Ho1 & Hv1 & _).
  intros q rq bq bq' Hq Hcq Hleaf.
  rewrite list_lookup_alter in Hq. case_decide as Hpq.
  - subst q. rewrite Hp1 in Hq. injection Hq as <-.
    simpl in *. injection Hcq as <-. rewrite Ho1, Hv1 in Hleaf.
    by eapply deepEqualBody_leafEqual.
  - by eapply Hsound1.
Qed.

Lemma caches_sound_CachedDeepEqual p h b h' :
  caches_sound h → CachedDeepEqual p h = Ok (b, h') → caches_sound h'.
Proof. apply caches_sound_CachedDeepEqual_fuel. Qed.

Lemma caches_sound_add_child h p r k new old schema :
  caches_sound h → h !! p = Some r →
  caches_sound (add_child p k new old schema h).2.
Proof.
  intros Hsound Hp.
  destruct (add_child_lookups p r k new old schema h Hp)
    as (Hlen & Hnew & Hp' & Hother).
  intros q rq b b' Hq Hcache Hleaf.
  destruct (decide (q = p)) as [->|Hne].
  - rewrite Hp' in Hq. injection Hq as <-. by eapply (Hsound p r).
  - destruct (decide (q = length h)) as [->|Hne'].
    + rewrite Hnew in Hq. by injection Hq as <-.
    + apply lookup_lt_Some in Hq as Hlt. rewrite Hlen in Hlt.
      rewrite Hother in Hq by lia. by eapply (Hsound q rq).
Qed.

Lemma caches_sound_index_store h p r sch oldAsList :
  caches_sound h → h !! p = Some r →
  caches_sound (index_store p r sch oldAsList h).
Proof.
  intros Hsound Hp q rq b b' Hq Hcache Hleaf.
  destruct (decide (q = p)) as [->|Hne].
  - destruct (index_store_lookup h p r sch oldAsList Hp)
      as (r1 & Hp1 & Ho1 & Hv1 & _ & _ & Hc1).
    rewrite Hp1 in Hq. injection Hq as <-.
    eapply (Hsound p r); [done|by rewrite <-Hc1|by rewrite <-Ho1, <-Hv1].
  - rewrite index_store_lookup_ne in Hq by done. by eapply (Hsound q rq).
Qed.

Lemma caches_sound_Key l field h res h' :
  caches_sound h → Key l field h = Ok (res, h') → caches_sound h'.
Proof.
  intros Hsound Hrun. destruct l as [p|]; [|by injection Hrun as <- <-].
  destruct (h !! p) as [r|] eqn:Hp; [|by simpl in Hrun; rewrite Hp in Hrun].
  destruct (Schema_ r) as [sch|] eqn:Hs.
  2:{ rewrite (Key_no_schema p r) in Hrun by done. by injection Hrun as <- <-. }
  destruct (Key_inv p r sch field h res h' Hp Hs Hrun)
    as [(c & _ & _ & ->)|[(_ & _ & ->)|(_ & om & nm & old & new & ps & _ & _ & _ & _ & _ & _ & ->)]];
    [done..|].
  by eapply caches_sound_add_child.
Qed.

Lemma caches_sound_Index l (i : Z) h res h' :
  heap_wf h → caches_sound h → Index l i h = Ok (res, h') → caches_sound h'.
Proof.
  intros Hwf Hsound Hrun. destruct l as [p|]; [|by injection Hrun as <- <-].
  destruct (h !! p) as [r|] eqn:Hp; [|by simpl in Hrun; rewrite Hp in Hrun].
  destruct (Schema_ r) as [sch|] eqn:Hs.
  2:{ rewrite (Index_no_schema p r) in Hrun by done. by injection Hrun as <- <-. }
  destruct (Index_inv p r sch i h res h' Hwf Hp Hs Hrun)
    as [(c & _ & _ & ->)|[(_ & _ & ->)|(_ & ol & nl & elem & _ & _ & _ & _ & Hcase)]];
    [done..|].
  cbv zeta in Hcase.
  pose proof (caches_sound_index_store h p r sch ol Hsound Hp) as Hsound1.
  destruct Hcase as [(_ & -> & _)|(_ & _ & _ & ->)]; [done|].
  destruct (index_store_lookup h p r sch ol Hp) as (r1 & Hp1 & _).
  by eapply caches_sound_add_child.
Qed.

(** A node whose old and new value are both nil compares equal. *)
Lemma CachedDeepEqual_both_nil h c cr :
  caches_sound h → h !! c = Some cr →
  OldValue cr = VNull → Value cr = VNull →
  ∃ h', CachedDeepEqual c h = Ok (true, h').
Proof.
  intros Hsound Hc Ho Hv. unfold CachedDeepEqual. simpl. rewrite Hc.
  destruct (comparisonResult cr) as [b|] eqn:Hcache.
  - assert (b = true) as ->; [|by eauto].
    eapply (Hsound c cr); [done..|]. by rewrite Ho, Hv.
  - unfold deepEqualBody. rewrite Ho, Hv. simpl. by eauto.
Qed.

Lemma correlate_not_lists p r (i : Z) h :
  h !! p = Some r →
  (∀ l, OldValue r ≠ VList l) ∨ (∀ l, Value r ≠ VList l) ∨
  (∃ asList, Value r = VList asList ∧ (len asList ≤ i)%Z) →
  correlateOldValueForChildAtNewIndex p i h = Ok (VNull, h).
Proof.
  intros Hp Hcase. unfold correlateOldValueForChildAtNewIndex. rewrite Hp.
  destruct (OldValue r) as [| |ol|?] eqn:Ho; try done.
  destruct (Value r) as [| |nl|?] eqn:Hv; try done.
  destruct Hcase as [Hn|[Hn|(nl' & [= <-] & Hge)]]; try by edestruct Hn.
  by rewrite decide_True.
Qed.

(** When the old counterpart resolves to nil, [Index] returns nil. *)
Lemma Index_old_nil h p r sch (i : Z) h1 :
  heap_wf h → h !! p = Some r → Schema_ r = Some sch →
  correlateOldValueForChildAtNewIndex p i h = Ok (VNull, h1) →
  Index (Some p) i h = Ok (None, h1).
Proof.
  intros Hwf Hp Hs Hcorr.
  destruct (children r !! IndexKey i) as [c|] eqn:Hc.
  { destruct (memoized_index_child h p r i c Hwf Hp Hc)
      as (cr & sch' & ol & nl & _ & Hs' & Ho & Hv & Hi & He & Hold & Hnn & _).
    assert (sch' = sch) as -> by congruence.
    rewrite (correlate_eq p r sch ol nl) in Hcorr; try done.
    - injection Hcorr as Hnil _. congruence.
    - apply lookup_lt_Some in He. unfold len. lia. }
  destruct (Value r) as [| |nl|?] eqn:Hv;
    try (rewrite (correlate_not_lists p r) in Hcorr
           by (try done; right; left; by rewrite Hv);
         injection Hcorr as <-;
         apply (Index_not_list p r sch); try done; by rewrite Hv).
  destruct (decide (len nl ≤ i)%Z) as [Hge|Hlt].
  - rewrite (correlate_not_lists p r) in Hcorr by eauto 10.
    injection Hcorr as <-. by apply (Index_beyond_new p r sch nl).
  - simpl. rewrite Hp, Hs, Hc, Hv. rewrite decide_False by done.
    by rewrite Hcorr.
Qed.

(** Every store a validation can build is well formed and has sound
    caches. *)
Lemma reachable_invariant h : reachable h → heap_wf h ∧ caches_sound h.
Proof.
  induction 1 as [new old schema|l field h res h' _ [IHwf IHs] Hrun
                 |l i h res h' _ [IHwf IHs] Hrun|p h b h' _ [IHwf IHs] Hrun].
  - split; [apply heap_wf_NewCorrelatedObject
           |apply caches_sound_NewCorrelatedObject].
  - split; [by eapply heap_wf_Key|by eapply caches_sound_Key].
  - split; [by eapply heap_wf_Index|by eapply caches_sound_Index].
  - split; [by eapply heap_wf_CachedDeepEqual_fuel
           |by eapply caches_sound_CachedDeepEqual].
Qed.

End CachesSound.

Section NullAsymmetry.
Context {mapListImpl : MapListImpl} {rangeOrder : RangeOrder}
        {engineTypes : EngineTypes} {engine : Engine}.
Implicit Types (h : heap) (p q c : loc) (r : CorrelatedObject).

(** C9 (as amended): nil is treated differently by the two lookups.  [Key]
    correlates a field that is present with the value nil in both maps
    exactly when a schema applies to the field: the node has a schema, and
    it declares the property or gives a schema for additional properties.
    The child it then returns holds nil twice and compares equal; when no
    schema applies, [Key] returns nil and leaves the store alone.  [Index]
    returns nil whenever the old counterpart of the element resolves to
    nil, so the hook hands out the engine's own validator; this is so in
    particular for a list correlated by position whose old element at that
    very position, within both lists, is nil. *)
Theorem nil_is_correlated_by_Key_but_not_by_Index h p r :
  heap_wf h → caches_sound h → h !! p = Some r →
  (∀ field oldAsMap newAsMap,
     OldValue r = VMap oldAsMap → Value r = VMap newAsMap →
     oldAsMap !! field = Some VNull → newAsMap !! field = Some VNull →
     match Schema_ r with
     | Some sch =>
       match propertySchema sch field with
       | Some ps =>
         ∃ c h' h'' cr,
           Key (Some p) field h = Ok (Some c, h') ∧
           h' !! c = Some cr ∧ OldValue cr = VNull ∧ Value cr = VNull ∧
           Schema_ cr = Some ps ∧
           CachedDeepEqual c h' = Ok (true, h'')
       | None => Key (Some p) field h = Ok (None, h)
       end
     | None => Key (Some p) field h = Ok (None, h)
     end) ∧
  (∀ (i : Z) h1,
     correlateOldValueForChildAtNewIndex p i h = Ok (VNull, h1) →
     Index (Some p) i h = Ok (None, h1) ∧
     ∀ rv schema rootSchema root formats options,
       correlation rv = Some p →
       SubIndexValidator rv i schema rootSchema root formats options h =
         Ok (schemaValidator
               (validate_NewSchemaValidator schema rootSchema root formats
                  options), h1)) ∧
  (∀ sch (i : Z) oldAsList asList elem,
     Schema_ r = Some sch →
     OldValue r = VList oldAsList → Value r = VList asList →
     schemaListType sch ≠ "map"%string → schemaListType sch ≠ "set"%string →
     schemaListType sch ≠ "atomic"%string →
     (0 ≤ i)%Z → asList !! Z.to_nat i = Some elem →
     oldAsList !! Z.to_nat i = Some VNull →
     Index (Some p) i h = Ok (None, h)).
Proof.
  intros Hwf Hsound Hp. split_and!.
  - intros field om nm Ho Hv Hof Hnf.
    destruct (Schema_ r) as [sch|] eqn:Hs; [|by apply (Key_no_schema p r)].
    pose proof (Key_on_maps h p r sch om nm field Hwf Hp Hs Ho Hv) as Hkey.
    rewrite Hof, Hnf in Hkey.
    destruct (propertySchema sch field) as [ps|] eqn:Hps; [|done].
    destruct Hkey as (c & h' & cr & r' & Hrun & Hc & Hco & Hcv & Hcs & _).
    assert (caches_sound h') as Hsound' by by eapply caches_sound_Key.
    destruct (CachedDeepEqual_both_nil h' c cr Hsound' Hc Hco Hcv) as [h'' ?].
    by exists c, h', h'', cr.
  - intros i h1 Hcorr.
    assert (Index (Some p) i h = Ok (None, h1)) as Hidx.
    { destruct (Schema_ r) as [sch|] eqn:Hs.
      - by apply (Index_old_nil h p r sch).
      - rewrite (Index_no_schema p r) by done.
        unfold correlateOldValueForChildAtNewIndex in Hcorr.
        rewrite Hp, Hs in Hcorr.
        destruct (OldValue r), (Value r); try case_decide; congruence. }
    split; [done|].
    intros rv schema rootSchema root formats options Hrv.
    unfold SubIndexValidator. by rewrite Hrv, Hidx.
  - intros sch i ol nl elem Hs Ho Hv Hmap Hset Hatomic Hi He Hoi.
    rewrite <-(index_store_not_map p r sch ol h) at 2 by done.
    apply (Index_old_nil h p r sch); try done.
    rewrite (correlate_eq p r sch ol nl); try done.
    + by rewrite correlatedOld_positional, Hoi.
    + apply lookup_lt_Some in He. unfold len. lia.
Qed.

End NullAsymmetry.

Section RatchetingRule.
Context {mapListImpl : MapListImpl} {rangeOrder : RangeOrder}
        {engineTypes : EngineTypes} {engine : Engine}.
Implicit Types (h : heap) (p q c : loc) (rv : ratchetingValueValidator).

Lemma MergeAsWarnings_emptyResult (res : Result) :
  Errors (MergeAsWarnings emptyResult res) = [] ∧
  Warnings (MergeAsWarnings emptyResult res) = Errors res ++ Warnings res.
Proof. done. Qed.

Lemma IsValid_true (res : Result) : IsValid res = true ↔ Errors res = [].
Proof. unfold IsValid. by destruct (Errors res). Qed.

(** C1 (as amended): [Validate] runs the engine on the new value of its
    node.  A result without errors is returned as it is.  A result with
    errors is returned with every error turned into a warning, and no
    error left, when [CachedDeepEqual] of the node is true, and returned as
    it is when [CachedDeepEqual] is false: the failure is forgiven if and
    only if [CachedDeepEqual] holds at that node.  On a well-formed store
    the call returns. *)
Theorem Validate_forgives_iff_CachedDeepEqual rv new c node h res h1 :
  correlation rv = Some c → h !! c = Some node →
  SchemaValidator_Validate (engineValidatorOf rv) (Value node) h
    = Ok (res, h1) →
  (Errors res = [] → Validate rv new h = Ok (res, h1)) ∧
  (Errors res ≠ [] →
   ∀ eq h2, CachedDeepEqual c h1 = Ok (eq, h2) →
     ∃ out,
       Validate rv new h = Ok (out, h2) ∧
       (eq = true →
        Errors out = [] ∧ Warnings out = Errors res ++ Warnings res) ∧
       (eq = false → out = res) ∧
       (Errors out = [] ↔ eq = true)) ∧
  (range_keys_lawful → heap_wf h1 → c < length h1 →
   ∃ out h2, Validate rv new h = Ok (out, h2)).
Proof.
  intros Hc Hnode Hengine.
  assert (∀ eq h2, Errors res ≠ [] → CachedDeepEqual c h1 = Ok (eq, h2) →
            Validate rv new h =
              Ok (if eq then MergeAsWarnings emptyResult res else res, h2))
    as Hfail.
  { intros eq h2 Herr Heq. unfold Validate. rewrite Hc, Hnode, Hengine. simpl.
    destruct (IsValid res) eqn:Hvalid.
    - by apply IsValid_true in Hvalid.
    - rewrite Heq. simpl. by destruct eq. }
  assert (Errors res = [] → Validate rv new h = Ok (res, h1)) as Hpass.
  { intros Herr. unfold Validate. rewrite Hc, Hnode, Hengine. simpl.
    apply IsValid_true in Herr. by rewrite Herr. }
  split_and!.
  - done.
  - intros Herr eq h2 Heq. rewrite (Hfail eq h2 Herr Heq).
    eexists. split; [done|].
    destruct eq; simpl; repeat split; try done;
      try (intros Hnil; by destruct Herr).
  - intros Hrange Hwf Hlt.
    destruct (decide (Errors res = [])) as [Herr|Herr]; [by eauto|].
    destruct (CachedDeepEqual_total h1 c Hrange Hwf Hlt) as (eq & h2 & Heq & _).
    rewrite (Hfail eq h2 Herr Heq). by eauto.
Qed.

End RatchetingRule.

Section KnownDefects.
Context {mapListImpl : MapListImpl} {rangeOrder : RangeOrder}.
Implicit Types (h : heap) (p q c : loc) (r : CorrelatedObject).

(** [Key] never faults on a receiver that is nil or points into the
    store. *)
Lemma Key_total (l : option loc) field h :
  (∀ p, l = Some p → p < length h) →
  ∃ res h', Key l field h = Ok (res, h').
Proof.
  intros Hvalid. destruct l as [p|]; [|by eexists _, _].
  destruct (lookup_lt_is_Some_2 h p (Hvalid p eq_refl)) as [r Hp].
  simpl. rewrite Hp. repeat case_match; by eexists _, _.
Qed.

(** [Index] never faults on such a receiver when the index is not
    negative. *)
Lemma Index_total_nonnegative (l : option loc) (i : Z) h :
  heap_wf h → (∀ p, l = Some p → p < length h) → (0 ≤ i)%Z →
  ∃ res h', Index l i h = Ok (res, h').
Proof.
  intros Hwf Hvalid Hi. destruct l as [p|]; [|by eexists _, _].
  destruct (lookup_lt_is_Some_2 h p (Hvalid p eq_refl)) as [r Hp].
  destruct (Schema_ r) as [sch|] eqn:Hs;
    [|rewrite (Index_no_schema p r) by done; by eexists _, _].
  destruct (OldValue r) as [| |ol|?] eqn:Ho;
    try (rewrite (Index_null_shapes h p r sch)
           by (try done; left; by rewrite Ho); by eexists _, _).
  destruct (Value r) as [| |nl|?] eqn:Hv;
    try (rewrite (Index_null_shapes h p r sch)
           by (try done; right; left; by rewrite Hv); by eexists _, _).
  destruct (decide (len nl ≤ i)%Z) as [Hge|Hlt].
  { rewrite (Index_null_shapes h p r sch) by eauto 10. by eexists _, _. }
  destruct (lookup_in_bounds nl i) as [elem He]; [lia|].
  pose proof (Index_on_lists h p r sch ol nl i elem Hwf Hp Hs Ho Hv Hi He)
    as Hidx.
  cbv zeta in Hidx.
  destruct (is_nil _), (itemSchema sch); try by eexists _, _.
  destruct Hidx as (c & h' & _ & _ & ? & _). by eexists _, _.
Qed.

(** A negative index on two lists correlated by position, or by key, is not
    caught by the bounds test and faults in the slice expression. *)
Lemma Index_negative_faults h p r sch oldAsList asList (i : Z) :
  h !! p = Some r → Schema_ r = Some sch →
  children r !! IndexKey i = None →
  OldValue r = VList oldAsList → Value r = VList asList →
  schemaListType sch ≠ "set"%string → schemaListType sch ≠ "atomic"%string →
  (i < 0)%Z →
  Index (Some p) i h = Panic.
Proof.
  intros Hp Hs Hc Ho Hv Hset Hatomic Hi. simpl. rewrite Hp, Hs, Hc, Hv.
  rewrite decide_False by (unfold len; lia).
  unfold correlateOldValueForChildAtNewIndex. rewrite Hp, Ho, Hv, Hs.
  rewrite decide_False by (unfold len; lia). simpl.
  rewrite !slice_index_negative by done.
  repeat case_decide; try done. unfold len in *. lia.
Qed.

(** On a set or atomic list [Index] never returns a child. *)
Lemma Index_set_atomic_nil h p r sch (i : Z) :
  heap_wf h → h !! p = Some r → Schema_ r = Some sch →
  schemaListType sch = "set"%string ∨ schemaListType sch = "atomic"%string →
  Index (Some p) i h = Ok (None, h).
Proof.
  intros Hwf Hp Hs Hty.
  assert (∀ ol nl n, correlatedOld sch ol nl n = VNull) as Hnil.
  { intros ol nl n. unfold correlatedOld. simpl.
    destruct Hty as [Hty|Hty]; rewrite Hty; by repeat case_decide. }
  assert (∀ ol, index_store p r sch ol h = h) as Hstore.
  { intros ol. apply index_store_not_map. destruct Hty; congruence. }
  destruct (children r !! IndexKey i) as [c|] eqn:Hc.
  { destruct (memoized_index_child h p r i c Hwf Hp Hc)
      as (cr & sch' & ol & nl & _ & Hs' & _ & _ & _ & _ & Hold & Hnn & _).
    assert (sch' = sch) as -> by congruence. by rewrite Hnil in Hold. }
  simpl. rewrite Hp, Hs, Hc. destruct (Value r) as [| |nl|?] eqn:Hv; try done.
  case_decide; [done|].
  unfold correlateOldValueForChildAtNewIndex. rewrite Hp, Hv, Hs.
  destruct (OldValue r); try done. rewrite decide_False by done. simpl.
  destruct Hty as [Hty|Hty]; rewrite Hty; by repeat case_decide.
Qed.

(** Two lists of the same positive length, none of whose elements was
    correlated, never compare equal: the comparison returns false before
    it looks at an element, and no structural comparison of the two lists
    takes place. *)
Lemma CachedDeepEqual_uncorrelated_lists h p r oldAsList asList :
  h !! p = Some r → comparisonResult r = None →
  OldValue r = VList oldAsList → Value r = VList asList →
  children r = ∅ → 0 < length oldAsList →
  ∃ h', CachedDeepEqual p h = Ok (false, h').
Proof.
  intros Hp Hcache Ho Hv Hkids Hlen. unfold CachedDeepEqual. simpl.
  rewrite Hp, Hcache. unfold deepEqualBody. rewrite Ho, Hv, Hkids. simpl.
  case_decide; [by eauto|]. rewrite decide_True; [by eauto|].
  rewrite map_size_empty. lia.
Qed.

End KnownDefects.

(** * The theorems at concrete inputs *)

Section Witnesses.
Import Examples.
Local Open Scope string_scope.
Existing Instance nameKeyed.
Existing Instance sortedRange.
Existing Instance plainTypes.

Lemma sortedRange_lawful : range_keys_lawful.
Proof. intros m. reflexivity. Qed.

Lemma objectStore_wf : heap_wf objectStore.
Proof. apply heap_wf_NewCorrelatedObject. Qed.

Lemma visitedObjectStore_wf : heap_wf visitedObjectStore.
Proof.
  eapply (heap_wf_Key (Some 0) "y" (storeOf (Key (Some 0) "x" objectStore))
            (Some 2)).
  - eapply (heap_wf_Key (Some 0) "x" objectStore (Some 1)).
    + apply objectStore_wf.
    + reflexivity.
  - reflexivity.
Qed.

(** The scenario of the specification: a stored value that a tightened
    enumeration rejects passes an update that leaves it alone, with a
    warning, and fails an update that changes it to another bad value. *)
Example ValidateUpdate_unchanged_legacy_value :
  ValidateUpdate (engine := walkingEngine enumAB 3)
    (validatorFor (objectSchema ["foo"]))
    (VMap {[ "foo" := vString "legacy" ]})
    (VMap {[ "foo" := vString "legacy" ]})
  = Ok {| Errors := []; Warnings := ["must be one of A, B"] |}.
Proof. reflexivity. Qed.

Example ValidateUpdate_changed_legacy_value :
  ValidateUpdate (engine := walkingEngine enumAB 3)
    (validatorFor (objectSchema ["foo"]))
    (VMap {[ "foo" := vString "other" ]})
    (VMap {[ "foo" := vString "legacy" ]})
  = Ok {| Errors := ["must be one of A, B"]; Warnings := [] |}.
Proof. reflexivity. Qed.

(** Reordering the elements of a map-type list is no change: every
    element is correlated by its key, all compare equal, and so does the
    list. *)
Example CachedDeepEqual_reordered_map_list :
  fst <$> (Validate (engine := walkingEngine noLists 4)
             (rootValidator keyedListSchema) listBA reorderedStore
           ≫= λ '(_, h), CachedDeepEqual 0 h)
  = Ok true.
Proof. reflexivity. Qed.

(** An unchanged object whose only field has no schema: no child is ever
    correlated, [CachedDeepEqual] is false and the errors stay errors. *)
Example Validate_undeclared_field_not_forgiven :
  OldValue <$> undeclaredFieldStore !! 0 = Value <$> undeclaredFieldStore !! 0 ∧
  fst <$> Validate (engine := walkingEngine scalarsOnly 3)
            (rootValidator (objectSchema [])) (VMap {[ "x" := vInt 1 ]})
            undeclaredFieldStore
    = Ok scalarFailure.
Proof. split; reflexivity. Qed.

(** Changing one element of a map-type list: the list as a whole is not
    equal, the element that was only moved still is. *)
Example CachedDeepEqual_partially_changed_map_list :
  (comparisonResult <$>
     storeOf (Validate (engine := walkingEngine noLists 4)
                (rootValidator keyedListSchema)
                (VList [named "b" 2; named "a" 99])
                (rootHeap (VList [named "b" 2; named "a" 99]) listAB
                   keyedListSchema))) !! 0 = Some (Some false) ∧
  fst <$> (Validate (engine := walkingEngine noLists 4)
             (rootValidator keyedListSchema)
             (VList [named "b" 2; named "a" 99])
             (rootHeap (VList [named "b" 2; named "a" 99]) listAB
                keyedListSchema)
           ≫= λ '(_, h), CachedDeepEqual 1 h)
  = Ok true.
Proof. split; reflexivity. Qed.

(** Adding a key breaks equality even though the old key is unchanged. *)
Example CachedDeepEqual_added_key :
  fst <$> (Key (Some 0) "x"
             (rootHeap (VMap {[ "x" := vInt 1; "y" := vInt 2 ]})
                (VMap {[ "x" := vInt 1 ]}) (objectSchema ["x"; "y"]))
           ≫= λ '(_, h), CachedDeepEqual 0 h)
  = Ok false.
Proof. reflexivity. Qed.

(** C1, the claim as stated fails: the new list is the old one with its two
    elements swapped, so the two values are not structurally identical; the
    engine rejects the list, and [Validate] returns the error as a warning
    all the same, because the list is of type map and its elements
    correlate by key. *)
Lemma Validate_forgives_reordered_map_list :
  OldValue <$> reorderedStore !! 0 = Some listAB ∧
  Value <$> reorderedStore !! 0 = Some listBA ∧
  listAB ≠ listBA ∧
  Errors <$> (fst <$> SchemaValidator_Validate
                        (Engine := walkingEngine noLists 4)
                        (engineValidatorOf (rootValidator keyedListSchema))
                        listBA reorderedStore)
    = Ok ["must not be a list"] ∧
  fst <$> Validate (engine := walkingEngine noLists 4)
            (rootValidator keyedListSchema) listBA reorderedStore
    = Ok {| Errors := []; Warnings := ["must not be a list"] |}.
Proof. repeat split; (reflexivity || discriminate). Qed.

(** The theorem of C1 at a root holding the unchanged string "legacy",
    which the engine rejects: the error comes back as a warning. *)
Lemma Validate_forgives_iff_CachedDeepEqual_witness :
  ∃ out,
    Validate (engine := walkingEngine enumAB 3) (rootValidator leafSchema)
      (vString "legacy") legacyStore
      = Ok (out, storeOf (CachedDeepEqual 0 legacyStore)) ∧
    Errors out = [] ∧ Warnings out = ["must be one of A, B"].
Proof.
  destruct (Validate_forgives_iff_CachedDeepEqual
              (engine := walkingEngine enumAB 3) (rootValidator leafSchema)
              (vString "legacy") 0
              (mkCorrelatedObject (vString "legacy") (vString "legacy")
                 (Some leafSchema) None None ∅)
              legacyStore enumFailure legacyStore)
    as (_ & Hfail & _).
  - reflexivity.
  - reflexivity.
  - reflexivity.
  - destruct (Hfail ltac:(discriminate) true
                (storeOf (CachedDeepEqual 0 legacyStore)))
      as (out & Hrun & Htrue & _).
    + reflexivity.
    + exists out. destruct (Htrue eq_refl) as [Herr Hwarn]. by split_and!.
Defined.

(** C2, the claim as stated fails: position 0 is within the old list, yet
    [Index] returns nil, because the old element there is nil. *)
Lemma Index_in_old_bounds_returns_nil :
  OldValue <$> nilElementStore !! 0 = Some (VList [VNull]) ∧
  Value <$> nilElementStore !! 0 = Some (VList [vInt 1]) ∧
  (0 ≤ 0 < len [VNull])%Z ∧
  Index (Some 0) 0 nilElementStore = Ok (None, nilElementStore).
Proof. repeat split; (reflexivity || discriminate). Qed.

(** The theorem of C2 at position 1 of the lists [9, 2] (old) and [1, 2]
    (new): the child pairs the two elements at that position. *)
Lemma Index_correlates_by_position_witness :
  ∃ c h' cr,
    Index (Some 0) 1 positionalStore = Ok (Some c, h') ∧
    h' !! c = Some cr ∧ OldValue cr = vInt 2 ∧ Value cr = vInt 2.
Proof.
  destruct (Index_correlates_by_position positionalStore 0
              (mkCorrelatedObject (VList [vInt 9; vInt 2])
                 (VList [vInt 1; vInt 2]) (Some (listSchema ∅)) None None ∅)
              (listSchema ∅) 1)
    as (Hlists & _).
  - apply heap_wf_NewCorrelatedObject.
  - reflexivity.
  - reflexivity.
  - vm_compute. discriminate.
  - vm_compute. discriminate.
  - vm_compute. discriminate.
  - apply (Hlists [vInt 9; vInt 2] [vInt 1; vInt 2] (vInt 2));
      (reflexivity || lia || by eexists).
Defined.

(** The theorem of C4 at the root of an object both of whose fields were
    looked up. *)
Lemma CachedDeepEqual_refines_reference_witness :
  ∃ b h',
    CachedDeepEqual 0 visitedObjectStore = Ok (b, h') ∧
    CachedDeepEqual_reference (length visitedObjectStore)
      visitedObjectStore 0 = Some b.
Proof.
  apply (CachedDeepEqual_refines_reference visitedObjectStore 0).
  - apply sortedRange_lawful.
  - apply visitedObjectStore_wf.
  - vm_compute. lia.
Defined.

(** The run behind the witness: both children compare equal, so does the
    root, and the three caches are filled. *)
Example CachedDeepEqual_visited_object :
  fst <$> CachedDeepEqual 0 visitedObjectStore = Ok true ∧
  (comparisonResult <$> storeOf (CachedDeepEqual 0 visitedObjectStore))
    = [Some true; Some true; Some true] ∧
  CachedDeepEqual_reference 3 visitedObjectStore 0 = Some true.
Proof. repeat split; reflexivity. Qed.

(** The theorem of C5 at the root of the same store: the first call
    returns true, the cache holds true, the second call agrees. *)
Lemma CachedDeepEqual_memoized_witness :
  (∃ r', storeOf (CachedDeepEqual 0 visitedObjectStore) !! 0 = Some r' ∧
         comparisonResult r' = Some true) ∧
  CachedDeepEqual 0 (storeOf (CachedDeepEqual 0 visitedObjectStore))
    = Ok (true, storeOf (CachedDeepEqual 0 visitedObjectStore)).
Proof.
  destruct (CachedDeepEqual_memoized 0 visitedObjectStore true
              (storeOf (CachedDeepEqual 0 visitedObjectStore)))
    as (Hstored & Hagain & _).
  - reflexivity.
  - by split.
Defined.

(** The theorem of C6 at the field "x" of a fresh root holding the same
    object twice. *)
Lemma Key_correlates_fields_of_both_maps_witness :
  ∃ c h' cr r',
    Key (Some 0) "x" objectStore = Ok (Some c, h') ∧
    h' !! c = Some cr ∧ OldValue cr = vInt 1 ∧ Value cr = vInt 1 ∧
    Schema_ cr = Some leafSchema ∧
    h' !! 0 = Some r' ∧ children r' !! FieldKey "x" = Some c ∧
    Key (Some 0) "x" h' = Ok (Some c, h').
Proof.
  destruct (Key_correlates_fields_of_both_maps (Some 0) "x" objectStore
              objectStore_wf) as [_ Hnode].
  destruct (Hnode 0
              (mkCorrelatedObject (sampleObject 1) (sampleObject 1)
                 (Some (objectSchema ["x"; "y"])) None None ∅)
              eq_refl eq_refl) as (_ & _ & Hmaps).
  destruct (Hmaps (objectSchema ["x"; "y"])
              {[ "x" := vInt 1; "y" := VNull ]}
              {[ "x" := vInt 1; "y" := VNull ]} eq_refl eq_refl eq_refl)
    as [_ Hboth].
  destruct (Hboth (vInt 1) (vInt 1)) as [_ Hchoice].
  - reflexivity.
  - reflexivity.
  - apply (Hchoice leafSchema). left. reflexivity.
Defined.

(** C9, the claim as stated fails: the field "y" is present with the value
    nil in both maps, yet [Key] returns nil, because the schema of the
    object neither declares the property nor allows additional ones. *)
Lemma Key_nil_field_without_schema_returns_nil :
  OldValue <$> undeclaredNilFieldStore !! 0
    = Some (VMap {[ "y" := VNull ]}) ∧
  Value <$> undeclaredNilFieldStore !! 0
    = Some (VMap {[ "y" := VNull ]}) ∧
  ({[ "y" := VNull ]} : gmap string value) !! "y" = Some VNull ∧
  Key (Some 0) "y" undeclaredNilFieldStore
    = Ok (None, undeclaredNilFieldStore).
Proof. repeat split; reflexivity. Qed.

(** The theorem of C9 at the field "y", nil in both objects and declared
    by the schema, and at position 0 of a list whose old element there is
    nil. *)
Lemma nil_is_correlated_by_Key_but_not_by_Index_witness :
  (∃ c h' h'',
     Key (Some 0) "y" objectStore = Ok (Some c, h') ∧
     CachedDeepEqual c h' = Ok (true, h'')) ∧
  Index (Some 0) 0 nilElementStore = Ok (None, nilElementStore).
Proof.
  split.
  - destruct (nil_is_correlated_by_Key_but_not_by_Index objectStore 0
                (mkCorrelatedObject (sampleObject 1) (sampleObject 1)
                   (Some (objectSchema ["x"; "y"])) None None ∅))
      as (Hkey & _ & _).
    + apply objectStore_wf.
    + apply caches_sound_NewCorrelatedObject.
    + reflexivity.
    + destruct (Hkey "y" {[ "x" := vInt 1; "y" := VNull ]}
                  {[ "x" := vInt 1; "y" := VNull ]}
                  eq_refl eq_refl eq_refl eq_refl)
        as (c & h' & h'' & cr & Hrun & _ & _ & _ & _ & Heq).
      by exists c, h', h''.
  - destruct (nil_is_correlated_by_Key_but_not_by_Index nilElementStore 0
                (mkCorrelatedObject (VList [VNull]) (VList [vInt 1])
                   (Some (listSchema ∅)) None None ∅))
      as (_ & _ & Hpos).
    + apply heap_wf_NewCorrelatedObject.
    + apply caches_sound_NewCorrelatedObject.
    + reflexivity.
    + apply (Hpos (listSchema ∅) 0%Z [VNull] [vInt 1] (vInt 1));
        (reflexivity || lia || (vm_compute; discriminate)).
Defined.

(** C10, the claim as stated fails: on a map-type list the lookup of an
    element without old counterpart returns nil, and the receiver's map
    list, which was nil, is now built. *)
Lemma Index_failed_lookup_builds_map_list :
  fst <$> Index (Some 0) 0 keyedStore = Ok None ∧
  mapList <$> keyedStore !! 0 = Some None ∧
  mapList <$> storeOf (Index (Some 0) 0 keyedStore) !! 0 = Some (Some []).
Proof. repeat split; reflexivity. Qed.

(** The theorem of C10 at the failed lookup above: no cell, no entry and
    no equality cache has changed. *)
Lemma lookups_record_successes_only_witness :
  length (storeOf (Index (Some 0) 0 keyedStore)) = length keyedStore ∧
  (children <$> storeOf (Index (Some 0) 0 keyedStore) !! 0)
    = (children <$> keyedStore !! 0) ∧
  (comparisonResult <$> storeOf (Index (Some 0) 0 keyedStore) !! 0)
    = (comparisonResult <$> keyedStore !! 0).
Proof.
  destruct (lookups_record_successes_only keyedStore 0
              (mkCorrelatedObject (VList []) (VList [named "a" 1])
                 (Some keyedListSchema) None None ∅)
              "x" 0)
    as [_ Hindex].
  - apply heap_wf_NewCorrelatedObject.
  - reflexivity.
  - destruct (Hindex None (storeOf (Index (Some 0) 0 keyedStore)))
      as (_ & (Hlen & _ & r' & Hp' & Hkids & Hcache & _) & _).
    + reflexivity.
    + split; [exact Hlen|]. rewrite Hp'. simpl. by rewrite Hkids, Hcache.
Defined.

(** C3, the defect: an unchanged one-element list of type "set" or "atomic"
    gets no child from [Index], its [CachedDeepEqual] is false although the
    old and the new list are the same, and the failure the engine reports
    against the list is returned as an error. *)
Theorem unchanged_set_or_atomic_list_is_not_forgiven :
  Forall (λ ty,
    OldValue <$> unchangedListStore ty !! 0
      = Value <$> unchangedListStore ty !! 0 ∧
    Index (Some 0) 0 (unchangedListStore ty)
      = Ok (None, unchangedListStore ty) ∧
    fst <$> CachedDeepEqual 0 (unchangedListStore ty) = Ok false ∧
    ValidateUpdate (engine := walkingEngine scalarsOnly 3)
      (validatorFor (listSchema (listTypeExt ty)))
      (VList [vInt 1]) (VList [vInt 1])
      = Ok scalarFailure) ["set"; "atomic"].
Proof.
  repeat apply Forall_cons_2; [| |apply Forall_nil_2];
    repeat split; reflexivity.
Qed.

(** C7, the defect: [Index] with the index -1 on two lists correlated by
    position, or by key, faults instead of returning nil. *)
Theorem Index_negative_index_faults :
  Index (Some 0) (-1) positionalStore = Panic ∧
  Index (Some 0) (-1) keyedStore = Panic.
Proof. split; reflexivity. Qed.

End Witnesses.

(** * Further properties of the code *)

Section StoreProperties.
Context {mapListImpl : MapListImpl} {rangeOrder : RangeOrder}.
Implicit Types (h : heap) (p q c : loc) (r : CorrelatedObject) (k : ckey).

(** X1: every store that [NewCorrelatedObject], [Key], [Index] and
    [CachedDeepEqual] can build is well formed: a child is allocated after
    its parent; a child recorded under a field holds that field's old and
    new value and the schema [Key] picks; a child recorded under an index
    holds the new element at that index and the old value correlated with
    it, which is not nil; a cached map list is the one of the node's old
    list; and a filled equality cache agrees with the two values wherever
    they alone decide the comparison. *)
Theorem reachable_stores_are_well_formed h :
  reachable h → heap_wf h ∧ caches_sound h.
Proof. apply reachable_invariant. Qed.

(** X2: [CachedDeepEqual] writes equality caches and nothing else: it
    allocates no cell and leaves the values, the schema, the map list and
    the children of every node as they were. *)
Theorem CachedDeepEqual_touches_caches_only p h b h' :
  CachedDeepEqual p h = Ok (b, h') →
  length h' = length h ∧
  ∀ q r, h !! q = Some r →
    ∃ r', h' !! q = Some r' ∧
          OldValue r' = OldValue r ∧ Value r' = Value r ∧
          Schema_ r' = Schema_ r ∧ mapList r' = mapList r ∧
          children r' = children r.
Proof.
  intros Hrun. apply CachedDeepEqual_fuel_frame in Hrun as [Hlen Hfr].
  split; [done|]. intros q r Hq.
  destruct (Hfr q r Hq) as (r' & Hq' & Ho & Hv & Hs & Hm & Hc).
  by exists r'.
Qed.

(** X3: on a well-formed store [CachedDeepEqual] of node [p] leaves every
    cell allocated before [p] untouched and never overwrites a filled
    cache, so the comparison of a node is computed at most once during a
    validation. *)
Theorem CachedDeepEqual_keeps_filled_caches p h b h' :
  range_keys_lawful → heap_wf h → p < length h →
  CachedDeepEqual p h = Ok (b, h') →
  (∀ q r, q < p → h !! q = Some r → h' !! q = Some r) ∧
  (∀ q r b0, h !! q = Some r → comparisonResult r = Some b0 →
     ∃ r', h' !! q = Some r' ∧ comparisonResult r' = Some b0).
Proof.
  intros Hrange Hwf Hlt Hrun.
  destruct (CachedDeepEqual_fuel_refines Hrange (S (length h)) h p)
    as (b1 & h1 & Hrun1 & [_ Hext] & _); [done|done|lia|].
  unfold CachedDeepEqual in Hrun. rewrite Hrun1 in Hrun.
  injection Hrun as -> ->. split.
  - intros q r Hqp Hq. destruct (Hext q r Hq) as (r' & Hq' & _ & Hsame & _).
    by rewrite Hq', (Hsame Hqp).
  - intros q r b0 Hq Hcache.
    destruct (Hext q r Hq) as (r' & Hq' & _ & _ & Hmono & _). eauto.
Qed.

(** X4: on a reachable store [CachedDeepEqual] returns: the nesting of its
    recursive calls is bounded by the number of cells, no lookup in
    [children] faults, and the store it leaves is reachable again. *)
Theorem CachedDeepEqual_returns_on_reachable_stores p h :
  range_keys_lawful → reachable h → p < length h →
  ∃ b h', CachedDeepEqual p h = Ok (b, h') ∧ reachable h'.
Proof.
  intros Hrange Hreach Hlt.
  destruct (reachable_invariant h Hreach) as [Hwf _].
  destruct (CachedDeepEqual_total h p Hrange Hwf Hlt) as (b & h' & Hrun & _).
  exists b, h'. split; [done|]. by eapply reachable_CachedDeepEqual.
Qed.

(** X13: wherever the two values alone decide the comparison,
    [CachedDeepEqual] on a reachable store returns what they decide, also
    when it answers from the cache: false for a nil against a non-nil
    value, for values of different shapes, for lists of different lengths
    and for maps with different numbers of keys; true for two nils and for
    two empty maps; and equality of the scalars for two scalars. *)
Theorem CachedDeepEqual_decided_by_values p r h b h' decided :
  reachable h → h !! p = Some r →
  leafEqual (OldValue r) (Value r) = Some decided →
  CachedDeepEqual p h = Ok (b, h') → b = decided.
Proof.
  intros Hreach Hp Hleaf Hrun.
  destruct (reachable_invariant h Hreach) as [_ Hsound].
  unfold CachedDeepEqual in Hrun. simpl in Hrun. rewrite Hp in Hrun.
  destruct (comparisonResult r) as [b0|] eqn:Hcache.
  - injection Hrun as <- <-. by eapply (Hsound p r).
  - apply bind_Ok_inv in Hrun as ([res h1] & Hbody & Hrun).
    injection Hrun as <- <-. by eapply deepEqualBody_leafEqual.
Qed.

(** X9: [correlateOldValueForChildAtNewIndex] is idempotent: a second call
    on the store the first one left returns the same old value and changes
    nothing, the map list of a map-type list being built by the first call
    only.  On a well-formed store the value returned for an index within
    the new list is a function of the node's two lists and schema, whether
    or not the map list was cached. *)
Theorem correlate_builds_map_list_once p (i : Z) h v h1 :
  correlateOldValueForChildAtNewIndex p i h = Ok (v, h1) →
  correlateOldValueForChildAtNewIndex p i h1 = Ok (v, h1) ∧
  (heap_wf h →
   ∀ r sch oldAsList asList,
     h !! p = Some r → Schema_ r = Some sch →
     OldValue r = VList oldAsList → Value r = VList asList →
     (0 ≤ i < len asList)%Z →
     v = correlatedOld sch oldAsList asList (Z.to_nat i)).
Proof.
  intros Hrun. split.
  - unfold correlateOldValueForChildAtNewIndex in *.
    destruct (h !! p) as [r|] eqn:Hp; [|done].
    destruct (OldValue r) as [| |ol|?] eqn:Ho;
      try (injection Hrun as <- <-; by rewrite Hp, Ho).
    destruct (Value r) as [| |nl|?] eqn:Hv;
      try (injection Hrun as <- <-; by rewrite Hp, Ho, Hv).
    case_decide as Hlen.
    { injection Hrun as <- <-. rewrite Hp, Ho, Hv. by rewrite decide_True. }
    destruct (Schema_ r) as [sch|] eqn:Hs; [|done]. simpl in Hrun.
    case_decide as Hmap.
    + apply bind_Ok_inv in Hrun as (elem & Helem & Hrun).
      destruct (mapList r) as [ml|] eqn:Hml.
      * injection Hrun as <- <-. rewrite Hp, Ho, Hv, Hs. simpl.
        rewrite decide_False, decide_True by done.
        rewrite Helem. simpl. by rewrite Hml.
      * injection Hrun as <- <-.
        rewrite list_lookup_insert_eq by by eapply lookup_lt_Some.
        simpl. rewrite Ho, Hv, Hs. simpl.
        rewrite decide_False, decide_True by done.
        rewrite Helem. done.
    + assert (h1 = h) as ->.
      { repeat case_decide; try by injection Hrun as <- <-.
        by apply bind_Ok_inv in Hrun as (o & _ & [= <- <-]). }
      rewrite Hp, Ho, Hv, Hs. simpl.
      rewrite !decide_False by done. done.
  - intros Hwf r sch ol nl Hp Hs Ho Hv Hi.
    rewrite (correlate_eq p r sch ol nl) in Hrun by done.
    by injection Hrun as <- _.
Qed.

(** X10: [Key] never faults, whatever the field and the shapes of the two
    values, and [Index] never faults for an index that is not negative,
    however large: each returns a child or nil. *)
Theorem lookups_return_for_every_field_and_index (l : option loc)
    (field : string) (i : Z) h :
  heap_wf h → (∀ p, l = Some p → p < length h) →
  (∃ res h', Key l field h = Ok (res, h')) ∧
  ((0 ≤ i)%Z → ∃ res h', Index l i h = Ok (res, h')).
Proof.
  intros Hwf Hvalid. split.
  - by apply Key_total.
  - intros Hi. by apply Index_total_nonnegative.
Qed.

(** X11: what [Index] does with a negative index on a node holding two
    lists: the test against the length of the new list lets it through, a
    set or atomic list then answers nil, and a list correlated by position
    or by key faults in the slice expression. *)
Theorem Index_with_negative_index h p r sch oldAsList asList (i : Z) :
  heap_wf h → h !! p = Some r → Schema_ r = Some sch →
  OldValue r = VList oldAsList → Value r = VList asList →
  (i < 0)%Z →
  Index (Some p) i h =
    if decide (schemaListType sch = "set"%string ∨
               schemaListType sch = "atomic"%string)
    then Ok (None, h) else Panic.
Proof.
  intros Hwf Hp Hs Ho Hv Hi. case_decide as Hty.
  - by apply (Index_set_atomic_nil h p r sch).
  - apply (Index_negative_faults h p r sch oldAsList asList); try done.
    + destruct (children r !! IndexKey i) as [c|] eqn:Hc; [|done].
      destruct (memoized_index_child h p r i c Hwf Hp Hc)
        as (_ & _ & _ & _ & _ & _ & _ & _ & ? & _). lia.
    + intros ?. apply Hty. by left.
    + intros ?. apply Hty. by right.
Qed.

End StoreProperties.

Section Positions.
Context {mapListImpl : MapListImpl} {rangeOrder : RangeOrder}.
Implicit Types (h : heap) (p q c : loc) (r : CorrelatedObject) (k : ckey).

Lemma elem_of_index_keys (i : Z) n :
  IndexKey i ∈ index_keys n ↔ (0 ≤ i < Z.of_nat n)%Z.
Proof.
  unfold index_keys. rewrite list_elem_of_fmap. split.
  - intros (j & [= ->] & Hj%elem_of_seq). lia.
  - intros Hi. exists (Z.to_nat i). split; [f_equal; lia|].
    apply elem_of_seq. lia.
Qed.

Lemma index_keys_NoDup n : NoDup (index_keys n).
Proof.
  unfold index_keys. apply NoDup_fmap_2_strong; [|apply NoDup_seq].
  intros i j _ _ [= Hij]. lia.
Qed.

Lemma length_index_keys n : length (index_keys n) = n.
Proof. unfold index_keys. by rewrite length_fmap, length_seq. Qed.

Lemma positions_NoDup v : NoDup (positions v).
Proof.
  destruct v as [| |l|m]; simpl; try apply NoDup_nil_2.
  - apply index_keys_NoDup.
  - apply NoDup_fmap_2_strong; [|apply NoDup_elements].
    by intros f g _ _ [= ->].
Qed.

Lemma elem_of_positions_field (m : gmap string value) f :
  FieldKey f ∈ positions (VMap m) ↔ is_Some (m !! f).
Proof.
  simpl. rewrite list_elem_of_fmap. rewrite <-elem_of_dom. split.
  - intros (g & [= ->] & Hg). by apply elem_of_elements in Hg.
  - intros Hf. exists f. split; [done|]. by apply elem_of_elements.
Qed.

(** In a well-formed store every entry of [children] sits at a position of
    the new value. *)
Lemma child_key_is_position h p r k c :
  heap_wf h → h !! p = Some r → children r !! k = Some c →
  k ∈ positions (Value r).
Proof.
  intros Hwf Hp Hk. destruct k as [f|i].
  - destruct (memoized_field_child h p r f c Hwf Hp Hk)
      as (cr & _ & _ & nm & _ & _ & _ & -> & _ & Hnf & _).
    apply elem_of_positions_field. eauto.
  - destruct (memoized_index_child h p r i c Hwf Hp Hk)
      as (cr & _ & _ & nl & _ & _ & _ & -> & Hi & He & _).
    simpl. apply elem_of_index_keys. apply lookup_lt_Some in He. lia.
Qed.

Lemma children_size_le_positions h p r :
  heap_wf h → h !! p = Some r →
  size (children r) ≤ length (positions (Value r)).
Proof.
  intros Hwf Hp.
  rewrite <-(size_dom (D := gset ckey)).
  rewrite <-(size_list_to_set (C := gset ckey)) by apply positions_NoDup.
  apply subseteq_size. intros k [c Hk]%elem_of_dom.
  apply elem_of_list_to_set. by eapply child_key_is_position.
Qed.

(** When every position has a child, [children] has exactly as many
    entries as there are positions. *)
Lemma children_size_all_positions h p r :
  heap_wf h → h !! p = Some r →
  (∀ k, k ∈ positions (Value r) → is_Some (children r !! k)) →
  size (children r) = length (positions (Value r)).
Proof.
  intros Hwf Hp Hall.
  rewrite <-(size_dom (D := gset ckey)).
  rewrite <-(size_list_to_set (C := gset ckey)) by apply positions_NoDup.
  f_equal. apply set_eq. intros k.
  rewrite elem_of_dom, elem_of_list_to_set. split.
  - intros [c Hk]. by eapply child_key_is_position.
  - apply Hall.
Qed.

(** X8: in a well-formed store the entries of [children] are positions of
    the node's values: a field entry names a field present in both maps,
    an index entry an index within the new list.  So a list node has at
    most as many children as the new list has elements, a map node at most
    as many as the new map has keys, and a node whose new value is a
    scalar or nil has none. *)
Theorem children_sit_at_positions_of_the_new_value h p r :
  heap_wf h → h !! p = Some r →
  (∀ f c, children r !! FieldKey f = Some c →
     ∃ oldAsMap newAsMap,
       OldValue r = VMap oldAsMap ∧ Value r = VMap newAsMap ∧
       is_Some (oldAsMap !! f) ∧ is_Some (newAsMap !! f)) ∧
  (∀ (i : Z) c, children r !! IndexKey i = Some c →
     ∃ oldAsList asList,
       OldValue r = VList oldAsList ∧ Value r = VList asList ∧
       (0 ≤ i < len asList)%Z) ∧
  match Value r with
  | VList asList => size (children r) ≤ length asList
  | VMap newAsMap => size (children r) ≤ size newAsMap
  | _ => children r = ∅
  end.
Proof.
  intros Hwf Hp. split_and!.
  - intros f c Hk.
    destruct (memoized_field_child h p r f c Hwf Hp Hk)
      as (cr & _ & om & nm & _ & _ & Ho & Hv & Hof & Hnf & _).
    exists om, nm. eauto.
  - intros i c Hk.
    destruct (memoized_index_child h p r i c Hwf Hp Hk)
      as (cr & _ & ol & nl & _ & _ & Ho & Hv & Hi & He & _).
    exists ol, nl. split_and!; try done.
    apply lookup_lt_Some in He. unfold len. lia.
  - pose proof (children_size_le_positions h p r Hwf Hp) as Hle.
    destruct (Value r) as [| |l|m]; simpl in Hle.
    + apply map_size_empty_inv. lia.
    + apply map_size_empty_inv. lia.
    + by rewrite length_index_keys in Hle.
    + rewrite length_fmap in Hle.
      change (length (elements (dom m))) with (size (dom m)) in Hle.
      by rewrite size_dom in Hle.
Qed.

(** X12: a list whose schema declares the type "set" or "atomic" is never
    correlated element by element: [Index] returns nil for every index and
    leaves the store alone, the node never gets a child, and the first
    [CachedDeepEqual] of the node is true only if both lists are empty. *)
Theorem set_and_atomic_lists_are_compared_as_empty_or_unequal
    h p r sch oldAsList asList :
  heap_wf h → h !! p = Some r → Schema_ r = Some sch →
  schemaListType sch = "set"%string ∨ schemaListType sch = "atomic"%string →
  OldValue r = VList oldAsList → Value r = VList asList →
  (∀ i : Z, Index (Some p) i h = Ok (None, h)) ∧
  children r = ∅ ∧
  (comparisonResult r = None →
   ∃ h', CachedDeepEqual p h =
           Ok (match oldAsList, asList with [], [] => true | _, _ => false end,
               h')).
Proof.
  intros Hwf Hp Hs Hty Ho Hv.
  assert (children r = ∅) as Hkids.
  { apply map_empty. intros k.
    destruct (children r !! k) as [c|] eqn:Hk; [|done]. destruct k as [f|i].
    - destruct (memoized_field_child h p r f c Hwf Hp Hk)
        as (_ & _ & _ & nm & _ & _ & _ & Hv' & _). congruence.
    - destruct (memoized_index_child h p r i c Hwf Hp Hk)
        as (cr & sch' & ol & nl & _ & Hs' & _ & _ & _ & _ & Hold & Hnn & _).
      assert (sch' = sch) as -> by congruence.
      unfold correlatedOld in Hold. simpl in Hold.
      destruct Hty as [Hty|Hty]; rewrite Hty in Hold;
        repeat case_decide; done. }
  split_and!.
  - intros i. by apply (Index_set_atomic_nil h p r sch).
  - done.
  - intros Hcache. unfold CachedDeepEqual. simpl. rewrite Hp, Hcache.
    unfold deepEqualBody. rewrite Ho, Hv, Hkids. simpl.
    rewrite map_size_empty.
    destruct oldAsList as [|o ol], asList as [|n nl]; simpl;
      repeat case_decide; simpl in *; try lia; by eauto.
Qed.

End Positions.

Section Soundness.
Context {mapListImpl : MapListImpl} {rangeOrder : RangeOrder}.
Implicit Types (h : heap) (p q c : loc) (r : CorrelatedObject) (k : ckey).

Lemma no_map_lists_spec h :
  no_map_lists h = true ↔
  ∀ q r, h !! q = Some r → is_map_list_node r = false.
Proof.
  unfold no_map_lists. rewrite forallb_forall. split.
  - intros Hall q r Hq. apply negb_true_iff, Hall.
    apply list_elem_of_In. by eapply list_elem_of_lookup_2.
  - intros Hall r Hin. apply negb_true_iff.
    apply list_elem_of_In, list_elem_of_lookup_1 in Hin as [q Hq]. eauto.
Qed.

Lemma not_map_list_node r sch :
  is_map_list_node r = false → Schema_ r = Some sch →
  schemaListType sch ≠ "map"%string.
Proof.
  unfold is_map_list_node. intros Hno Hs. rewrite Hs in Hno.
  by apply bool_decide_eq_false in Hno.
Qed.

(** An index child of a list that is not a map list holds the old element
    at its own position. *)
Lemma positional_child h p r (i : Z) c :
  heap_wf h → h !! p = Some r → is_map_list_node r = false →
  children r !! IndexKey i = Some c →
  ∃ cr oldAsList asList,
    h !! c = Some cr ∧ OldValue r = VList oldAsList ∧ Value r = VList asList ∧
    (0 ≤ i)%Z ∧
    oldAsList !! Z.to_nat i = Some (OldValue cr) ∧
    asList !! Z.to_nat i = Some (Value cr).
Proof.
  intros Hwf Hp Hno Hk.
  destruct (memoized_index_child h p r i c Hwf Hp Hk)
    as (cr & sch & ol & nl & Hc & Hs & Ho & Hv & Hi & He & Hold & Hnn & _).
  exists cr, ol, nl. split_and!; try done.
  pose proof (not_map_list_node r sch Hno Hs) as Hty.
  unfold correlatedOld in Hold. simpl in Hold.
  rewrite decide_False in Hold by done.
  repeat case_decide; try done.
  destruct (ol !! Z.to_nat i) as [x|]; simpl in Hold; congruence.
Qed.

Lemma everyChildEqual_true_inv (rec : loc → option bool)
    (kids : gmap ckey loc) (keys : list ckey) :
  everyChildEqual rec kids keys = Some true →
  ∀ k, k ∈ keys → ∃ c, kids !! k = Some c ∧ rec c = Some true.
Proof.
  induction keys as [|k0 keys IH]; intros Hall k Hk.
  { by apply elem_of_nil in Hk. }
  simpl in Hall.
  destruct (kids !! k0) as [c0|] eqn:Hk0;
    [destruct (rec c0) as [b0|] eqn:Hc0; [|done]|];
    destruct (everyChildEqual rec kids keys) as [bs|]; simpl in Hall;
    try done; injection Hall as Hall;
    try apply andb_true_iff in Hall as [-> ->]; try done.
  apply elem_of_cons in Hk as [->|Hk]; [by eauto|by apply IH].
Qed.

Lemma everyChildEqual_true_intro (rec : loc → option bool)
    (kids : gmap ckey loc) (keys : list ckey) :
  (∀ k, k ∈ keys → ∃ c, kids !! k = Some c ∧ rec c = Some true) →
  everyChildEqual rec kids keys = Some true.
Proof.
  induction keys as [|k0 keys IH]; intros Hall; [done|]. simpl.
  destruct (Hall k0) as (c & -> & ->); [by left|].
  rewrite IH; [done|]. intros k Hk. apply Hall. by right.
Qed.

(** Without map lists, with caches that say "equal" only on equal values,
    the reference algorithm says "equal" only on equal values. *)
Lemma reference_true_sound h :
  heap_wf h → caches_true_sound h → no_map_lists h = true →
  ∀ n p r, h !! p = Some r → CachedDeepEqual_reference n h p = Some true →
           OldValue r = Value r.
Proof.
  intros Hwf Hcaches Hno. rewrite no_map_lists_spec in Hno.
  induction n as [|n IH]; intros p r Hp Href; [done|].
  simpl in Href. rewrite Hp in Href. simpl in Href.
  destruct (comparisonResult r) as [b|] eqn:Hcache.
  { injection Href as ->. by eapply Hcaches. }
  destruct (OldValue r) as [|o|ol|om] eqn:Ho,
           (Value r) as [|v|nl|nm] eqn:Hv; try done.
  - injection Href as Heq. apply bool_decide_eq_true in Heq. congruence.
  - repeat case_decide; try done.
    pose proof (everyChildEqual_true_inv _ _ _ Href) as Hkids.
    f_equal. apply list_eq. intros i.
    destruct (decide (i < length ol)) as [Hlt|Hge].
    + destruct (Hkids (IndexKey (Z.of_nat i))) as (c & Hk & Hc).
      { apply elem_of_index_keys. lia. }
      destruct (positional_child h p r _ c Hwf Hp (Hno _ _ Hp) Hk)
        as (cr & ol' & nl' & Hcr & Ho' & Hv' & _ & Hoi & Hni).
      rewrite Nat2Z.id in Hoi, Hni.
      assert (ol' = ol) as -> by congruence.
      assert (nl' = nl) as -> by congruence.
      rewrite Hoi, Hni. f_equal. by eapply IH.
    + rewrite !lookup_ge_None_2; [done|lia..].
  - repeat case_decide; try done.
    + f_equal. assert (size nm = 0) as Hnm by lia.
      apply map_size_empty_inv in Hnm as ->.
      by apply map_size_empty_inv.
    + pose proof (everyChildEqual_true_inv _ _ _ Href) as Hkids.
      f_equal. apply map_subseteq_size_eq; [|lia].
      apply map_subseteq_spec. intros f x Hf.
      destruct (Hkids (FieldKey f)) as (c & Hk & Hc).
      { apply (elem_of_positions_field om). eauto. }
      destruct (memoized_field_child h p r f c Hwf Hp Hk)
        as (cr & _ & om' & nm' & Hcr & _ & Ho' & Hv' & Hof & Hnf & _).
      assert (om' = om) as -> by congruence.
      assert (nm' = nm) as -> by congruence.
      rewrite Hnf. rewrite Hof in Hf. injection Hf as <-.
      f_equal. symmetry. by eapply IH.
Qed.

(** ** What lookups and equality tests do to a store *)

Lemma grows_refl h : grows h h.
Proof.
  split; [by eauto 10|]. intros q r' Hq%lookup_lt_Some Hge. lia.
Qed.

Lemma grows_add_child h p r k new old schema :
  h !! p = Some r → grows h (add_child p k new old schema h).2.
Proof.
  intros Hp.
  destruct (add_child_lookups p r k new old schema h Hp)
    as (Hlen & Hnew & Hp' & Hother).
  split.
  - intros q rq Hq. destruct (decide (q = p)) as [->|Hne].
    + rewrite Hp'. assert (rq = r) as -> by congruence. by eauto 10.
    + rewrite Hother; [by eauto 10|done|by eapply lookup_lt_Some].
  - intros q r' Hq Hge. apply lookup_lt_Some in Hq as Hlt.
    rewrite Hlen in Hlt. assert (q = length h) as -> by lia.
    rewrite Hnew in Hq. by injection Hq as <-.
Qed.

Lemma grows_index_store h p r sch oldAsList :
  h !! p = Some r → grows h (index_store p r sch oldAsList h).
Proof.
  intros Hp. split.
  - intros q rq Hq. destruct (decide (q = p)) as [->|Hne].
    + destruct (index_store_lookup h p r sch oldAsList Hp)
        as (r1 & Hp1 & ? & ? & ? & ? & ?).
      assert (rq = r) as -> by congruence. by eauto 10.
    + rewrite index_store_lookup_ne by done. by eauto 10.
  - intros q r' Hq%lookup_lt_Some Hge. rewrite index_store_length in Hq. lia.
Qed.


Lemma grows_trans h1 h2 h3 :
  grows h1 h2 → grows h2 h3 → grows h1 h3.
Proof.
  intros [Hk1 Hn1] [Hk2 Hn2]. split.
  - intros q r Hq. destruct (Hk1 q r Hq) as (r2 & Hq2 & ? & ? & ? & ?).
    destruct (Hk2 q r2 Hq2) as (r3 & Hq3 & ? & ? & ? & ?).
    exists r3. split_and!; congruence.
  - intros q r3 Hq3 Hge.
    destruct (decide (length h2 ≤ q)) as [Hge2|Hlt]; [by eauto|].
    destruct (lookup_lt_is_Some_2 h2 q) as [r2 Hq2]; [lia|].
    destruct (Hk2 q r2 Hq2) as (r3' & Hq3' & _ & _ & _ & Hc).
    assert (r3' = r3) as -> by congruence.
    rewrite Hc. by eapply Hn1.
Qed.

Lemma grows_Key l field h res h' :
  Key l field h = Ok (res, h') → grows h h'.
Proof.
  intros Hrun. destruct l as [p|];
    [|injection Hrun as <- <-; apply grows_refl].
  destruct (h !! p) as [r|] eqn:Hp; [|by simpl in Hrun; rewrite Hp in Hrun].
  destruct (Schema_ r) as [sch|] eqn:Hs.
  2:{ rewrite (Key_no_schema p r) in Hrun by done.
      injection Hrun as <- <-. apply grows_refl. }
  destruct (Key_inv p r sch field h res h' Hp Hs Hrun)
    as [(c & _ & _ & ->)|[(_ & _ & ->)
       |(_ & om & nm & old & new & ps & _ & _ & _ & _ & _ & _ & ->)]];
    try apply grows_refl.
  by eapply grows_add_child.
Qed.

Lemma grows_Index l (i : Z) h res h' :
  heap_wf h → Index l i h = Ok (res, h') → grows h h'.
Proof.
  intros Hwf Hrun. destruct l as [p|];
    [|injection Hrun as <- <-; apply grows_refl].
  destruct (h !! p) as [r|] eqn:Hp; [|by simpl in Hrun; rewrite Hp in Hrun].
  destruct (Schema_ r) as [sch|] eqn:Hs.
  2:{ rewrite (Index_no_schema p r) in Hrun by done.
      injection Hrun as <- <-. apply grows_refl. }
  destruct (Index_inv p r sch i h res h' Hwf Hp Hs Hrun)
    as [(c & _ & _ & ->)|[(_ & _ & ->)
       |(_ & ol & nl & elem & _ & _ & _ & _ & Hcase)]];
    try apply grows_refl.
  cbv zeta in Hcase.
  pose proof (grows_index_store h p r sch ol Hp) as Hgrow.
  destruct Hcase as [(_ & -> & _)|(_ & _ & _ & ->)]; [done|].
  destruct (index_store_lookup h p r sch ol Hp) as (r1 & Hp1 & _).
  eapply grows_trans; [done|]. by eapply grows_add_child.
Qed.

Lemma no_map_lists_grows h h' :
  grows h h' → no_map_lists h' = true → no_map_lists h = true.
Proof.
  intros [Hkeep _]. rewrite !no_map_lists_spec. intros Hno q r Hq.
  destruct (Hkeep q r Hq) as (r' & Hq' & _ & _ & Hs & _).
  specialize (Hno q r' Hq'). unfold is_map_list_node in *. by rewrite <-Hs.
Qed.

Lemma caches_true_sound_grows h h' :
  grows h h' → caches_true_sound h → caches_true_sound h'.
Proof.
  intros [Hkeep Hnew] Hsound q r' Hq' Hcache.
  destruct (decide (length h ≤ q)) as [Hge|Hlt].
  { rewrite (Hnew q r' Hq' Hge) in Hcache. done. }
  destruct (lookup_lt_is_Some_2 h q) as [r Hq]; [lia|].
  destruct (Hkeep q r Hq) as (r1 & Hq1 & Ho & Hv & _ & Hc).
  assert (r1 = r') as -> by congruence.
  rewrite Ho, Hv. apply (Hsound q r Hq). congruence.
Qed.

Lemma no_map_lists_cache_frame h h' :
  cache_frame h h' → no_map_lists h' = true → no_map_lists h = true.
Proof.
  intros [_ Hfr]. rewrite !no_map_lists_spec. intros Hno q r Hq.
  destruct (Hfr q r Hq) as (r' & Hq' & _ & _ & Hs & _).
  specialize (Hno q r' Hq'). unfold is_map_list_node in *. by rewrite <-Hs.
Qed.

(** The code's result is the reference value, and the store it leaves
    extends the caches of the one it was given. *)
Lemma CachedDeepEqual_reference_value p h b h' :
  range_keys_lawful → heap_wf h → CachedDeepEqual p h = Ok (b, h') →
  cache_ext p h h' ∧ CachedDeepEqual_reference (S (length h)) h p = Some b.
Proof.
  intros Hrange Hwf Hrun.
  assert (p < length h) as Hlt.
  { unfold CachedDeepEqual in Hrun. simpl in Hrun.
    destruct (h !! p) eqn:Hp; [|done]. by eapply lookup_lt_Some. }
  destruct (CachedDeepEqual_fuel_refines Hrange (S (length h)) h p)
    as (b0 & h0 & Hrun0 & Hext & Href); [done|done|lia|].
  unfold CachedDeepEqual in Hrun. rewrite Hrun in Hrun0.
  by injection Hrun0 as <- <-.
Qed.

Lemma caches_true_sound_CachedDeepEqual p h b h' :
  range_keys_lawful → heap_wf h → no_map_lists h = true →
  caches_true_sound h → CachedDeepEqual p h = Ok (b, h') →
  caches_true_sound h'.
Proof.
  intros Hrange Hwf Hno Hsound Hrun.
  destruct (CachedDeepEqual_reference_value p h b h' Hrange Hwf Hrun)
    as [[Hlen Hext] _].
  intros q r' Hq' Hcache.
  destruct (lookup_lt_is_Some_2 h q) as [r Hq].
  { rewrite <-Hlen. by eapply lookup_lt_Some. }
  destruct (Hext q r Hq) as (r1 & Hq1 & (Ho & Hv & _) & _ & Hold & Hfill).
  assert (r1 = r') as -> by congruence.
  rewrite Ho, Hv.
  destruct (comparisonResult r) as [bq|] eqn:Hcq.
  - apply (Hsound q r Hq). rewrite Hcq. rewrite (Hold bq eq_refl) in Hcache.
    done.
  - by eapply (reference_true_sound h Hwf Hsound Hno (length h) q r Hq),
              Hfill.
Qed.

(** On the stores a validation can build, without map lists, a cache says
    "equal" only on a node whose old and new value are the same. *)
Lemma reachable_caches_true_sound h :
  range_keys_lawful → reachable h → no_map_lists h = true →
  caches_true_sound h.
Proof.
  intros Hrange. induction 1 as [new old schema|l field h res h' Hreach IH Hrun
                 |l i h res h' Hreach IH Hrun|p h b h' Hreach IH Hrun];
    intros Hno.
  - intros [|q] r; simpl; [|done]. by intros [= <-].
  - pose proof (grows_Key _ _ _ _ _ Hrun) as Hgrow.
    eapply caches_true_sound_grows; [done|].
    apply IH. by eapply no_map_lists_grows.
  - destruct (reachable_invariant h Hreach) as [Hwf _].
    pose proof (grows_Index _ _ _ _ _ Hwf Hrun) as Hgrow.
    eapply caches_true_sound_grows; [done|].
    apply IH. by eapply no_map_lists_grows.
  - destruct (reachable_invariant h Hreach) as [Hwf _].
    assert (no_map_lists h = true) as Hno0.
    { eapply no_map_lists_cache_frame; [|done].
      by eapply CachedDeepEqual_fuel_frame. }
    eapply caches_true_sound_CachedDeepEqual; eauto.
Qed.

(** X5: on a store a validation can build in which no list is a map list,
    [CachedDeepEqual] says "equal" only when the old and the new value of
    the node are the same value: the comparison through the children never
    takes two different values for equal. *)
Theorem CachedDeepEqual_true_only_on_equal_values p r h h' :
  range_keys_lawful → reachable h → no_map_lists h = true →
  h !! p = Some r → CachedDeepEqual p h = Ok (true, h') →
  OldValue r = Value r.
Proof.
  intros Hrange Hreach Hno Hp Hrun.
  destruct (reachable_invariant h Hreach) as [Hwf _].
  pose proof (reachable_caches_true_sound h Hrange Hreach Hno) as Hsound.
  destruct (CachedDeepEqual_reference_value p h true h' Hrange Hwf Hrun)
    as [_ Href].
  by eapply (reference_true_sound h Hwf Hsound Hno).
Qed.

End Soundness.

Section Completeness.
Context {mapListImpl : MapListImpl} {rangeOrder : RangeOrder}.
Implicit Types (h : heap) (p q c : loc) (r : CorrelatedObject) (k : ckey).

Lemma no_cached_false_spec h :
  no_cached_false h = true ↔
  ∀ q r, h !! q = Some r → comparisonResult r ≠ Some false.
Proof.
  unfold no_cached_false. rewrite forallb_forall. split.
  - intros Hall q r Hq Hc.
    assert (In r h) as Hin
      by (apply list_elem_of_In; by eapply list_elem_of_lookup_2).
    specialize (Hall r Hin). by rewrite Hc in Hall.
  - intros Hall r Hin.
    apply list_elem_of_In, list_elem_of_lookup_1 in Hin as [q Hq].
    specialize (Hall q r Hq). by destruct (comparisonResult r) as [[]|].
Qed.

Lemma fully_visited_children n h p r :
  h !! p = Some r → fully_visited (S n) h p = true →
  ∀ k, k ∈ positions (Value r) →
       ∃ c, children r !! k = Some c ∧ fully_visited n h c = true.
Proof.
  intros Hp Hvis k Hk. simpl in Hvis. rewrite Hp in Hvis.
  rewrite forallb_forall in Hvis.
  specialize (Hvis k (proj1 (list_elem_of_In _ _) Hk)).
  destruct (children r !! k) as [c|]; [by eauto|done].
Qed.

(** Without map lists and without a cache that says "not equal", the
    reference algorithm says "equal" on a node with the same old and new
    value below which every position was visited. *)
Lemma reference_true_complete h :
  heap_wf h → no_map_lists h = true → no_cached_false h = true →
  ∀ n p r, h !! p = Some r → fully_visited n h p = true →
           OldValue r = Value r →
           CachedDeepEqual_reference n h p = Some true.
Proof.
  intros Hwf Hno Hnf. rewrite no_map_lists_spec in Hno.
  rewrite no_cached_false_spec in Hnf.
  induction n as [|n IH]; intros p r Hp Hvis Heq; [done|].
  pose proof (fully_visited_children n h p r Hp Hvis) as Hkids.
  assert (size (children r) = length (positions (Value r))) as Hsize.
  { apply (children_size_all_positions h p r Hwf Hp).
    intros k Hk. destruct (Hkids k Hk) as (c & -> & _). by eauto. }
  simpl. rewrite Hp. simpl.
  destruct (comparisonResult r) as [[]|] eqn:Hcache;
    [done|by destruct (Hnf p r Hp)|].
  rewrite Heq.
  destruct (Value r) as [|v|nl|nm] eqn:Hv; try done.
  - by rewrite bool_decide_eq_true_2.
  - simpl in Hsize. rewrite length_index_keys in Hsize.
    rewrite decide_False by (intros Hne; by apply Hne).
    rewrite decide_False by (intros Hne; by apply Hne).
    apply everyChildEqual_true_intro. intros k Hk.
    destruct (Hkids k Hk) as (c & Hc & Hvc). exists c. split; [done|].
    destruct k as [f|i].
    { unfold positions, index_keys in Hk.
      apply list_elem_of_fmap in Hk as (j & [=] & _). }
    destruct (positional_child h p r i c Hwf Hp (Hno _ _ Hp) Hc)
      as (cr & ol' & nl' & Hcr & Ho' & Hv' & _ & Hoi & Hni).
    apply (IH c cr Hcr Hvc).
    assert (ol' = nl) as -> by congruence.
    assert (nl' = nl) as -> by congruence. congruence.
  - simpl in Hsize. rewrite length_fmap in Hsize.
    change (length (elements (dom nm))) with (size (dom nm)) in Hsize.
    rewrite size_dom in Hsize.
    rewrite decide_False by (intros Hne; by apply Hne).
    case_decide; [done|].
    rewrite decide_False by (intros Hne; by apply Hne).
    apply everyChildEqual_true_intro. intros k Hk.
    destruct (Hkids k Hk) as (c & Hc & Hvc). exists c. split; [done|].
    destruct k as [f|i].
    2:{ simpl in Hk. apply list_elem_of_fmap in Hk as (j & [=] & _). }
    destruct (memoized_field_child h p r f c Hwf Hp Hc)
      as (cr & _ & om' & nm' & Hcr & _ & Ho' & Hv' & Hof & Hnf' & _).
    apply (IH c cr Hcr Hvc).
    assert (om' = nm) as -> by congruence.
    assert (nm' = nm) as -> by congruence. congruence.
Qed.

(** X7: on a well-formed store without map lists and without a cache that
    says "not equal", [CachedDeepEqual] of a node with the same old and new
    value is true, provided every position of the value, and of the values
    below it, was looked up and has a child. *)
Theorem CachedDeepEqual_true_on_equal_visited_values p r h :
  range_keys_lawful → heap_wf h →
  no_map_lists h = true → no_cached_false h = true →
  h !! p = Some r → fully_visited (S (length h)) h p = true →
  OldValue r = Value r →
  ∃ h', CachedDeepEqual p h = Ok (true, h').
Proof.
  intros Hrange Hwf Hno Hnf Hp Hvis Heq.
  pose proof (reference_true_complete h Hwf Hno Hnf _ p r Hp Hvis Heq)
    as Href.
  destruct (CachedDeepEqual_fuel_refines Hrange (S (length h)) h p)
    as (b & h' & Hrun & _ & Href'); [done|by eapply lookup_lt_Some|lia|].
  rewrite Href in Href'. injection Href' as <-. by exists h'.
Qed.

End Completeness.

Section Evolving.
Context {mapListImpl : MapListImpl} {rangeOrder : RangeOrder}.
Implicit Types (h : heap) (p q c : loc) (r : CorrelatedObject) (k : ckey).

Lemma keeps_nodes_refl h : keeps_nodes h h.
Proof. intros q r Hq. by eauto 10. Qed.

Lemma keeps_nodes_trans h1 h2 h3 :
  keeps_nodes h1 h2 → keeps_nodes h2 h3 → keeps_nodes h1 h3.
Proof.
  intros H12 H23 q r Hq. destruct (H12 q r Hq) as (r2 & Hq2 & ? & ? & ?).
  destruct (H23 q r2 Hq2) as (r3 & Hq3 & ? & ? & ?).
  exists r3. split_and!; congruence.
Qed.

Lemma keeps_nodes_grows h h' : grows h h' → keeps_nodes h h'.
Proof.
  intros [Hkeep _] q r Hq.
  destruct (Hkeep q r Hq) as (r' & ? & ? & ? & ? & _). by eauto 10.
Qed.

Lemma keeps_nodes_cache_frame h h' : cache_frame h h' → keeps_nodes h h'.
Proof.
  intros [_ Hfr] q r Hq.
  destruct (Hfr q r Hq) as (r' & ? & ? & ? & ? & _). by eauto 10.
Qed.

Lemma evolves_reachable h0 h : reachable h0 → evolves h0 h → reachable h.
Proof.
  intros Hreach Hev.
  induction Hev as [h|h0 l field h res h' _ IH Hrun
                   |h0 l i h res h' _ IH Hrun|h0 p h b h' _ IH Hrun].
  - done.
  - eapply reachable_Key; [by apply IH|done].
  - eapply reachable_Index; [by apply IH|done].
  - eapply reachable_CachedDeepEqual; [by apply IH|done].
Qed.

Lemma evolves_keeps_nodes h0 h :
  heap_wf h0 → evolves h0 h → heap_wf h ∧ keeps_nodes h0 h.
Proof.
  intros Hwf. induction 1 as [h|h0 l field h res h' _ IH Hrun
                 |h0 l i h res h' _ IH Hrun|h0 p h b h' _ IH Hrun].
  - split; [done|apply keeps_nodes_refl].
  - destruct (IH Hwf) as [Hwf1 Hkeep]. split; [by eapply heap_wf_Key|].
    eapply keeps_nodes_trans; [done|].
    by eapply keeps_nodes_grows, grows_Key.
  - destruct (IH Hwf) as [Hwf1 Hkeep]. split; [by eapply heap_wf_Index|].
    eapply keeps_nodes_trans; [done|].
    by eapply keeps_nodes_grows, grows_Index.
  - destruct (IH Hwf) as [Hwf1 Hkeep].
    split; [by eapply heap_wf_CachedDeepEqual_fuel|].
    eapply keeps_nodes_trans; [done|].
    by eapply keeps_nodes_cache_frame, CachedDeepEqual_fuel_frame.
Qed.

(** X15: a lookup never disturbs what is in the store: after [Key] or
    [Index] every node that was there has the same old value, new value,
    schema and equality cache, and a node that was added has an empty
    cache.  So lookups never invalidate an equality result. *)
Theorem lookups_only_add_nodes (l : option loc) field (i : Z) h res h' :
  heap_wf h →
  Key l field h = Ok (res, h') ∨ Index l i h = Ok (res, h') →
  length h ≤ length h' ∧
  (∀ q r, h !! q = Some r →
     ∃ r', h' !! q = Some r' ∧ OldValue r' = OldValue r ∧
           Value r' = Value r ∧ Schema_ r' = Schema_ r ∧
           comparisonResult r' = comparisonResult r) ∧
  (∀ q r', h' !! q = Some r' → length h ≤ q → comparisonResult r' = None).
Proof.
  intros Hwf Hrun.
  assert (grows h h') as [Hkeep Hnew].
  { destruct Hrun as [Hrun|Hrun];
      [by eapply grows_Key|by eapply grows_Index]. }
  split_and!; try done.
  destruct (decide (length h ≤ length h')) as [|Hlt]; [done|].
  destruct (lookup_lt_is_Some_2 h (length h')) as [r Hq]; [lia|].
  destruct (Hkeep _ r Hq) as (r' & Hq'%lookup_lt_Some & _). lia.
Qed.

End Evolving.

Section Updates.
Context {mapListImpl : MapListImpl} {rangeOrder : RangeOrder}
        {engineTypes : EngineTypes} {engine : Engine}.
Implicit Types (h : heap) (p q c : loc) (r : CorrelatedObject).

(** [ValidateUpdate], given what the engine returns on the fresh root and
    what [CachedDeepEqual] then says about the root. *)
Lemma ValidateUpdate_eq (rsv : RatchetingSchemaValidator) new old res h1 eq h2 :
  SchemaValidator_Validate
    (engineValidatorOf (newRatchetingValueValidator (Some 0) (rs_args rsv)))
    new (NewCorrelatedObject new old (schema (rs_args rsv)) []).2
    = Ok (res, h1) →
  CachedDeepEqual 0 h1 = Ok (eq, h2) →
  ValidateUpdate rsv new old =
    Ok (if IsValid res then res
        else if eq then MergeAsWarnings emptyResult res else res).
Proof.
  intros Hengine Heq. unfold ValidateUpdate, Validate. simpl in *.
  rewrite Hengine. simpl. destruct (IsValid res); [done|].
  rewrite Heq. simpl. by destruct eq.
Qed.

Lemma root_store_reachable new old schema h1 :
  evolves (NewCorrelatedObject new old schema []).2 h1 →
  reachable h1 ∧ heap_wf h1 ∧
  ∃ r1, h1 !! 0 = Some r1 ∧ OldValue r1 = old ∧ Value r1 = new.
Proof.
  intros Hev.
  pose proof (evolves_reachable _ _ (reachable_root new old schema) Hev)
    as Hreach.
  destruct (evolves_keeps_nodes _ _
              (heap_wf_NewCorrelatedObject new old schema) Hev)
    as [Hwf Hkeep].
  split_and!; try done.
  destruct (Hkeep 0 _ eq_refl) as (r1 & Hr1 & Ho & Hv & _). by eauto.
Qed.

(** X6: [ValidateUpdate] never hides the errors of an object that was
    changed.  When the engine touches the store through lookups and
    equality tests only, no list of the object is a map list, and the old
    and the new object differ, the result is the engine's result as it
    is. *)
Theorem ValidateUpdate_keeps_errors_of_changed_objects
    (rsv : RatchetingSchemaValidator) new old res h1 :
  range_keys_lawful →
  SchemaValidator_Validate
    (engineValidatorOf (newRatchetingValueValidator (Some 0) (rs_args rsv)))
    new (NewCorrelatedObject new old (schema (rs_args rsv)) []).2
    = Ok (res, h1) →
  evolves (NewCorrelatedObject new old (schema (rs_args rsv)) []).2 h1 →
  no_map_lists h1 = true →
  old ≠ new →
  ValidateUpdate rsv new old = Ok res.
Proof.
  intros Hrange Hengine Hev Hno Hne.
  destruct (root_store_reachable _ _ _ _ Hev)
    as (Hreach & Hwf & r1 & Hr1 & Ho & Hv).
  destruct (CachedDeepEqual_total h1 0 Hrange Hwf) as (eq & h2 & Heq & _).
  { by eapply lookup_lt_Some. }
  rewrite (ValidateUpdate_eq rsv new old res h1 eq h2 Hengine Heq).
  destruct (IsValid res); [done|]. destruct eq; [|done].
  destruct Hne. rewrite <-Ho, <-Hv.
  pose proof (reachable_caches_true_sound h1 Hrange Hreach Hno) as Hsound.
  destruct (CachedDeepEqual_reference_value 0 h1 true h2 Hrange Hwf Heq)
    as [_ Href].
  by eapply (reference_true_sound h1 Hwf Hsound Hno).
Qed.

(** X16: [ValidateUpdate] forgives every error against an object that was
    not changed, once the engine has looked at all of it.  When the engine
    touches the store through lookups and equality tests only, no list of
    the object is a map list, no node was found "not equal", every
    position of the object has a child, and old and new object are the
    same, the result has no error and carries the engine's errors as
    warnings, in front of the engine's warnings. *)
Theorem ValidateUpdate_forgives_unchanged_visited_objects
    (rsv : RatchetingSchemaValidator) obj res h1 :
  range_keys_lawful →
  SchemaValidator_Validate
    (engineValidatorOf (newRatchetingValueValidator (Some 0) (rs_args rsv)))
    obj (NewCorrelatedObject obj obj (schema (rs_args rsv)) []).2
    = Ok (res, h1) →
  evolves (NewCorrelatedObject obj obj (schema (rs_args rsv)) []).2 h1 →
  no_map_lists h1 = true → no_cached_false h1 = true →
  fully_visited (S (length h1)) h1 0 = true →
  ValidateUpdate rsv obj obj =
    Ok {| Errors := []; Warnings := Errors res ++ Warnings res |}.
Proof.
  intros Hrange Hengine Hev Hno Hnf Hvis.
  destruct (root_store_reachable _ _ _ _ Hev)
    as (Hreach & Hwf & r1 & Hr1 & Ho & Hv).
  pose proof (reference_true_complete h1 Hwf Hno Hnf _ 0 r1 Hr1 Hvis
                ltac:(congruence)) as Href.
  destruct (CachedDeepEqual_fuel_refines Hrange (S (length h1)) h1 0)
    as (b & h2 & Hrun & _ & Href'); [done|by eapply lookup_lt_Some|lia|].
  rewrite Href in Href'. injection Href' as <-.
  rewrite (ValidateUpdate_eq rsv obj obj res h1 true h2 Hengine Hrun).
  destruct (IsValid res) eqn:Hvalid; [|done].
  apply IsValid_true in Hvalid. destruct res as [errs warns].
  simpl in Hvalid. by subst errs.
Qed.

(** X14: on a store a validation can build, a hook that returns a
    ratcheting validator has bound it to a node that holds the old and the
    new value of the child it was asked for: the two values of the field
    for [SubPropertyValidator], the new element at the index and a non-nil
    old value for [SubIndexValidator].  The store the hook leaves can
    again be built by a validation. *)
Theorem hooks_bind_validators_to_the_values_of_the_child
    (rv : ratchetingValueValidator) (field : string) (index : Z)
    (schema : option Schema) (rootSchema : RootSchema) (root : string)
    (formats : Registry) (options : list validate_Option) h p r :
  reachable h → correlation rv = Some p → h !! p = Some r →
  (∀ child h',
     SubPropertyValidator rv field schema rootSchema root formats options h
       = Ok (ratcheting child, h') →
     reachable h' ∧
     ∃ c cr oldAsMap newAsMap,
       correlation child = Some c ∧ h' !! c = Some cr ∧
       OldValue r = VMap oldAsMap ∧ Value r = VMap newAsMap ∧
       oldAsMap !! field = Some (OldValue cr) ∧
       newAsMap !! field = Some (Value cr)) ∧
  (∀ child h',
     SubIndexValidator rv index schema rootSchema root formats options h
       = Ok (ratcheting child, h') →
     reachable h' ∧
     ∃ c cr oldAsList asList,
       correlation child = Some c ∧ h' !! c = Some cr ∧
       OldValue r = VList oldAsList ∧ Value r = VList asList ∧
       (0 ≤ index)%Z ∧
       asList !! Z.to_nat index = Some (Value cr) ∧
       OldValue cr ≠ VNull).
Proof.
  intros Hreach Hcorr Hp.
  destruct (reachable_invariant h Hreach) as [Hwf _]. split.
  - intros child h' Hrun. unfold SubPropertyValidator in Hrun.
    destruct (Key (correlation rv) field h) as [[[c|] h1]| |] eqn:Hkey;
      simpl in Hrun; try done.
    injection Hrun as <- <-.
    split; [by eapply reachable_Key|].
    pose proof (heap_wf_Key _ _ _ _ _ Hwf Hkey) as Hwf1.
    assert (grows h h1) as [Hkeep _] by by eapply grows_Key.
    destruct (Hkeep p r Hp) as (r1 & Hp1 & Ho1 & Hv1 & _).
    rewrite Hcorr in Hkey.
    destruct (lookup_effect_Key h p r field (Some c) h1 Hwf Hp Hkey)
      as (Heff & _ & _). simpl in Heff.
    assert (children r1 !! FieldKey field = Some c) as Hchild.
    { destruct Heff as [[Hc ->]|(_ & _ & _ & _ & r1' & Hp1' & Hkids & _)].
      - assert (r1 = r) as -> by congruence. done.
      - assert (r1' = r1) as -> by congruence.
        rewrite Hkids. apply lookup_insert_eq. }
    destruct (memoized_field_child h1 p r1 field c Hwf1 Hp1 Hchild)
      as (cr & _ & om & nm & Hcr & _ & Ho & Hv & Hof & Hnf & _).
    exists c, cr, om, nm. split_and!; try done; congruence.
  - intros child h' Hrun. unfold SubIndexValidator in Hrun.
    destruct (Index (correlation rv) index h) as [[[c|] h1]| |] eqn:Hidx;
      simpl in Hrun; try done.
    injection Hrun as <- <-.
    split; [by eapply reachable_Index|].
    pose proof (heap_wf_Index _ _ _ _ _ Hwf Hidx) as Hwf1.
    assert (grows h h1) as [Hkeep _] by by eapply grows_Index.
    destruct (Hkeep p r Hp) as (r1 & Hp1 & Ho1 & Hv1 & _).
    rewrite Hcorr in Hidx.
    destruct (lookup_effect_Index h p r index (Some c) h1 Hwf Hp Hidx)
      as (Heff & _ & _). simpl in Heff.
    assert (children r1 !! IndexKey index = Some c) as Hchild.
    { destruct Heff as [[Hc ->]|(_ & _ & _ & _ & r1' & Hp1' & Hkids & _)].
      - assert (r1 = r) as -> by congruence. done.
      - assert (r1' = r1) as -> by congruence.
        rewrite Hkids. apply lookup_insert_eq. }
    destruct (memoized_index_child h1 p r1 index c Hwf1 Hp1 Hchild)
      as (cr & _ & ol & nl & Hcr & _ & Ho & Hv & Hi & He & _ & Hnn & _).
    exists c, cr, ol, nl. split_and!; try done; congruence.
Qed.

(** X17: [Validate] at any node of the tree, the root or a child a hook
    bound a validator to, never hides the errors of a node that was
    changed.  When the store is one a validation can build, the engine
    touches it through lookups and equality tests only, no list is a map
    list, and the old and the new value of the node differ, [Validate]
    returns the engine's result as it is and leaves a store a validation
    can build. *)
Theorem Validate_keeps_errors_of_changed_nodes
    (rv : ratchetingValueValidator) new c node h res h1 :
  range_keys_lawful → reachable h →
  correlation rv = Some c → h !! c = Some node →
  SchemaValidator_Validate (engineValidatorOf rv) (Value node) h
    = Ok (res, h1) →
  evolves h h1 → no_map_lists h1 = true →
  OldValue node ≠ Value node →
  ∃ h2, Validate rv new h = Ok (res, h2) ∧ reachable h2.
Proof.
  intros Hrange Hreach Hc Hnode Hengine Hev Hno Hne.
  destruct (reachable_invariant h Hreach) as [Hwf _].
  pose proof (evolves_reachable h h1 Hreach Hev) as Hreach1.
  destruct (evolves_keeps_nodes h h1 Hwf Hev) as [Hwf1 Hkeep].
  destruct (Hkeep c node Hnode) as (node1 & Hnode1 & Ho & Hv & _).
  unfold Validate. rewrite Hc, Hnode, Hengine. simpl.
  destruct (IsValid res); [by eauto|].
  destruct (CachedDeepEqual_total h1 c Hrange Hwf1) as (eq & h2 & Heq & _).
  { by eapply lookup_lt_Some. }
  rewrite Heq. simpl.
  assert (reachable h2) as Hreach2 by by eapply reachable_CachedDeepEqual.
  destruct eq; [|by eauto].
  destruct Hne. rewrite <-Ho, <-Hv.
  pose proof (reachable_caches_true_sound h1 Hrange Hreach1 Hno) as Hsound.
  destruct (CachedDeepEqual_reference_value c h1 true h2 Hrange Hwf1 Heq)
    as [_ Href].
  by eapply (reference_true_sound h1 Hwf1 Hsound Hno).
Qed.

End Updates.

(** * The further properties at concrete inputs *)

Section FurtherWitnesses.
Import Examples.
Local Open Scope string_scope.
Existing Instance nameKeyed.
Existing Instance sortedRange.
Existing Instance plainTypes.

Lemma objectStore_reachable : reachable objectStore.
Proof. apply reachable_root. Qed.

Lemma visitedObjectStore_reachable : reachable visitedObjectStore.
Proof.
  eapply (reachable_Key (Some 0) "y" (storeOf (Key (Some 0) "x" objectStore))
            (Some 2)).
  - eapply (reachable_Key (Some 0) "x" objectStore (Some 1)).
    + apply objectStore_reachable.
    + reflexivity.
  - reflexivity.
Qed.

(** X1 at the store of an object whose two fields were looked up. *)
Lemma reachable_stores_are_well_formed_witness :
  heap_wf visitedObjectStore ∧ caches_sound visitedObjectStore.
Proof.
  apply reachable_stores_are_well_formed, visitedObjectStore_reachable.
Defined.

(** X2 at the root of that store: comparing the object leaves the child
    under "x" with its values and without children. *)
Lemma CachedDeepEqual_touches_caches_only_witness :
  length (storeOf (CachedDeepEqual 0 visitedObjectStore))
    = length visitedObjectStore ∧
  ∃ r', storeOf (CachedDeepEqual 0 visitedObjectStore) !! 1 = Some r' ∧
        OldValue r' = vInt 1 ∧ Value r' = vInt 1 ∧ children r' = ∅.
Proof.
  destruct (CachedDeepEqual_touches_caches_only 0 visitedObjectStore true
              (storeOf (CachedDeepEqual 0 visitedObjectStore)))
    as [Hlen Hfr].
  - reflexivity.
  - split; [exact Hlen|].
    destruct (Hfr 1
                (mkCorrelatedObject (vInt 1) (vInt 1) (Some leafSchema)
                   None None ∅) eq_refl)
      as (r' & Hr' & Ho & Hv & _ & _ & Hc).
    exists r'. by split_and!.
Defined.

(** X3: after the child under "x" was compared, comparing the root keeps
    the child's cache. *)
Lemma CachedDeepEqual_keeps_filled_caches_witness :
  ∃ r', storeOf (CachedDeepEqual 0
                   (storeOf (CachedDeepEqual 1 visitedObjectStore))) !! 1
          = Some r' ∧
        comparisonResult r' = Some true.
Proof.
  destruct (CachedDeepEqual_keeps_filled_caches 0
              (storeOf (CachedDeepEqual 1 visitedObjectStore)) true
              (storeOf (CachedDeepEqual 0
                          (storeOf (CachedDeepEqual 1 visitedObjectStore)))))
    as [_ Hkeep].
  - apply sortedRange_lawful.
  - eapply (heap_wf_CachedDeepEqual_fuel 4 1 visitedObjectStore true).
    + apply visitedObjectStore_wf.
    + reflexivity.
  - apply Nat.ltb_lt. reflexivity.
  - reflexivity.
  - apply (Hkeep 1
             (mkCorrelatedObject (vInt 1) (vInt 1) (Some leafSchema)
                (Some true) None ∅) true); reflexivity.
Defined.

(** X4 at the root of the visited object. *)
Lemma CachedDeepEqual_returns_on_reachable_stores_witness :
  ∃ b h', CachedDeepEqual 0 visitedObjectStore = Ok (b, h') ∧ reachable h'.
Proof.
  apply CachedDeepEqual_returns_on_reachable_stores.
  - apply sortedRange_lawful.
  - apply visitedObjectStore_reachable.
  - apply Nat.ltb_lt. reflexivity.
Defined.

(** X13 at the child under "x", two equal integers. *)
Lemma CachedDeepEqual_decided_by_values_witness :
  ∃ b h', CachedDeepEqual 1 visitedObjectStore = Ok (b, h') ∧ b = true.
Proof.
  exists true, (storeOf (CachedDeepEqual 1 visitedObjectStore)).
  split; [reflexivity|].
  apply (CachedDeepEqual_decided_by_values 1
           (mkCorrelatedObject (vInt 1) (vInt 1) (Some leafSchema)
              None None ∅)
           visitedObjectStore true
           (storeOf (CachedDeepEqual 1 visitedObjectStore)) true).
  - apply visitedObjectStore_reachable.
  - reflexivity.
  - reflexivity.
  - reflexivity.
Defined.

(** X9 at the first element of a reordered map-type list: the second call
    finds the element named "b" again and changes nothing. *)
Lemma correlate_builds_map_list_once_witness :
  correlateOldValueForChildAtNewIndex 0 0
    (storeOf (correlateOldValueForChildAtNewIndex 0 0 reorderedStore))
  = Ok (named "b" 2,
        storeOf (correlateOldValueForChildAtNewIndex 0 0 reorderedStore)).
Proof.
  destruct (correlate_builds_map_list_once 0 0 reorderedStore (named "b" 2)
              (storeOf (correlateOldValueForChildAtNewIndex 0 0
                          reorderedStore)))
    as [Hagain _].
  - reflexivity.
  - exact Hagain.
Defined.

(** X10 at the root of a fresh object. *)
Lemma lookups_return_for_every_field_and_index_witness :
  (∃ res h', Key (Some 0) "x" objectStore = Ok (res, h')) ∧
  (∃ res h', Index (Some 0) 0 objectStore = Ok (res, h')).
Proof.
  destruct (lookups_return_for_every_field_and_index (Some 0) "x" 0
              objectStore objectStore_wf) as [HKey HIndex].
  - intros p [= <-]. apply Nat.ltb_lt. reflexivity.
  - split; [exact HKey|]. apply HIndex. lia.
Defined.

(** X11 at a list correlated by position. *)
Lemma Index_with_negative_index_witness :
  Index (Some 0) (-1) positionalStore = Panic.
Proof.
  etransitivity.
  - apply (Index_with_negative_index positionalStore 0
             (mkCorrelatedObject (VList [vInt 9; vInt 2])
                (VList [vInt 1; vInt 2]) (Some (listSchema ∅)) None None ∅)
             (listSchema ∅) [vInt 9; vInt 2] [vInt 1; vInt 2] (-1)).
    + apply heap_wf_NewCorrelatedObject.
    + reflexivity.
    + reflexivity.
    + reflexivity.
    + reflexivity.
    + lia.
  - reflexivity.
Defined.

(** X8 at the root of the visited object: two fields, two children. *)
Lemma children_sit_at_positions_of_the_new_value_witness :
  ∃ r, visitedObjectStore !! 0 = Some r ∧
       (size (children r)
          ≤ size ({[ "x" := vInt 1; "y" := VNull ]} : gmap string value))%nat.
Proof.
  eexists. split; [reflexivity|].
  destruct (children_sit_at_positions_of_the_new_value visitedObjectStore 0 _
              visitedObjectStore_wf eq_refl) as (_ & _ & Hsize).
  exact Hsize.
Defined.

(** X12 at an unchanged one-element list of type "set". *)
Lemma set_and_atomic_lists_are_compared_as_empty_or_unequal_witness :
  Index (Some 0) 0 (unchangedListStore "set")
    = Ok (None, unchangedListStore "set") ∧
  ∃ h', CachedDeepEqual 0 (unchangedListStore "set") = Ok (false, h').
Proof.
  destruct (set_and_atomic_lists_are_compared_as_empty_or_unequal
              (unchangedListStore "set") 0
              (mkCorrelatedObject (VList [vInt 1]) (VList [vInt 1])
                 (Some (listSchema (listTypeExt "set"))) None None ∅)
              (listSchema (listTypeExt "set")) [vInt 1] [vInt 1])
    as (HIndex & _ & Hequal).
  - apply heap_wf_NewCorrelatedObject.
  - reflexivity.
  - reflexivity.
  - left. reflexivity.
  - reflexivity.
  - reflexivity.
  - split; [apply HIndex|]. apply Hequal. reflexivity.
Defined.

(** X5 at the root of the visited object, which compares equal. *)
Lemma CachedDeepEqual_true_only_on_equal_values_witness :
  no_map_lists visitedObjectStore = true ∧
  CachedDeepEqual 0 visitedObjectStore
    = Ok (true, storeOf (CachedDeepEqual 0 visitedObjectStore)) ∧
  ∃ r, visitedObjectStore !! 0 = Some r ∧ OldValue r = Value r.
Proof.
  split; [reflexivity|]. split; [reflexivity|].
  eexists. split; [reflexivity|].
  apply (CachedDeepEqual_true_only_on_equal_values 0 _ visitedObjectStore
           (storeOf (CachedDeepEqual 0 visitedObjectStore))).
  - apply sortedRange_lawful.
  - apply visitedObjectStore_reachable.
  - reflexivity.
  - reflexivity.
  - reflexivity.
Defined.

(** X7 at the root of the visited object. *)
Lemma CachedDeepEqual_true_on_equal_visited_values_witness :
  fully_visited 4 visitedObjectStore 0 = true ∧
  ∃ h', CachedDeepEqual 0 visitedObjectStore = Ok (true, h').
Proof.
  split; [reflexivity|].
  apply (CachedDeepEqual_true_on_equal_visited_values 0
           (mkCorrelatedObject (sampleObject 1) (sampleObject 1)
              (Some (objectSchema ["x"; "y"])) None None
              {[ FieldKey "x" := 1; FieldKey "y" := 2 ]})
           visitedObjectStore).
  - apply sortedRange_lawful.
  - apply visitedObjectStore_wf.
  - reflexivity.
  - reflexivity.
  - reflexivity.
  - reflexivity.
  - reflexivity.
Defined.

(** X15 at the lookup of the field "x" in a fresh object: the root keeps
    its empty cache. *)
Lemma lookups_only_add_nodes_witness :
  (length objectStore
     ≤ length (storeOf (Key (Some 0) "x" objectStore)))%nat ∧
  ∃ r', storeOf (Key (Some 0) "x" objectStore) !! 0 = Some r' ∧
        OldValue r' = sampleObject 1 ∧ comparisonResult r' = None.
Proof.
  destruct (lookups_only_add_nodes (Some 0) "x" 0 objectStore (Some 1)
              (storeOf (Key (Some 0) "x" objectStore)) objectStore_wf)
    as (Hlen & Hkeep & _).
  - left. reflexivity.
  - split; [exact Hlen|].
    destruct (Hkeep 0
                (mkCorrelatedObject (sampleObject 1) (sampleObject 1)
                   (Some (objectSchema ["x"; "y"])) None None ∅) eq_refl)
      as (r' & Hr' & Ho & _ & _ & Hc).
    exists r'. by split_and!.
Defined.

(** X6 at the scenario of the specification: the field "foo" goes from one
    rejected string to another, and the error stays. *)
Lemma ValidateUpdate_keeps_errors_of_changed_objects_witness :
  ValidateUpdate (engine := walkingEngine enumAB 3)
    (validatorFor (objectSchema ["foo"]))
    (VMap {[ "foo" := vString "other" ]})
    (VMap {[ "foo" := vString "legacy" ]})
  = Ok enumFailure.
Proof.
  apply (ValidateUpdate_keeps_errors_of_changed_objects
           (engine := walkingEngine enumAB 3)
           (validatorFor (objectSchema ["foo"]))
           (VMap {[ "foo" := vString "other" ]})
           (VMap {[ "foo" := vString "legacy" ]})
           enumFailure
           (storeOf (CachedDeepEqual 1
              (storeOf (Key (Some 0) "foo"
                 (rootHeap (VMap {[ "foo" := vString "other" ]})
                           (VMap {[ "foo" := vString "legacy" ]})
                           (objectSchema ["foo"]))))))).
  - apply sortedRange_lawful.
  - reflexivity.
  - eapply (evolves_CachedDeepEqual _ 1
              (storeOf (Key (Some 0) "foo"
                 (rootHeap (VMap {[ "foo" := vString "other" ]})
                           (VMap {[ "foo" := vString "legacy" ]})
                           (objectSchema ["foo"])))) false).
    + eapply (evolves_Key _ (Some 0) "foo" _ (Some 1)).
      * apply evolves_refl.
      * reflexivity.
    + reflexivity.
  - reflexivity.
  - intros Heq.
    apply (f_equal (λ v, match v with
                         | VMap m => m !! "foo"
                         | _ => None
                         end)) in Heq.
    vm_compute in Heq. discriminate Heq.
Defined.

(** X16 at an unchanged object that the engine rejects as a whole after
    visiting its two fields: the error comes back as a warning. *)
Lemma ValidateUpdate_forgives_unchanged_visited_objects_witness :
  ValidateUpdate (engine := walkingEngine scalarsOnly 3)
    (validatorFor (objectSchema ["x"; "y"]))
    (sampleObject 1) (sampleObject 1)
  = Ok {| Errors := []; Warnings := ["must be a scalar"] |}.
Proof.
  etransitivity.
  - apply (ValidateUpdate_forgives_unchanged_visited_objects
             (engine := walkingEngine scalarsOnly 3)
             (validatorFor (objectSchema ["x"; "y"]))
             (sampleObject 1) scalarFailure
             (storeOf (Key (Some 0) "x"
                (storeOf (Key (Some 0) "y" objectStore))))).
    + apply sortedRange_lawful.
    + reflexivity.
    + eapply (evolves_Key _ (Some 0) "x"
                (storeOf (Key (Some 0) "y" objectStore)) (Some 2)).
      * eapply (evolves_Key _ (Some 0) "y" _ (Some 1)).
        -- apply evolves_refl.
        -- reflexivity.
      * reflexivity.
    + reflexivity.
    + reflexivity.
    + reflexivity.
  - reflexivity.
Defined.

(** X14 at the hook for the field "x" of a fresh object: the validator it
    returns is bound to a node holding the integer 1 twice. *)
Lemma hooks_bind_validators_to_the_values_of_the_child_witness :
  reachable (storeOf (Key (Some 0) "x" objectStore)) ∧
  ∃ c cr,
    storeOf (Key (Some 0) "x" objectStore) !! c = Some cr ∧
    Some (OldValue cr)
      = ({[ "x" := vInt 1; "y" := VNull ]} : gmap string value) !! "x" ∧
    Some (Value cr)
      = ({[ "x" := vInt 1; "y" := VNull ]} : gmap string value) !! "x".
Proof.
  destruct (hooks_bind_validators_to_the_values_of_the_child
              (rootValidator (objectSchema ["x"; "y"])) "x" 0
              (Some leafSchema) tt "" tt [] objectStore 0
              (mkCorrelatedObject (sampleObject 1) (sampleObject 1)
                 (Some (objectSchema ["x"; "y"])) None None ∅)
              objectStore_reachable eq_refl eq_refl) as [Hfield _].
  destruct (Hfield
              (newRatchetingValueValidator (engineTypes := plainTypes)
                 (Some 1)
                 (@mkSchemaArgs plainTypes _ (Some leafSchema) tt "" tt []))
              (storeOf (Key (Some 0) "x" objectStore)) eq_refl)
    as (Hreach & c & cr & om & nm & _ & Hcr & Ho & Hv & Hof & Hnf).
  split; [exact Hreach|]. exists c, cr. split; [exact Hcr|].
  injection Ho as <-. injection Hv as <-. by split.
Defined.

(** X17 at the child under "foo", which went from one rejected string to
    another: the validator the hook bound to it keeps the error. *)
Lemma Validate_keeps_errors_of_changed_nodes_witness :
  ∃ h2,
    Validate (engine := walkingEngine enumAB 3)
      (newRatchetingValueValidator (engineTypes := plainTypes) (Some 1)
         (@mkSchemaArgs plainTypes _ (Some leafSchema) tt "" tt []))
      (vString "other")
      (storeOf (Key (Some 0) "foo"
         (rootHeap (VMap {[ "foo" := vString "other" ]})
                   (VMap {[ "foo" := vString "legacy" ]})
                   (objectSchema ["foo"]))))
    = Ok (enumFailure, h2) ∧ reachable h2.
Proof.
  apply (Validate_keeps_errors_of_changed_nodes
           (engine := walkingEngine enumAB 3) _ _ 1
           (mkCorrelatedObject (vString "legacy") (vString "other")
              (Some leafSchema) None None ∅)
           _ enumFailure
           (storeOf (Key (Some 0) "foo"
              (rootHeap (VMap {[ "foo" := vString "other" ]})
                        (VMap {[ "foo" := vString "legacy" ]})
                        (objectSchema ["foo"]))))).
  - apply sortedRange_lawful.
  - eapply (reachable_Key (Some 0) "foo"
              (rootHeap (VMap {[ "foo" := vString "other" ]})
                        (VMap {[ "foo" := vString "legacy" ]})
                        (objectSchema ["foo"])) (Some 1)).
    + apply reachable_root.
    + reflexivity.
  - reflexivity.
  - reflexivity.
  - reflexivity.
  - apply evolves_refl.
  - reflexivity.
  - discriminate.
Defined.

End FurtherWitnesses.
